(** * Geocoin Carrier: a shallow embedding of the game logic

    The repository holds several successive versions of one TypeScript
    program (a Leaflet map game).  This development embeds the state-carrying
    parts of these versions:

    - [Ledger]  the token factory, [collect], the popup producer and the
      deposit handler, whose text is the same in [src/main.ts] and in the
      version with cache mementos;
    - [Main]    the start-up spawn loop and [movePlayer] of [src/main.ts];
    - [Persist] [saveCacheState], [restoreCacheState], [spawnRelativeCache]
      and [movePlayer] of the version with cache mementos;
    - [Manager] the last version, with [GameStateManager] and
      [resetGameState];
    - [Registry] the [Board] flyweight;
    - [PersistPage], [ManagerPage] the controls of the two later versions:
      direction buttons, geolocation fixes, the reset button;
    - [Geolocation] the sensor button and its watch;
    - [Storage] [savePlayerState] and [loadPlayerState].

    JavaScript objects have identity and are shared: tokens and arrays live
    in two stores and are named by references (their index in the store).
    Numbers are exact rationals: floating-point rounding is not modelled.
    The map widget, the DOM and [localStorage] are collaborators; what the
    program sends them is recorded in a log of effects. *)

From stdpp Require Import gmap strings list fin_maps pretty.
From Stdlib Require Import Ascii QArith Qround.

Close Scope Q_scope.

(** ** Numbers and their decimal text *)

(** Digits of the fraction [r / d] (with [0 <= r < d]) until the remainder
    vanishes, [fuel] digits at most. *)
Fixpoint fractionDigits (fuel : nat) (r d : Z) : string :=
  match fuel with
  | O => ""
  | S k =>
      if (r =? 0)%Z then ""
      else pretty ((r * 10) / d)%Z +:+ fractionDigits k ((r * 10) mod d)%Z d
  end.

(** [String(x)] for a number, as a template literal and [Array.toString]
    compute it: an integer prints without a point, anything else as sign,
    integer part, point and fraction digits. *)
Definition numberToString (x : Q) : string :=
  let n := Qnum (Qred x) in
  let d := Zpos (Qden (Qred x)) in
  if (d =? 1)%Z then pretty n
  else (if (n <? 0)%Z then "-" else "")
       +:+ pretty (Z.abs n / d)%Z +:+ "."
       +:+ fractionDigits 24 (Z.abs n mod d)%Z d.

(** [Math.floor] and [Math.round] (round half up). *)
Definition mathFloor (x : Q) : Z := Qfloor x.
Definition mathRound (x : Q) : Z := Qfloor (x + (1 # 2))%Q.

(** ** Constants *)

Definition OAKES_CLASSROOM_lat : Q := 36.98949379578401%Q.
Definition OAKES_CLASSROOM_lng : Q := (-122.06277128548504)%Q.
Definition TILE_DEGREES : Q := 1e-4%Q.
Definition NEIGHBORHOOD_SIZE : Z := 8.
Definition CACHE_SPAWN_PROBABILITY : Q := 0.1%Q.

(** ** Data *)

(** What [createCell i j] returns: the two numbers; [toLatLng] and
    [toString] are functions of them. *)
Record Cell := createCell { cell_i : Q; cell_j : Q }.

Definition toLatLng (c : Cell) : Q * Q :=
  ((OAKES_CLASSROOM_lat + cell_i c * TILE_DEGREES)%Q,
   (OAKES_CLASSROOM_lng + cell_j c * TILE_DEGREES)%Q).

(** [`${i}:${j}`] *)
Definition cellKey (c : Cell) : string :=
  numberToString (cell_i c) +:+ ":" +:+ numberToString (cell_j c).

(** [[i, j].toString()] and [[cell.i, cell.j, "coinCount"].toString()] *)
Definition spawnSeed (i j : Q) : string :=
  numberToString i +:+ "," +:+ numberToString j.
Definition coinCountSeed (c : Cell) : string :=
  numberToString (cell_i c) +:+ "," +:+ numberToString (cell_j c)
  +:+ ",coinCount".

(** The data fields of a [Geocoin] object.  Its [collect] method is the
    function [collect] below, applied to the object's reference. *)
Record Geocoin := mkGeocoin {
  latitude : Q;
  longitude : Q;
  serial : nat;
  collected : bool
}.

Definition setCollected (b : bool) (g : Geocoin) : Geocoin :=
  mkGeocoin (latitude g) (longitude g) (serial g) b.

(** A value that can end up in [playerPosition]: a [leaflet.LatLng], or a
    member that the [movement] table inherits from [Object.prototype]. *)
Inductive JsPosition :=
  | LatLng (lat lng : Q)
  | Inherited (name : string).

Inductive Effect :=
  | DispatchEvent (type : string)
  | Alert (message : string)
  | OpenPopup (c : Cell)
  | MarkerSetLatLng (p : JsPosition)
  | MapPanTo (p : JsPosition)
  | DrawPolyline (path : list JsPosition)
  | NotifyListeners
  | RemoveItem (key : string).

(** The mutable state of the page.  [tokens] and [arrays] are the object
    stores; [coins] is [geocoinFactory.coins], from cell key to the
    reference of that cell's array; [rects] are the rectangles on the map
    that carry a popup. *)
Record World := mkWorld {
  tokens : list Geocoin;
  arrays : list (list nat);
  coins : gmap string nat;
  playerCoins : list nat;
  playerPoints : Z;
  playerPosition : JsPosition;
  playerMovementHistory : list JsPosition;
  spawnedCaches : gset string;
  cacheStateMemento : gmap string (string * nat);
  rects : list Cell;
  log : list Effect
}.

Definition setTokens (x : list Geocoin) (w : World) : World :=
  mkWorld x (arrays w) (coins w) (playerCoins w) (playerPoints w)
    (playerPosition w) (playerMovementHistory w) (spawnedCaches w)
    (cacheStateMemento w) (rects w) (log w).
Definition setArrays (x : list (list nat)) (w : World) : World :=
  mkWorld (tokens w) x (coins w) (playerCoins w) (playerPoints w)
    (playerPosition w) (playerMovementHistory w) (spawnedCaches w)
    (cacheStateMemento w) (rects w) (log w).
Definition setCoins (x : gmap string nat) (w : World) : World :=
  mkWorld (tokens w) (arrays w) x (playerCoins w) (playerPoints w)
    (playerPosition w) (playerMovementHistory w) (spawnedCaches w)
    (cacheStateMemento w) (rects w) (log w).
Definition setPlayerCoins (x : list nat) (w : World) : World :=
  mkWorld (tokens w) (arrays w) (coins w) x (playerPoints w)
    (playerPosition w) (playerMovementHistory w) (spawnedCaches w)
    (cacheStateMemento w) (rects w) (log w).
Definition setPlayerPoints (x : Z) (w : World) : World :=
  mkWorld (tokens w) (arrays w) (coins w) (playerCoins w) x
    (playerPosition w) (playerMovementHistory w) (spawnedCaches w)
    (cacheStateMemento w) (rects w) (log w).
Definition setPlayerPosition (x : JsPosition) (w : World) : World :=
  mkWorld (tokens w) (arrays w) (coins w) (playerCoins w) (playerPoints w)
    x (playerMovementHistory w) (spawnedCaches w)
    (cacheStateMemento w) (rects w) (log w).
Definition setMovementHistory (x : list JsPosition) (w : World) : World :=
  mkWorld (tokens w) (arrays w) (coins w) (playerCoins w) (playerPoints w)
    (playerPosition w) x (spawnedCaches w)
    (cacheStateMemento w) (rects w) (log w).
Definition setSpawnedCaches (x : gset string) (w : World) : World :=
  mkWorld (tokens w) (arrays w) (coins w) (playerCoins w) (playerPoints w)
    (playerPosition w) (playerMovementHistory w) x
    (cacheStateMemento w) (rects w) (log w).
Definition setMemento (x : gmap string (string * nat)) (w : World) : World :=
  mkWorld (tokens w) (arrays w) (coins w) (playerCoins w) (playerPoints w)
    (playerPosition w) (playerMovementHistory w) (spawnedCaches w)
    x (rects w) (log w).
Definition setRects (x : list Cell) (w : World) : World :=
  mkWorld (tokens w) (arrays w) (coins w) (playerCoins w) (playerPoints w)
    (playerPosition w) (playerMovementHistory w) (spawnedCaches w)
    (cacheStateMemento w) x (log w).
Definition emit (e : Effect) (w : World) : World :=
  mkWorld (tokens w) (arrays w) (coins w) (playerCoins w) (playerPoints w)
    (playerPosition w) (playerMovementHistory w) (spawnedCaches w)
    (cacheStateMemento w) (rects w) (log w ++ [e]).

(** The state when the script starts: empty inventory, no points, the
    player at the classroom, nothing on the map. *)
Definition initialWorld : World :=
  mkWorld [] [] ∅ [] 0%Z (LatLng OAKES_CLASSROOM_lat OAKES_CLASSROOM_lng) []
    ∅ ∅ [] [].

(** How a handler ends: normally, or with an uncaught exception. The world
    keeps the writes made before the exception. *)
Inductive Completion :=
  | Normal (w : World)
  | Thrown (w : World).

Definition worldOf (c : Completion) : World :=
  match c with Normal w | Thrown w => w end.

(** ** The token ledger ([geocoinFactory], [collect], popup, deposit) *)

Module Ledger.

(** The contents of an array. *)
Definition arrayOf (a : nat) (w : World) : list nat :=
  default [] (arrays w !! a).

(** [array.push(t)] *)
Definition push (a t : nat) (w : World) : World :=
  setArrays (alter (λ l, l ++ [t]) a (arrays w)) w.

(** [array.indexOf(t)]: [None] stands for [-1]. *)
Fixpoint indexOf (t : nat) (l : list nat) : option nat :=
  match l with
  | [] => None
  | x :: l' => if decide (x = t) then Some 0 else S <$> indexOf t l'
  end.

(** [array.splice(k, 1)] *)
Definition splice1 (k : nat) (l : list nat) : list nat := delete k l.

(** [this.coins[cellKey]], made an empty array first when it is missing.
    Returns the array's reference. *)
Definition ensureArray (key : string) (w : World) : nat * World :=
  match coins w !! key with
  | Some a => (a, w)
  | None =>
      let a := length (arrays w) in
      (a, setCoins (<[key := a]> (coins w)) (setArrays (arrays w ++ [[]]) w))
  end.

(** [geocoinFactory.getCoins(cell)]: the contents of the cell's array, or
    of a new empty array. *)
Definition getCoins (c : Cell) (w : World) : list nat :=
  match coins w !! cellKey c with
  | Some a => arrayOf a w
  | None => []
  end.

(** [geocoinFactory.create(cell)]: returns the new token's reference. *)
Definition create (c : Cell) (w : World) : nat * World :=
  let cellKey := cellKey c in
  let serial := match coins w !! cellKey with
                | Some a => length (arrayOf a w)
                | None => 0
                end in
  let '(latitude, longitude) := toLatLng c in
  let geocoin := length (tokens w) in
  let w := setTokens (tokens w ++ [mkGeocoin latitude longitude serial false]) w in
  let '(a, w) := ensureArray cellKey w in
  (geocoin, push a geocoin w).

(** [geocoinFactory.removeCoin(cell, coin)].  When the cell has no array,
    [coinIndex] is [undefined], which differs from [-1], and the call of
    [splice] on [undefined] throws. *)
Definition removeCoin (c : Cell) (coin : nat) (w : World) : Completion :=
  match coins w !! cellKey c with
  | None => Thrown w
  | Some a =>
      match indexOf coin (arrayOf a w) with
      | Some coinIndex => Normal (setArrays (alter (splice1 coinIndex) a (arrays w)) w)
      | None => Normal w
      end
  end.

(** [geocoinFactory.addCoinToCache(cell, coin)] *)
Definition addCoinToCache (c : Cell) (coin : nat) (w : World) : World :=
  let '(a, w) := ensureArray (cellKey c) w in
  push a coin w.

(** [coin.collect()] for the token at reference [coin] (a method is only
    called on an object of the store; on another number nothing happens). *)
Definition collect (coin : nat) (w : World) : World :=
  match tokens w !! coin with
  | Some g =>
      if collected g then w
      else
        let w := setTokens (<[coin := setCollected true g]> (tokens w)) w in
        let w := setPlayerCoins (playerCoins w ++ [coin]) w in
        let w := setPlayerPoints (playerPoints w + 1) w in
        emit (DispatchEvent "game-state-changed") w
  | None => w
  end.

(** [spawnCache(i, j)]: a rectangle on the map, with the popup producer
    bound to the cell. *)
Definition spawnCache (i j : Q) (w : World) : World :=
  setRects (rects w ++ [createCell i j]) w.

(** The loop [for (let c = 0; c < coinCount; c++) create(cell)]. *)
Fixpoint createMany (n : nat) (c : Cell) (w : World) : World :=
  match n with
  | O => w
  | S k => createMany k c (snd (create c w))
  end.

Section WithLuck.
(** [luck.ts] is imported by every version and is not part of the
    sources: the generator is a parameter. *)
Variable luck : string → Q.

Definition coinCount (c : Cell) : Z :=
  (mathFloor (luck (coinCountSeed c) * 10) + 1)%Z.

(** The state part of [generatePopupContent(cell, rect)]; the rest
    builds the DOM of the popup from [getCoins(cell)]. *)
Definition generatePopupContent (c : Cell) (w : World) : World :=
  let cellKey := cellKey c in
  if decide (cellKey ∈ spawnedCaches w) then w
  else
    let w := createMany (Z.to_nat (coinCount c)) c w in
    let w := setSpawnedCaches ({[cellKey]} ∪ spawnedCaches w) w in
    emit (DispatchEvent "game-state-changed") w.
End WithLuck.

(** [handleCoinDeposit(cell, rect)] *)
Definition handleCoinDeposit (c : Cell) (w : World) : Completion :=
  match last (playerCoins w) with
  | Some depositedCoin =>
      let w := setPlayerCoins (removelast (playerCoins w)) w in
      let w := setTokens (alter (setCollected false) depositedCoin (tokens w)) w in
      let w := setPlayerPoints (playerPoints w - 1) w in
      match removeCoin c depositedCoin w with
      | Thrown w => Thrown w
      | Normal w =>
          let w := addCoinToCache c depositedCoin w in
          let w := emit (DispatchEvent "game-state-changed") w in
          Normal (emit (OpenPopup c) w)
      end
  | None => Normal (emit (Alert "No coins to deposit!") w)
  end.

End Ledger.

(** ** The [movement] table of [movePlayer] *)

(** The table is an object literal, so reading [movement[direction]] also
    finds what every object inherits from [Object.prototype]. *)
Definition objectPrototypeMembers : list string :=
  ["constructor"; "hasOwnProperty"; "isPrototypeOf"; "propertyIsEnumerable";
   "toLocaleString"; "toString"; "valueOf"; "__defineGetter__";
   "__defineSetter__"; "__lookupGetter__"; "__lookupSetter__"; "__proto__"].

(** The four own entries, built from the current position.  From a position
    that is no [LatLng] the coordinates are [undefined], the sums are [NaN]
    and the [leaflet.latLng] factory returns no object: the entries are
    falsy. *)
Definition ownMovement (p : JsPosition) (direction : string) : option JsPosition :=
  match p with
  | LatLng lat lng =>
      if decide (direction = "north") then Some (LatLng (lat + TILE_DEGREES)%Q lng)
      else if decide (direction = "south") then Some (LatLng (lat - TILE_DEGREES)%Q lng)
      else if decide (direction = "east") then Some (LatLng lat (lng + TILE_DEGREES)%Q)
      else if decide (direction = "west") then Some (LatLng lat (lng - TILE_DEGREES)%Q)
      else None
  | Inherited _ => None
  end.

(** [movement[direction]] when it is truthy, [None] when it is not. *)
Definition movementLookup (p : JsPosition) (direction : string) : option JsPosition :=
  match ownMovement p direction with
  | Some v => Some v
  | None =>
      if decide (direction ∈ objectPrototypeMembers) then Some (Inherited direction)
      else None
  end.

(** ** [src/main.ts] *)

Module Main.
Import Ledger.

Section WithLuck.
Variable luck : string → Q.

(** The body of the start-up loop for one cell. *)
Definition visit (i j : Z) (w : World) : World :=
  if Qlt_le_dec (luck (spawnSeed (inject_Z i) (inject_Z j))) CACHE_SPAWN_PROBABILITY
  then spawnCache (inject_Z i) (inject_Z j) w
  else w.

(** [for i in -8 .. 7, for j in -8 .. 7] *)
Definition spawnNeighborhood (w : World) : World :=
  foldl (λ w i,
           foldl (λ w j, visit i j w) w
             (seqZ (- NEIGHBORHOOD_SIZE) (2 * NEIGHBORHOOD_SIZE)))
    w (seqZ (- NEIGHBORHOOD_SIZE) (2 * NEIGHBORHOOD_SIZE)).

(** The world once the script has run. *)
Definition startup : World := spawnNeighborhood initialWorld.

(** [movePlayer(direction)].  The marker is given the new position; it
    rejects a value that is no [LatLng], and the handler stops there. *)
Definition movePlayer (direction : string) (w : World) : Completion :=
  match movementLookup (playerPosition w) direction with
  | Some p =>
      let w := setPlayerPosition p w in
      match p with
      | LatLng _ _ => Normal (emit (MapPanTo p) (emit (MarkerSetLatLng p) w))
      | Inherited _ => Thrown w
      end
  | None => Normal w
  end.

(** The [keydown] listener. *)
Definition onKeyDown (key : string) (w : World) : Completion :=
  if decide (key = "ArrowUp") then movePlayer "north" w
  else if decide (key = "ArrowDown") then movePlayer "south" w
  else if decide (key = "ArrowRight") then movePlayer "east" w
  else if decide (key = "ArrowLeft") then movePlayer "west" w
  else Normal w.

(** What the user can do: open the popup of a rectangle (the map then
    calls the popup producer, as it does again on [rect.openPopup()]),
    press a Collect button, press the Deposit button of a popup, press a
    key. *)
Inductive Action :=
  | PopupOpen (c : Cell)
  | CollectClick (coin : nat)
  | DepositClick (c : Cell)
  | KeyDown (key : string).

Definition step (a : Action) (w : World) : World :=
  match a with
  | PopupOpen c => generatePopupContent luck c w
  | CollectClick coin => collect coin w
  | DepositClick c => worldOf (handleCoinDeposit c w)
  | KeyDown key => worldOf (onKeyDown key w)
  end.

Definition run (acts : list Action) (w : World) : World :=
  foldl (λ w a, step a w) w acts.
End WithLuck.

End Main.

(** ** The version with cache mementos *)

Module Persist.
Import Ledger.

(** [saveCacheState(cell)]: the memento holds a new array with the
    elements of the cell's array. *)
Definition saveCacheState (c : Cell) (w : World) : World :=
  let cellKey := cellKey c in
  let coins := getCoins c w in
  let copy := length (arrays w) in
  setMemento (<[cellKey := (cellKey, copy)]> (cacheStateMemento w))
    (setArrays (arrays w ++ [coins]) w).

(** [restoreCacheState(cell)]: the memento's array itself becomes the
    cell's array. *)
Definition restoreCacheState (c : Cell) (w : World) : World :=
  let cellKey := cellKey c in
  match cacheStateMemento w !! cellKey with
  | Some savedState =>
      setSpawnedCaches ({[cellKey]} ∪ spawnedCaches w)
        (setCoins (<[cellKey := snd savedState]> (coins w)) w)
  | None => w
  end.

(** [updatePlayerMovementHistory()] *)
Definition updatePlayerMovementHistory (w : World) : World :=
  let w := setMovementHistory (playerMovementHistory w ++ [playerPosition w]) w in
  emit (DrawPolyline (playerMovementHistory w)) w.

Section WithLuck.
Variable luck : string → Q.

(** The body of the loop of [spawnRelativeCache] for one cell. *)
Definition visit (i j : Z) (w : World) : World :=
  let cell := createCell (inject_Z i) (inject_Z j) in
  match cacheStateMemento w !! cellKey cell with
  | Some _ => restoreCacheState cell w
  | None =>
      if Qlt_le_dec (luck (spawnSeed (inject_Z i) (inject_Z j))) CACHE_SPAWN_PROBABILITY
      then saveCacheState cell (spawnCache (inject_Z i) (inject_Z j) w)
      else w
  end.

(** [spawnRelativeCache()].  With a position that is no [LatLng] the
    loop bounds are [NaN] and the body never runs. *)
Definition spawnRelativeCache (w : World) : World :=
  match playerPosition w with
  | LatLng playerLat playerLng =>
      let playerI := mathRound ((playerLat - OAKES_CLASSROOM_lat) / TILE_DEGREES)%Q in
      let playerJ := mathRound ((playerLng - OAKES_CLASSROOM_lng) / TILE_DEGREES)%Q in
      let w := setSpawnedCaches ∅ w in
      foldl (λ w i,
               foldl (λ w j, visit i j w) w
                 (seqZ (playerJ - NEIGHBORHOOD_SIZE) (2 * NEIGHBORHOOD_SIZE + 1)))
        w (seqZ (playerI - NEIGHBORHOOD_SIZE) (2 * NEIGHBORHOOD_SIZE + 1))
  | Inherited _ => setSpawnedCaches ∅ w
  end.

(** [movePlayer(direction)] *)
Definition movePlayer (direction : string) (w : World) : Completion :=
  match movementLookup (playerPosition w) direction with
  | Some p =>
      let w := setPlayerPosition p w in
      match p with
      | LatLng _ _ =>
          let w := emit (MapPanTo p) (emit (MarkerSetLatLng p) w) in
          let w := spawnRelativeCache w in
          Normal (updatePlayerMovementHistory w)
      | Inherited _ => Thrown w
      end
  | None => Normal w
  end.

(** The end of the script, with nothing in [localStorage]:
    [loadPlayerState()] finds no record and [spawnRelativeCache()]
    runs. *)
Definition startup : World := spawnRelativeCache initialWorld.
End WithLuck.

End Persist.

(** ** The last version: [GameStateManager] and [resetGameState] *)

(** [String.prototype.toLowerCase], on the letters A to Z. *)
Definition asciiToLower (a : ascii) : ascii :=
  let n := nat_of_ascii a in
  if (65 <=? n)%nat && (n <=? 90)%nat then ascii_of_nat (n + 32) else a.

Fixpoint toLowerCase (s : string) : string :=
  match s with
  | EmptyString => EmptyString
  | String a s' => String (asciiToLower a) (toLowerCase s')
  end.

Module Manager.
Import Ledger.

(** [GameStateManager.onCoinCollected(coin)] *)
Definition onCoinCollected (coin : nat) (w : World) : World :=
  let w := setPlayerCoins (playerCoins w ++ [coin]) w in
  let w := setPlayerPoints (playerPoints w + 1) w in
  emit (DispatchEvent "game-state-changed") w.

(** [GameStateManager.onCoinDeposited(coin)] *)
Definition onCoinDeposited (coin : nat) (w : World) : World :=
  let w := match indexOf coin (playerCoins w) with
           | Some index => setPlayerCoins (splice1 index (playerCoins w)) w
           | None => w
           end in
  let w := setPlayerPoints (playerPoints w - 1) w in
  emit (DispatchEvent "game-state-changed") w.

(** [GameStateManager.updatePlayerPosition(newPosition)] *)
Definition updatePlayerPosition (newPosition : JsPosition) (w : World) : World :=
  let w := setPlayerPosition newPosition w in
  let w := setMovementHistory (playerMovementHistory w ++ [newPosition]) w in
  emit NotifyListeners w.

(** [GameStateManager.resetPlayer()] *)
Definition resetPlayer (w : World) : World :=
  let w := setPlayerCoins [] w in
  let w := setPlayerPoints 0 w in
  let w := setPlayerPosition (LatLng OAKES_CLASSROOM_lat OAKES_CLASSROOM_lng) w in
  setMovementHistory [] w.

(** [coin.collect()] *)
Definition collect (coin : nat) (w : World) : World :=
  match tokens w !! coin with
  | Some g =>
      if collected g then w
      else onCoinCollected coin (setTokens (<[coin := setCollected true g]> (tokens w)) w)
  | None => w
  end.

(** [handleCoinDeposit(cell, rect)]: the coin is popped from the copy that
    [getPlayerCoins()] returns, then taken out of the inventory by
    [onCoinDeposited]. *)
Definition handleCoinDeposit (c : Cell) (w : World) : Completion :=
  match last (playerCoins w) with
  | Some depositedCoin =>
      let w := setTokens (alter (setCollected false) depositedCoin (tokens w)) w in
      let w := onCoinDeposited depositedCoin w in
      match removeCoin c depositedCoin w with
      | Thrown w => Thrown w
      | Normal w =>
          let w := addCoinToCache c depositedCoin w in
          let w := emit (DispatchEvent "game-state-changed") w in
          Normal (emit (OpenPopup c) w)
      end
  | None => Normal (emit (Alert "No coins to deposit!") w)
  end.

(** The loop of [resetGameState] over the held coins. *)
Definition returnCoin (w : World) (coin : nat) : World :=
  let w := setTokens (alter (setCollected false) coin (tokens w)) w in
  match tokens w !! coin with
  | Some g =>
      let originalCell := createCell (latitude g) (longitude g) in
      addCoinToCache originalCell coin w
  | None => w
  end.

(** [resetGameState()]; [userConfirmation] is what [prompt] returned
    ([None] for [null]). *)
Definition resetGameState (userConfirmation : option string) (w : World) : World :=
  if decide (toLowerCase <$> userConfirmation = Some "yes") then
    let w := foldl returnCoin w (playerCoins w) in
    let w := resetPlayer w in
    let w := setSpawnedCaches ∅ w in
    let w := setMemento ∅ w in
    let w := emit (RemoveItem "playerState") w in
    let w := emit (RemoveItem "cacheState") w in
    emit (Alert "Game state has been reset!") w
  else emit (Alert "Game state reset cancelled.") w.

Section WithLuck.
Variable luck : string → Q.

(** [movePlayer(direction)] *)
Definition movePlayer (direction : string) (w : World) : Completion :=
  match movementLookup (playerPosition w) direction with
  | Some p =>
      let w := updatePlayerPosition p w in
      match p with
      | LatLng _ _ =>
          let w := emit (MapPanTo p) (emit (MarkerSetLatLng p) w) in
          let w := Persist.spawnRelativeCache luck w in
          Normal (emit (DrawPolyline (playerMovementHistory w)) w)
      | Inherited _ => Thrown w
      end
  | None => Normal w
  end.

Definition startup : World := Persist.spawnRelativeCache luck initialWorld.
End WithLuck.

End Manager.

(** ** The cell registry ([Board]) *)

Module Registry.

(** The fields of a [ConcreteCell] object. *)
Record ConcreteCell := newConcreteCell { i : Z; j : Z }.

(** [`${this.i}:${this.j}`] *)
Definition toString (c : ConcreteCell) : string :=
  pretty (i c) +:+ ":" +:+ pretty (j c).

(** A [Board] with the store of the cell objects made so far: a cell
    reference is an index in [objects]. *)
Record Board := mkBoard {
  tileWidth : Q;
  tileVisibilityRadius : Z;
  knownCells : gmap string nat;
  objects : list ConcreteCell
}.

(** [new Board(tileWidth, tileVisibilityRadius)] *)
Definition newBoard (tileWidth : Q) (tileVisibilityRadius : Z) : Board :=
  mkBoard tileWidth tileVisibilityRadius ∅ [].

(** [new ConcreteCell(i, j)] *)
Definition allocate (c : ConcreteCell) (b : Board) : nat * Board :=
  (length (objects b),
   mkBoard (tileWidth b) (tileVisibilityRadius b) (knownCells b) (objects b ++ [c])).

(** [getCanonicalCell(cell)] for the object at reference [cell]. *)
Definition getCanonicalCell (cell : nat) (b : Board) : nat * Board :=
  match objects b !! cell with
  | Some c =>
      let key := toString c in
      match knownCells b !! key with
      | Some known => (known, b)
      | None =>
          (cell,
           mkBoard (tileWidth b) (tileVisibilityRadius b)
             (<[key := cell]> (knownCells b)) (objects b))
      end
  | None => (cell, b)
  end.

(** The grid coordinates that [getCellForPoint] derives from a point.  The
    quotient is exact here, where the code divides doubles and the rounded
    quotient can fall on the other side of an integer: the properties below
    take these coordinates as given and say nothing of which tile a point
    falls in. *)
Definition cellIndex (b : Board) (point : Q * Q) : Z * Z :=
  (mathFloor (fst point / tileWidth b)%Q, mathFloor (snd point / tileWidth b)%Q).

(** [getCellForPoint(point)] *)
Definition getCellForPoint (point : Q * Q) (b : Board) : nat * Board :=
  let '(i, j) := cellIndex b point in
  let '(cell, b) := allocate (newConcreteCell i j) b in
  getCanonicalCell cell b.

(** [getCellsNearPoint(point)] *)
Definition getCellsNearPoint (point : Q * Q) (b : Board) : list nat * Board :=
  let '(originCell, b) := getCellForPoint point b in
  let origin := default (newConcreteCell 0 0) (objects b !! originCell) in
  let r := tileVisibilityRadius b in
  foldl (λ acc di,
           foldl (λ '(resultCells, b) dj,
                    let '(nearbyCell, b) :=
                      allocate (newConcreteCell (i origin + di) (j origin + dj)) b in
                    let '(canonical, b) := getCanonicalCell nearbyCell b in
                    (resultCells ++ [canonical], b))
             acc (seqZ (- r) (2 * r + 1)))
    ([], b) (seqZ (- r) (2 * r + 1)).

(** The calls a client can make on a board. *)
Inductive Call :=
  | CellForPoint (point : Q * Q)
  | CellsNearPoint (point : Q * Q).

Definition call (c : Call) (b : Board) : Board :=
  match c with
  | CellForPoint point => snd (getCellForPoint point b)
  | CellsNearPoint point => snd (getCellsNearPoint point b)
  end.

Definition calls (cs : list Call) (b : Board) : Board :=
  foldl (λ b c, call c b) b cs.

(** Every entry of the registry is filed under the text of its own
    coordinates. *)
Definition filedByCoordinates (b : Board) : Prop :=
  ∀ key r, knownCells b !! key = Some r →
    ∃ c, objects b !! r = Some c ∧ toString c = key.

(** Objects and entries are never dropped or replaced. *)
Definition extends (b b' : Board) : Prop :=
  tileWidth b' = tileWidth b
  ∧ tileVisibilityRadius b' = tileVisibilityRadius b
  ∧ (∀ r c, objects b !! r = Some c → objects b' !! r = Some c)
  ∧ (∀ key r, knownCells b !! key = Some r → knownCells b' !! key = Some r).

(** [getCanonicalCell(new ConcreteCell(i, j))] *)
Definition intern (c : ConcreteCell) (b : Board) : nat * Board :=
  let '(cell, b) := allocate c b in getCanonicalCell cell b.

End Registry.

(** ** Notions used in the statements *)

(** The objects that [getCoins(cell)] holds, one by one. *)
Definition lookupCoins (c : Cell) (w : World) : list (option Geocoin) :=
  (λ t, tokens w !! t) <$> Ledger.getCoins c w.

(** Token [t] is in the token list of some cache. *)
Definition inSomeCache (t : nat) (w : World) : Prop :=
  ∃ key a, coins w !! key = Some a ∧ t ∈ Ledger.arrayOf a w.

(** Token [t] is in a cache list or in the inventory, and not in both. *)
Definition inExactlyOnePlace (t : nat) (w : World) : Prop :=
  (inSomeCache t w ∧ t ∉ playerCoins w) ∨ (¬ inSomeCache t w ∧ t ∈ playerCoins w).

(** The number of tokens over all caches plus the inventory. *)
Definition totalHeld (w : World) : nat :=
  sum_list ((λ ka, length (Ledger.arrayOf ka.2 w)) <$> map_to_list (coins w))
  + length (playerCoins w).

(** A list without the first occurrence of [t]: what [removeCoin] leaves. *)
Definition without (t : nat) (l : list nat) : list nat :=
  match Ledger.indexOf t l with
  | Some k => Ledger.splice1 k l
  | None => l
  end.

(** Every array that [coins] names is in the store. *)
Definition arraysAllocated (w : World) : Prop :=
  ∀ key a, coins w !! key = Some a → a < length (arrays w).

(** A generator for the examples: the cell (0,0) is lucky and draws 0.37
    for its coin count, the cell (8,0) is lucky too, all other draws are
    one half. *)
Definition scenarioLuck (seed : string) : Q :=
  if decide (seed = "0,0") then 0.05%Q
  else if decide (seed = "0,0,coinCount") then 0.37%Q
  else if decide (seed = "8,0") then 0.05%Q
  else 0.5%Q.

Definition originCell : Cell := createCell 0 0.

(** The state invariant of the ledger: references are allocated, the
    inventory holds created tokens without repetition, a token is in the
    inventory exactly when its flag is set, every created token is in some
    cache list, and the score is the size of the inventory. *)
Record Sound (w : World) : Prop := mkSound {
  sound_arrays : arraysAllocated w;
  sound_inventory_created : ∀ t, t ∈ playerCoins w → t < length (tokens w);
  sound_inventory_nodup : NoDup (playerCoins w);
  sound_collected :
    ∀ t g, tokens w !! t = Some g → (collected g = true ↔ t ∈ playerCoins w);
  sound_cached : ∀ t, t < length (tokens w) → inSomeCache t w;
  sound_caches_created :
    ∀ a l t, arrays w !! a = Some l → t ∈ l → t < length (tokens w);
  sound_score : playerPoints w = Z.of_nat (length (playerCoins w))
}.

(** A cell has an array only once its popup content was generated. *)
Definition arraysOnlyWhereSpawned (w : World) : Prop :=
  ∀ key, is_Some (coins w !! key) → key ∈ spawnedCaches w.

(** Every cell whose popup content was generated has an array. *)
Definition spawnedHaveArrays (w : World) : Prop :=
  ∀ key, key ∈ spawnedCaches w → is_Some (coins w !! key).

(** The cell (i, j) draws less than the spawn probability. *)
Definition lucky (luck : string → Q) (i j : Z) : Prop :=
  (luck (spawnSeed (inject_Z i) (inject_Z j)) < CACHE_SPAWN_PROBABILITY)%Q.

(** ** Example runs *)

(** [src/main.ts]: the popup of the cell (0,0) is opened, then its first
    coin is collected. *)
Definition afterPopup : World :=
  Main.run scenarioLuck [Main.PopupOpen originCell] (Main.startup scenarioLuck).
Definition afterFirstCollect : World :=
  Main.run scenarioLuck [Main.CollectClick 0] afterPopup.

(** The factory alone: two coins are created for a cell, the first is
    removed, a third is created. *)
Definition afterRemovalAndCreate : World :=
  let w := Ledger.createMany 2 originCell initialWorld in
  let w := worldOf (Ledger.removeCoin originCell 0 w) in
  (Ledger.create originCell w).2.

(** The version with mementos: the script has run and the popup of the
    cell (0,0) is opened. *)
Definition persistAfterPopup : World :=
  Ledger.generatePopupContent scenarioLuck originCell (Persist.startup scenarioLuck).

(** The last version: the script has run, the popup of the cell (0,0) is
    opened, its first coin is collected, the player moves north; then the
    game is reset and the prompt is answered with Yes. *)
Definition managerBeforeReset : World :=
  worldOf (Manager.movePlayer scenarioLuck "north"
    (Manager.collect 0
       (Ledger.generatePopupContent scenarioLuck originCell
          (Manager.startup scenarioLuck)))).

Definition managerAfterReset : World :=
  Manager.resetGameState (Some "Yes") managerBeforeReset.

(** ** The pages as their users drive them *)

(** The buttons with a click listener for [movePlayer]. *)
Definition directions : list string := ["north"; "south"; "east"; "west"].

(** The version with cache mementos, with its controls and the
    geolocation callback. *)
Module PersistPage.
Import Ledger.

Section WithLuck.
Variable luck : string → Q.

(** [updatePlayerPositionFromGeolocation(position)] for a fix with the
    coordinates [latitude] and [longitude]. *)
Definition updatePlayerPositionFromGeolocation (latitude longitude : Q) (w : World) : World :=
  let p := LatLng latitude longitude in
  let w := setPlayerPosition p w in
  let w := emit (MapPanTo p) (emit (MarkerSetLatLng p) w) in
  Persist.spawnRelativeCache luck w.

(** What the user and the sensor can do.  A direction button exists for
    each of [directions] and for nothing else. *)
Inductive Action :=
  | PopupOpen (c : Cell)
  | CollectClick (coin : nat)
  | DepositClick (c : Cell)
  | DirectionClick (direction : string)
  | GeolocationFix (latitude longitude : Q).

Definition step (a : Action) (w : World) : World :=
  match a with
  | PopupOpen c => generatePopupContent luck c w
  | CollectClick coin => collect coin w
  | DepositClick c => worldOf (handleCoinDeposit c w)
  | DirectionClick direction =>
      if decide (direction ∈ directions)
      then worldOf (Persist.movePlayer luck direction w)
      else w
  | GeolocationFix latitude longitude =>
      updatePlayerPositionFromGeolocation latitude longitude w
  end.

Definition run (acts : list Action) (w : World) : World :=
  foldl (λ w a, step a w) w acts.
End WithLuck.

End PersistPage.

(** The last version, with its controls, the geolocation callback and the
    reset button. *)
Module ManagerPage.
Import Ledger.

Section WithLuck.
Variable luck : string → Q.

(** [updatePlayerPositionFromGeolocation(position)] *)
Definition updatePlayerPositionFromGeolocation (latitude longitude : Q) (w : World) : World :=
  let p := LatLng latitude longitude in
  let w := Manager.updatePlayerPosition p w in
  let w := emit (MapPanTo p) (emit (MarkerSetLatLng p) w) in
  Persist.spawnRelativeCache luck w.

Inductive Action :=
  | PopupOpen (c : Cell)
  | CollectClick (coin : nat)
  | DepositClick (c : Cell)
  | DirectionClick (direction : string)
  | GeolocationFix (latitude longitude : Q)
  | ResetClick (userConfirmation : option string).

Definition step (a : Action) (w : World) : World :=
  match a with
  | PopupOpen c => generatePopupContent luck c w
  | CollectClick coin => Manager.collect coin w
  | DepositClick c => worldOf (Manager.handleCoinDeposit c w)
  | DirectionClick direction =>
      if decide (direction ∈ directions)
      then worldOf (Manager.movePlayer luck direction w)
      else w
  | GeolocationFix latitude longitude =>
      updatePlayerPositionFromGeolocation latitude longitude w
  | ResetClick userConfirmation => Manager.resetGameState userConfirmation w
  end.

Definition run (acts : list Action) (w : World) : World :=
  foldl (λ w a, step a w) w acts.
End WithLuck.

End ManagerPage.

(** ** Geolocation tracking *)

Module Geolocation.

(** [isGeolocationActive], [watchId] ([None] for [null]), the colour of
    the sensor button, and on the browser's side the watches that are
    running, the next watch id and the alerts shown. *)
Record Tracking := mkTracking {
  isGeolocationActive : bool;
  watchId : option nat;
  sensorColor : string;
  running : gset nat;
  nextWatch : nat;
  alerts : list string
}.

Definition initialTracking : Tracking := mkTracking false None "" ∅ 1 [].

Section WithBrowser.
(** Whether [navigator.geolocation] exists. *)
Variable supported : bool.

(** [startGeolocationTracking()]: [watchPosition] starts a watch and
    returns its id. *)
Definition startGeolocationTracking (t : Tracking) : Tracking :=
  if supported then
    mkTracking (isGeolocationActive t) (Some (nextWatch t)) (sensorColor t)
      ({[nextWatch t]} ∪ running t) (S (nextWatch t)) (alerts t)
  else
    mkTracking (isGeolocationActive t) (watchId t) (sensorColor t)
      (running t) (nextWatch t)
      (alerts t ++ ["Geolocation is not supported by this browser."]).

(** [stopGeolocationTracking()] *)
Definition stopGeolocationTracking (t : Tracking) : Tracking :=
  match watchId t with
  | Some id =>
      mkTracking (isGeolocationActive t) None (sensorColor t)
        (running t ∖ {[id]}) (nextWatch t) (alerts t)
  | None => t
  end.

(** [toggleGeolocationTracking()] *)
Definition toggleGeolocationTracking (t : Tracking) : Tracking :=
  if isGeolocationActive t then
    let t := stopGeolocationTracking t in
    mkTracking false (watchId t) "" (running t) (nextWatch t) (alerts t)
  else
    let t := startGeolocationTracking t in
    mkTracking true (watchId t) "lightgreen" (running t) (nextWatch t) (alerts t).

(** Clicks on the sensor button. *)
Definition clicks (n : nat) (t : Tracking) : Tracking :=
  Nat.iter n toggleGeolocationTracking t.
End WithBrowser.

End Geolocation.

(** ** The player state in [localStorage] *)

Module Storage.
Import Ledger.

(** A [{lat, lng}] object of the stored record; [JSON.stringify] leaves a
    field out when its value is [undefined]. *)
Record StoredPosition := mkStoredPosition {
  storedLat : option Q;
  storedLng : option Q
}.

(** The record under the key [playerState]: [position], [coins] and
    [movementHistory]. *)
Record PlayerState := mkPlayerState {
  savedPosition : StoredPosition;
  savedCoins : list Geocoin;
  savedMovementHistory : list StoredPosition
}.

(** One entry of the array under the key [cacheState]. *)
Record CacheState := mkCacheState {
  savedCellKey : string;
  savedCacheCoins : list Geocoin
}.

(** [{ lat: p.lat, lng: p.lng }] *)
Definition storePosition (p : JsPosition) : StoredPosition :=
  match p with
  | LatLng lat lng => mkStoredPosition (Some lat) (Some lng)
  | Inherited _ => mkStoredPosition None None
  end.

(** The record that [savePlayerState()] writes. *)
Definition savePlayerState (w : World) : PlayerState :=
  mkPlayerState (storePosition (playerPosition w))
    (omap (λ coin, tokens w !! coin) (playerCoins w))
    (storePosition <$> playerMovementHistory w).

(** New objects for parsed coins: their references. *)
Definition allocateCoins (coins : list Geocoin) (w : World) : list nat * World :=
  (seq (length (tokens w)) (length coins), setTokens (tokens w ++ coins) w).

(** The second half of [loadPlayerState()]: the parsed arrays become the
    cells' arrays.  The parsed coins are plain records without a [collect]
    method; nothing below collects one. *)
Definition loadCacheState (savedCacheState : option (list CacheState)) (w : World) : World :=
  match savedCacheState with
  | Some cacheState =>
      foldl (λ w cache,
               let '(refs, w) := allocateCoins (savedCacheCoins cache) w in
               let a := length (arrays w) in
               let w := setArrays (arrays w ++ [refs]) w in
               let w := setCoins (<[savedCellKey cache := a]> (coins w)) w in
               setSpawnedCaches ({[savedCellKey cache]} ∪ spawnedCaches w) w)
        w cacheState
  | None => w
  end.

(** [loadPlayerState()] of the version with mementos.  A stored position
    without coordinates is written when the position was no [LatLng]; the
    marker then throws and the script stops: that start-up is not modelled
    ([None]). *)
Definition loadPlayerState (savedPlayerState : option PlayerState)
    (savedCacheState : option (list CacheState)) (w : World) : option World :=
  match savedPlayerState with
  | Some playerState =>
      match storedLat (savedPosition playerState), storedLng (savedPosition playerState) with
      | Some lat, Some lng =>
          let p := LatLng lat lng in
          let w := setPlayerPosition p w in
          let '(refs, w) := allocateCoins (savedCoins playerState) w in
          let w := setPlayerCoins refs w in
          let w := emit (MapPanTo p) (emit (MarkerSetLatLng p) w) in
          Some (loadCacheState savedCacheState w)
      | _, _ => None
      end
  | None => Some (loadCacheState savedCacheState w)
  end.

(** [loadPlayerState()] of the last version: the position goes through
    [updatePlayerPosition], every stored coin becomes a new object, and
    those with the flag set go through [onCoinCollected]. *)
Definition loadPlayerStateManager (savedPlayerState : option PlayerState)
    (savedCacheState : option (list CacheState)) (w : World) : option World :=
  match savedPlayerState with
  | Some playerState =>
      match storedLat (savedPosition playerState), storedLng (savedPosition playerState) with
      | Some lat, Some lng =>
          let p := LatLng lat lng in
          let w := Manager.updatePlayerPosition p w in
          let w :=
            foldl (λ w coin,
                     let geocoin := length (tokens w) in
                     let w := setTokens (tokens w ++ [coin]) w in
                     if collected coin then Manager.onCoinCollected geocoin w else w)
              w (savedCoins playerState) in
          let w := emit (MapPanTo p) (emit (MarkerSetLatLng p) w) in
          Some (loadCacheState savedCacheState w)
      | _, _ => None
      end
  | None => Some (loadCacheState savedCacheState w)
  end.

End Storage.

(** ** More notions used in the statements *)

(** A string without the character [a]. *)
Fixpoint lacks (a : ascii) (s : string) : Prop :=
  match s with
  | EmptyString => True
  | String b s' => b ≠ a ∧ lacks a s'
  end.

(** The pairs of a nested loop, in the order of the loops. *)
Definition grid (xs js : list Z) : list (Z * Z) := x ← xs; (λ d, (x, d)) <$> js.

(** The cells that [spawnRelativeCache] visits around the cell (playerI,
    playerJ), in the order of the loops. *)
Definition neighborhood (playerI playerJ : Z) : list (Z * Z) :=
  grid (seqZ (playerI - NEIGHBORHOOD_SIZE) (2 * NEIGHBORHOOD_SIZE + 1))
       (seqZ (playerJ - NEIGHBORHOOD_SIZE) (2 * NEIGHBORHOOD_SIZE + 1)).

(** The cell that [spawnRelativeCache] takes as the player's. *)
Definition playerCell (lat lng : Q) : Z * Z :=
  (mathRound ((lat - OAKES_CLASSROOM_lat) / TILE_DEGREES)%Q,
   mathRound ((lng - OAKES_CLASSROOM_lng) / TILE_DEGREES)%Q).

(** The cell with the integer coordinates [p]. *)
Definition integerCell (p : Z * Z) : Cell := createCell (inject_Z p.1) (inject_Z p.2).

(** What holds of the inventory in every version: it holds created tokens,
    each once, exactly those whose flag is set, and the score counts
    them. *)
Record HeldRight (w : World) : Prop := mkHeldRight {
  held_created : ∀ t, t ∈ playerCoins w → t < length (tokens w);
  held_nodup : NoDup (playerCoins w);
  held_flag :
    ∀ t g, tokens w !! t = Some g → (collected g = true ↔ t ∈ playerCoins w);
  held_score : playerPoints w = Z.of_nat (length (playerCoins w))
}.

(** The player's position is a [LatLng]. *)
Definition positioned (w : World) : Prop :=
  ∃ lat lng, playerPosition w = LatLng lat lng.

(** Every rectangle on the map belongs to an integer cell with a memento,
    and no cell has two. *)
Definition rectsRecorded (w : World) : Prop :=
  NoDup (rects w)
  ∧ ∀ c, c ∈ rects w →
      ∃ p, c = integerCell p ∧ is_Some (cacheStateMemento w !! cellKey c).

(** No array of the store lists a token twice. *)
Definition listsDistinct (w : World) : Prop :=
  ∀ a l, arrays w !! a = Some l → NoDup l.

(** A second sample of [luck]: the cells (0,0) and (1,0) get a cache,
    every other draw is 0.5, so that each cache starts with six coins. *)
Definition neighbourLuck (seed : string) : Q :=
  if decide (seed = "0,0") then 0.05%Q
  else if decide (seed = "1,0") then 0.05%Q
  else 0.5%Q.

(** [src/main.ts] with two caches: both popups are opened and the first
    coin of the cell (0,0) is collected. *)
Definition afterSecondPopup : World :=
  Main.run neighbourLuck
    [Main.PopupOpen originCell; Main.PopupOpen (createCell 1 0); Main.CollectClick 0]
    (Main.startup neighbourLuck).


(** * Properties *)

Import Ledger.

(** Closed facts about the example runs are settled by evaluation. *)
Ltac by_evaluation := apply (bool_decide_unpack _); vm_compute; exact I.

(** ** Field by field: what each operation of the ledger touches *)

Section LedgerFacts.

Lemma ensureArray_fields key w :
  let w' := (ensureArray key w).2 in
  tokens w' = tokens w ∧ playerCoins w' = playerCoins w
  ∧ playerPoints w' = playerPoints w ∧ playerPosition w' = playerPosition w
  ∧ playerMovementHistory w' = playerMovementHistory w
  ∧ spawnedCaches w' = spawnedCaches w
  ∧ cacheStateMemento w' = cacheStateMemento w
  ∧ rects w' = rects w ∧ log w' = log w.
Proof. unfold ensureArray. destruct (coins w !! key); simpl; tauto. Qed.

Lemma create_fields c w :
  let w' := (create c w).2 in
  playerCoins w' = playerCoins w
  ∧ playerPoints w' = playerPoints w ∧ playerPosition w' = playerPosition w
  ∧ playerMovementHistory w' = playerMovementHistory w
  ∧ spawnedCaches w' = spawnedCaches w
  ∧ cacheStateMemento w' = cacheStateMemento w
  ∧ rects w' = rects w ∧ log w' = log w.
Proof.
  unfold create. destruct (toLatLng c) as [la lo].
  match goal with |- context [ensureArray ?k ?v] =>
    pose proof (ensureArray_fields k v) as H; destruct (ensureArray k v) as [a w1]
  end.
  simpl in *. tauto.
Qed.

Lemma createMany_fields n c w :
  let w' := createMany n c w in
  playerCoins w' = playerCoins w
  ∧ playerPoints w' = playerPoints w ∧ playerPosition w' = playerPosition w
  ∧ playerMovementHistory w' = playerMovementHistory w
  ∧ spawnedCaches w' = spawnedCaches w
  ∧ cacheStateMemento w' = cacheStateMemento w
  ∧ rects w' = rects w ∧ log w' = log w.
Proof.
  revert w. induction n as [|n IH]; intros w; simpl; [tauto|].
  pose proof (create_fields c w) as H. pose proof (IH (create c w).2) as H'.
  simpl in *. intuition congruence.
Qed.

Lemma removeCoin_fields c t w :
  let w' := worldOf (removeCoin c t w) in
  tokens w' = tokens w ∧ coins w' = coins w ∧ playerCoins w' = playerCoins w
  ∧ playerPoints w' = playerPoints w ∧ playerPosition w' = playerPosition w
  ∧ playerMovementHistory w' = playerMovementHistory w
  ∧ spawnedCaches w' = spawnedCaches w
  ∧ cacheStateMemento w' = cacheStateMemento w
  ∧ rects w' = rects w ∧ log w' = log w.
Proof.
  unfold removeCoin. destruct (coins w !! cellKey c); simpl; [|tauto].
  destruct (indexOf t _); simpl; tauto.
Qed.

Lemma addCoinToCache_fields c t w :
  let w' := addCoinToCache c t w in
  tokens w' = tokens w ∧ playerCoins w' = playerCoins w
  ∧ playerPoints w' = playerPoints w ∧ playerPosition w' = playerPosition w
  ∧ playerMovementHistory w' = playerMovementHistory w
  ∧ spawnedCaches w' = spawnedCaches w
  ∧ cacheStateMemento w' = cacheStateMemento w
  ∧ rects w' = rects w ∧ log w' = log w.
Proof.
  unfold addCoinToCache.
  pose proof (ensureArray_fields (cellKey c) w) as H.
  destruct (ensureArray (cellKey c) w) as [a w1]. simpl in *. tauto.
Qed.

End LedgerFacts.

(** ** Arrays *)

Section ArrayFacts.

Lemma indexOf_Some t l k :
  indexOf t l = Some k → l !! k = Some t.
Proof.
  revert k. induction l as [|x l IH]; intros k; simpl; [done|].
  destruct (decide (x = t)) as [->|Hne].
  - intros [= <-]. done.
  - destruct (indexOf t l) as [k'|] eqn:E; simpl; [|done].
    intros [= <-]. simpl. by apply IH.
Qed.

Lemma indexOf_None t l : indexOf t l = None → t ∉ l.
Proof.
  induction l as [|x l IH]; simpl; [intros _; apply not_elem_of_nil|].
  destruct (decide (x = t)) as [->|Hne]; [done|].
  destruct (indexOf t l); simpl; [done|].
  intros _. rewrite not_elem_of_cons. split; [congruence|by apply IH].
Qed.

Lemma elem_of_without t l x : x ∈ without t l → x ∈ l.
Proof.
  unfold without, splice1. destruct (indexOf t l) as [k|]; [|done].
  intros H. eapply elem_of_sublist; [exact H|]. apply sublist_delete.
Qed.

Lemma elem_of_without_or t l x : x ∈ l → x ∈ without t l ∨ x = t.
Proof.
  unfold without, splice1. destruct (indexOf t l) as [k|] eqn:E; [|by left].
  apply indexOf_Some in E. intros Hx.
  destruct (decide (x = t)) as [->|Hne]; [by right|left].
  apply list_elem_of_lookup in Hx as [n Hn].
  destruct (decide (n < k)) as [Hlt|Hge].
  - apply list_elem_of_lookup. exists n. by rewrite list_lookup_delete_lt.
  - assert (n ≠ k) by (intros ->; congruence).
    apply list_elem_of_lookup. exists (pred n).
    rewrite list_lookup_delete_ge by lia.
    replace (S (pred n)) with n by lia. done.
Qed.

Lemma arrayOf_lookup a w l : arrays w !! a = Some l → arrayOf a w = l.
Proof. unfold arrayOf. by intros ->. Qed.

(** What [create] does to the stores. *)
Lemma create_spec c w :
  arraysAllocated w →
  ∃ a arrays0,
    let t := length (tokens w) in
    let w' := (create c w).2 in
    (create c w).1 = t
    ∧ tokens w' = tokens w ++
        [mkGeocoin (toLatLng c).1 (toLatLng c).2 (length (getCoins c w)) false]
    ∧ coins w' = <[cellKey c := a]> (coins w)
    ∧ arrays w' = alter (λ l, l ++ [t]) a arrays0
    ∧ a < length arrays0
    ∧ arrayOf a (setArrays arrays0 w) = getCoins c w
    ∧ ((coins w !! cellKey c = Some a ∧ arrays0 = arrays w)
       ∨ (coins w !! cellKey c = None ∧ a = length (arrays w)
          ∧ arrays0 = arrays w ++ [[]])).
Proof.
  intros Hal. unfold create, getCoins, ensureArray.
  destruct (toLatLng c) as [la lo]. simpl.
  destruct (coins w !! cellKey c) as [a|] eqn:E; simpl.
  - exists a, (arrays w). simpl. rewrite insert_id by done.
    repeat split; try done; [by eapply Hal|]. by left.
  - exists (length (arrays w)), (arrays w ++ [[]]). simpl.
    repeat split; try done.
    + rewrite length_app. simpl. lia.
    + unfold arrayOf. simpl. by rewrite lookup_app_r, Nat.sub_diag.
    + by right.
Qed.

End ArrayFacts.

(** ** The invariant is kept by every operation *)

Section SoundFacts.

Lemma create_sound c w : Sound w → Sound (create c w).2.
Proof.
  intros [Hal Hinv Hnd Hcol Hcached Hcc Hsc].
  destruct (create_spec c w Hal) as (a & arrays0 & _ & Htok & Hcoins & Harr & Hlt & Hget & Hcase).
  pose proof (create_fields c w) as (Hpc & Hpp & _).
  simpl in *.
  assert (Hext : ∀ x l, arrays w !! x = Some l → arrays0 !! x = Some l).
  { intros x l Hx. destruct Hcase as [[_ ->]|(_ & _ & ->)]; [done|].
    by apply lookup_app_l_Some. }
  assert (Hback : ∀ x l, arrays0 !! x = Some l → arrays w !! x = Some l ∨ l = []).
  { intros x l Hx. destruct Hcase as [[_ ->]|(_ & _ & ->)]; [by left|].
    apply lookup_app_Some in Hx as [Hx|[_ Hx]]; [by left|right].
    destruct (x - length (arrays w)) as [|n]; simpl in Hx; [congruence|].
    by destruct n. }
  assert (Hlen : length (arrays w) ≤ length arrays0).
  { destruct Hcase as [[_ ->]|(_ & _ & ->)]; [done|]. rewrite length_app. lia. }
  split.
  - intros key a'. rewrite Hcoins, Harr, length_alter.
    destruct (decide (key = cellKey c)) as [->|Hne].
    + rewrite lookup_insert_eq. by intros [= <-].
    + rewrite lookup_insert_ne by done. intros H. apply Hal in H. lia.
  - intros t. rewrite Hpc, Htok, length_app. intros H%Hinv. lia.
  - by rewrite Hpc.
  - intros t g. rewrite Hpc, Htok. intros Hl.
    apply lookup_app_Some in Hl as [Hl|[Hge Hl]]; [by apply Hcol|].
    destruct (t - length (tokens w)) as [|n] eqn:E; simpl in Hl; [|by destruct n].
    injection Hl as <-. simpl. split; [done|].
    intros H%Hinv. lia.
  - intros t. rewrite Htok, length_app. simpl. intros Ht.
    destruct (decide (t < length (tokens w))) as [Hold|Hnew].
    + destruct (Hcached t Hold) as (key & a' & Hk & Hin).
      exists key, a'. split.
      * rewrite Hcoins. destruct (decide (key = cellKey c)) as [->|Hne].
        -- rewrite lookup_insert_eq.
           destruct Hcase as [[Hc _]|[Hc _]]; congruence.
        -- by rewrite lookup_insert_ne.
      * unfold arrayOf in *. rewrite Harr.
        destruct (arrays w !! a') as [l|] eqn:El; simpl in Hin;
          [|by apply elem_of_nil in Hin].
        apply Hext in El.
        destruct (decide (a = a')) as [<-|Hne].
        -- rewrite list_lookup_alter_eq, El. simpl. apply elem_of_app. by left.
        -- by rewrite list_lookup_alter_ne, El.
    + assert (t = length (tokens w)) as -> by lia.
      exists (cellKey c), a. split.
      * by rewrite Hcoins, lookup_insert_eq.
      * unfold arrayOf. rewrite Harr, list_lookup_alter_eq.
        destruct (lookup_lt_is_Some_2 arrays0 a Hlt) as [l El].
        rewrite El. simpl. apply elem_of_app. right. by apply list_elem_of_singleton.
  - intros a' l t. rewrite Harr, Htok, length_app. simpl.
    destruct (decide (a = a')) as [<-|Hne].
    + rewrite list_lookup_alter_eq.
      destruct (arrays0 !! a) as [l0|] eqn:El; simpl; [|done].
      intros [= <-]. intros [Hin|Hin%list_elem_of_singleton]%elem_of_app; [|lia].
      destruct (Hback _ _ El) as [Hb| ->]; [|by apply elem_of_nil in Hin].
      specialize (Hcc _ _ _ Hb Hin). lia.
    + rewrite list_lookup_alter_ne by done. intros El Hin.
      destruct (Hback _ _ El) as [Hb| ->]; [|by apply elem_of_nil in Hin].
      specialize (Hcc _ _ _ Hb Hin). lia.
  - by rewrite Hpp, Hpc.
Qed.

Lemma inSomeCache_same w w' t :
  coins w' = coins w → arrays w' = arrays w → inSomeCache t w → inSomeCache t w'.
Proof.
  intros Hc Ha (key & a & Hk & Hin). exists key, a.
  unfold arrayOf in *. by rewrite Hc, Ha.
Qed.

Lemma collect_sound t w : Sound w → Sound (collect t w).
Proof.
  intros Hs. unfold collect.
  destruct (tokens w !! t) as [g|] eqn:Et; [|done].
  destruct (collected g) eqn:Eg; [done|].
  destruct Hs as [Hal Hinv Hnd Hcol Hcached Hcc Hsc].
  assert (Hnotin : t ∉ playerCoins w).
  { intros Hin. apply (Hcol _ _ Et) in Hin. congruence. }
  split; simpl.
  - exact Hal.
  - intros x. rewrite length_insert.
    intros [Hx| ->%list_elem_of_singleton]%elem_of_app; [by apply Hinv|].
    by eapply lookup_lt_Some.
  - apply NoDup_app. repeat split; [done| |apply NoDup_singleton].
    intros x Hx ->%list_elem_of_singleton. done.
  - intros x g'. destruct (decide (x = t)) as [->|Hne].
    + rewrite list_lookup_insert_eq by (by eapply lookup_lt_Some).
      intros [= <-]. simpl. split; [|done].
      intros _. apply elem_of_app. right. by apply list_elem_of_singleton.
    + rewrite list_lookup_insert_ne by done. intros Hx.
      rewrite (Hcol _ _ Hx), elem_of_app, list_elem_of_singleton.
      split; [by left|by intros [?|?]].
  - intros x. rewrite length_insert. intros Hx.
    eapply inSomeCache_same; [| |by apply Hcached]; done.
  - intros a l x. rewrite length_insert. apply Hcc.
  - rewrite length_app. simpl. lia.
Qed.

Lemma snoc_cases (l : list nat) : l = [] ∨ ∃ inv t, l = inv ++ [t].
Proof.
  induction l as [|x l _] using rev_ind; [by left|right]. by exists l, x.
Qed.

(** The three ways [handleCoinDeposit] can go. *)
Lemma deposit_empty c w :
  playerCoins w = [] →
  handleCoinDeposit c w = Normal (emit (Alert "No coins to deposit!") w).
Proof. intros H. unfold handleCoinDeposit. by rewrite H. Qed.

Lemma deposit_thrown c w inv t :
  playerCoins w = inv ++ [t] → coins w !! cellKey c = None →
  handleCoinDeposit c w =
    Thrown (setPlayerPoints (playerPoints w - 1)
              (setTokens (alter (setCollected false) t (tokens w))
                 (setPlayerCoins inv w))).
Proof.
  intros Hpc Hk. unfold handleCoinDeposit, removeCoin.
  rewrite Hpc, last_snoc, removelast_last. simpl. by rewrite Hk.
Qed.

Lemma deposit_normal c w inv t a l :
  playerCoins w = inv ++ [t] → coins w !! cellKey c = Some a →
  arrays w !! a = Some l →
  handleCoinDeposit c w =
    Normal (emit (OpenPopup c) (emit (DispatchEvent "game-state-changed")
      (setArrays (<[a := without t l ++ [t]]> (arrays w))
         (setPlayerPoints (playerPoints w - 1)
            (setTokens (alter (setCollected false) t (tokens w))
               (setPlayerCoins inv w)))))).
Proof.
  intros Hpc Hk Ha. unfold handleCoinDeposit, removeCoin, addCoinToCache, ensureArray.
  rewrite Hpc, last_snoc, removelast_last. simpl. rewrite Hk.
  unfold arrayOf, without. simpl. rewrite Ha. simpl.
  assert (Hlt : a < length (arrays w)) by (by eapply lookup_lt_Some).
  destruct (indexOf t l) as [k|] eqn:Ek; simpl; rewrite Hk; unfold push; simpl.
  - do 3 f_equal. unfold setArrays. simpl. f_equal.
    apply list_eq. intros n. destruct (decide (n = a)) as [->|Hne].
    + rewrite !list_lookup_alter_eq, Ha. simpl.
      by rewrite list_lookup_insert_eq.
    + by rewrite !list_lookup_alter_ne, list_lookup_insert_ne.
  - do 3 f_equal. unfold setArrays. simpl. f_equal.
    apply list_eq. intros n. destruct (decide (n = a)) as [->|Hne].
    + rewrite !list_lookup_alter_eq, Ha. simpl.
      by rewrite list_lookup_insert_eq.
    + by rewrite !list_lookup_alter_ne, list_lookup_insert_ne.
Qed.

Lemma Sound_ext w w' :
  tokens w' = tokens w → arrays w' = arrays w → coins w' = coins w →
  playerCoins w' = playerCoins w → playerPoints w' = playerPoints w →
  Sound w → Sound w'.
Proof.
  intros Ht Ha Hc Hp Hs [Hal Hinv Hnd Hcol Hcached Hcc Hsc].
  split; unfold arraysAllocated, inSomeCache, arrayOf in *;
    rewrite ?Ht, ?Ha, ?Hc, ?Hp, ?Hs; done.
Qed.

Lemma pop_sound w inv t :
  Sound w → playerCoins w = inv ++ [t] →
  Sound (setPlayerPoints (playerPoints w - 1)
           (setTokens (alter (setCollected false) t (tokens w))
              (setPlayerCoins inv w))).
Proof.
  intros [Hal Hinv Hnd Hcol Hcached Hcc Hsc] Hpc.
  rewrite Hpc in *. apply NoDup_app in Hnd as (Hnd & Hnotin & _).
  split; simpl.
  - exact Hal.
  - intros x Hx. rewrite length_alter. apply Hinv, elem_of_app. by left.
  - exact Hnd.
  - intros x g'. destruct (decide (x = t)) as [->|Hne].
    + rewrite list_lookup_alter_eq.
      destruct (tokens w !! t) as [g|]; simpl; [|done].
      intros [= <-]. simpl. split; [done|].
      intros Hin. exfalso. eapply Hnotin; [exact Hin|]. by apply list_elem_of_singleton.
    + rewrite list_lookup_alter_ne by done. intros Hx.
      rewrite (Hcol _ _ Hx), elem_of_app, list_elem_of_singleton.
      split; [by intros [?|?]|by left].
  - intros x. rewrite length_alter. intros Hx.
    eapply inSomeCache_same; [| |by apply Hcached]; done.
  - intros a l x. rewrite length_alter. apply Hcc.
  - rewrite length_app in Hsc. simpl in Hsc. lia.
Qed.

Lemma replace_array_sound w a l l' :
  Sound w → arrays w !! a = Some l →
  (∀ x, x ∈ l → x ∈ l') → (∀ x, x ∈ l' → x < length (tokens w)) →
  Sound (setArrays (<[a := l']> (arrays w)) w).
Proof.
  intros [Hal Hinv Hnd Hcol Hcached Hcc Hsc] Ha Hsub Hnew.
  assert (Hlt : a < length (arrays w)) by (by eapply lookup_lt_Some).
  split; simpl; try done.
  - intros key a'. simpl. rewrite length_insert. apply Hal.
  - intros x Hx. destruct (Hcached x Hx) as (key & a' & Hk & Hin).
    exists key, a'. split; [done|]. unfold arrayOf in *. simpl.
    destruct (decide (a' = a)) as [->|Hne].
    + rewrite list_lookup_insert_eq by done. simpl.
      rewrite Ha in Hin. by apply Hsub.
    + by rewrite list_lookup_insert_ne.
  - intros a' l0 x. destruct (decide (a' = a)) as [->|Hne].
    + rewrite list_lookup_insert_eq by done. intros [= <-]. apply Hnew.
    + rewrite list_lookup_insert_ne by done. apply Hcc.
Qed.

Lemma deposit_sound c w : Sound w → Sound (worldOf (handleCoinDeposit c w)).
Proof.
  intros Hs. destruct (snoc_cases (playerCoins w)) as [Hpc|(inv & t & Hinv)].
  - rewrite deposit_empty by done. simpl. by eapply Sound_ext; [..|exact Hs].
  -       pose proof (pop_sound w inv t Hs Hinv) as Hs1.
    destruct (coins w !! cellKey c) as [a|] eqn:Hk.
    + destruct (lookup_lt_is_Some_2 (arrays w) a) as [l Hl].
      { by eapply (sound_arrays _ Hs). }
      rewrite (deposit_normal c w inv t a l) by done. simpl.
      eapply Sound_ext;
        [..|eapply (replace_array_sound _ a l (without t l ++ [t]) Hs1)]; try done.
      * intros y Hy. apply elem_of_app.
        destruct (elem_of_without_or t l y Hy) as [?| ->]; [by left|right].
        by apply list_elem_of_singleton.
      * simpl. rewrite length_alter.
        intros y [Hy%elem_of_without| ->%list_elem_of_singleton]%elem_of_app.
        -- by eapply (sound_caches_created _ Hs).
        -- apply (sound_inventory_created _ Hs). rewrite Hinv.
           apply elem_of_app. right. by apply list_elem_of_singleton.
    + by rewrite (deposit_thrown c w inv t).
Qed.

Lemma createMany_sound n c w : Sound w → Sound (createMany n c w).
Proof.
  revert w. induction n as [|n IH]; intros w Hs; simpl; [done|].
  by apply IH, create_sound.
Qed.

Lemma generatePopupContent_sound luck c w :
  Sound w → Sound (generatePopupContent luck c w).
Proof.
  intros Hs. unfold generatePopupContent.
  destruct (decide (cellKey c ∈ spawnedCaches w)); [done|].
  eapply Sound_ext; [..|by apply (createMany_sound (Z.to_nat (coinCount luck c)) c)];
    done.
Qed.

Lemma create_coins_dom c w key :
  is_Some (coins (create c w).2 !! key) →
  is_Some (coins w !! key) ∨ key = cellKey c.
Proof.
  unfold create, ensureArray. destruct (toLatLng c) as [la lo]. simpl.
  destruct (coins w !! cellKey c) as [a|] eqn:E; simpl; [by left|].
  destruct (decide (key = cellKey c)) as [->|Hne]; [by right|].
  rewrite lookup_insert_ne by done. by left.
Qed.

Lemma createMany_coins_dom n c w key :
  is_Some (coins (createMany n c w) !! key) →
  is_Some (coins w !! key) ∨ key = cellKey c.
Proof.
  revert w. induction n as [|n IH]; intros w; simpl; [by left|].
  intros [H|H]%IH; [|by right]. by apply create_coins_dom.
Qed.
End SoundFacts.

(** ** The start-up loop and the runs of [src/main.ts] *)

Lemma setRects_idem w : setRects (rects w) w = w.
Proof. by destruct w. Qed.

Lemma initial_sound : Sound initialWorld.
Proof.
  split; simpl; try done.
  - intros t H. by apply elem_of_nil in H.
  - apply NoDup_nil_2.
  - intros t. lia.
Qed.

Lemma movePlayer_fields direction w :
  let w' := worldOf (Main.movePlayer direction w) in
  tokens w' = tokens w ∧ arrays w' = arrays w ∧ coins w' = coins w
  ∧ playerCoins w' = playerCoins w ∧ playerPoints w' = playerPoints w
  ∧ spawnedCaches w' = spawnedCaches w.
Proof.
  unfold Main.movePlayer.
  destruct (movementLookup _ _) as [[]|]; simpl; tauto.
Qed.

Lemma onKeyDown_fields key w :
  let w' := worldOf (Main.onKeyDown key w) in
  tokens w' = tokens w ∧ arrays w' = arrays w ∧ coins w' = coins w
  ∧ playerCoins w' = playerCoins w ∧ playerPoints w' = playerPoints w
  ∧ spawnedCaches w' = spawnedCaches w.
Proof.
  unfold Main.onKeyDown.
  repeat (destruct (decide _); [apply movePlayer_fields|]). simpl. tauto.
Qed.

Section MainFacts.
Variable luck : string → Q.


Lemma visit_setRects i j w : ∃ rs, Main.visit luck i j w = setRects rs w.
Proof.
  unfold Main.visit, spawnCache. destruct (Qlt_le_dec _ _); eauto.
  exists (rects w). by rewrite setRects_idem.
Qed.

Lemma row_setRects i js w :
  ∃ rs, foldl (λ w j, Main.visit luck i j w) w js = setRects rs w.
Proof.
  revert w. induction js as [|j js IH]; intros w; simpl.
  - exists (rects w). by rewrite setRects_idem.
  - destruct (visit_setRects i j w) as [rs ->].
    destruct (IH (setRects rs w)) as [rs' ->]. by exists rs'.
Qed.

Lemma spawnNeighborhood_setRects w :
  ∃ rs, Main.spawnNeighborhood luck w = setRects rs w.
Proof.
  unfold Main.spawnNeighborhood.
  generalize (seqZ (- NEIGHBORHOOD_SIZE) (2 * NEIGHBORHOOD_SIZE)) at 2 as xs.
  generalize (seqZ (- NEIGHBORHOOD_SIZE) (2 * NEIGHBORHOOD_SIZE)) as js.
  intros js xs. revert w. induction xs as [|i xs IH]; intros w; simpl.
  - exists (rects w). by rewrite setRects_idem.
  - destruct (row_setRects i js w) as [rs ->].
    destruct (IH (setRects rs w)) as [rs' ->]. by exists rs'.
Qed.

Lemma row_rects i js w c :
  c ∈ rects (foldl (λ w j, Main.visit luck i j w) w js)
  ↔ c ∈ rects w
    ∨ ∃ j, j ∈ js ∧ lucky luck i j ∧ c = createCell (inject_Z i) (inject_Z j).
Proof.
  revert w. induction js as [|j js IH]; intros w; simpl.
  - split; [by left|]. intros [?|(j & Hj & _)]; [done|]. by apply elem_of_nil in Hj.
  - rewrite IH. unfold Main.visit at 1, spawnCache, lucky.
    destruct (Qlt_le_dec _ _) as [Hlt|Hge]; simpl.
    + rewrite elem_of_app, list_elem_of_singleton. split.
      * intros [[?| ->]|(j' & Hj' & ?)]; [by left|right|right].
        -- exists j. split; [by left|done].
        -- exists j'. split; [by right|done].
      * intros [?|(j' & Hj' & Hl & ->)]; [by left; left|].
        apply elem_of_cons in Hj' as [->|Hj']; [by left; right|].
        right. by exists j'.
    + split.
      * intros [?|(j' & Hj' & ?)]; [by left|right].
        exists j'. split; [by right|done].
      * intros [?|(j' & Hj' & Hl & ->)]; [by left|].
        apply elem_of_cons in Hj' as [->|Hj'].
        -- exfalso. by apply (Qlt_not_le _ _ Hl).
        -- right. by exists j'.
Qed.

Lemma grid_rects xs js w c :
  c ∈ rects (foldl (λ w i, foldl (λ w j, Main.visit luck i j w) w js) w xs)
  ↔ c ∈ rects w
    ∨ ∃ i j, i ∈ xs ∧ j ∈ js ∧ lucky luck i j
             ∧ c = createCell (inject_Z i) (inject_Z j).
Proof.
  revert w. induction xs as [|i xs IH]; intros w; simpl.
  - split; [by left|]. intros [?|(i & j & Hi & _)]; [done|]. by apply elem_of_nil in Hi.
  - rewrite IH, row_rects. split.
    + intros [[?|(j & Hj & Hl & ->)]|(i' & j & Hi & Hj & Hl & ->)].
      * by left.
      * right. exists i, j. split; [by left|done].
      * right. exists i', j. split; [by right|done].
    + intros [?|(i' & j & Hi & Hj & Hl & ->)]; [by left; left|].
      apply elem_of_cons in Hi as [->|Hi].
      * left. right. by exists j.
      * right. by exists i', j.
Qed.

Lemma startup_rects (i j : Z) :
  createCell (inject_Z i) (inject_Z j) ∈ rects (Main.startup luck)
  ↔ (- NEIGHBORHOOD_SIZE ≤ i < NEIGHBORHOOD_SIZE)%Z
    ∧ (- NEIGHBORHOOD_SIZE ≤ j < NEIGHBORHOOD_SIZE)%Z
    ∧ lucky luck i j.
Proof.
  unfold Main.startup, Main.spawnNeighborhood. rewrite grid_rects. simpl.
  split.
  - intros [H|(i' & j' & Hi & Hj & Hl & Heq)]; [by apply elem_of_nil in H|].
    injection Heq as -> ->.
    apply elem_of_seqZ in Hi, Hj. unfold NEIGHBORHOOD_SIZE in *.
    repeat split; try lia; done.
  - intros (Hi & Hj & Hl). right. exists i, j.
    rewrite !elem_of_seqZ. unfold NEIGHBORHOOD_SIZE in *.
    repeat split; try lia; done.
Qed.


Lemma startup_sound : Sound (Main.startup luck).
Proof.
  unfold Main.startup.
  destruct (spawnNeighborhood_setRects initialWorld) as [rs ->].
  by eapply Sound_ext; [..|exact initial_sound].
Qed.



Lemma step_sound a w : Sound w → Sound (Main.step luck a w).
Proof.
  intros Hs. destruct a as [c|coin|c|key]; simpl.
  - by apply generatePopupContent_sound.
  - by apply collect_sound.
  - by apply deposit_sound.
  - pose proof (onKeyDown_fields key w) as H. simpl in H.
    eapply Sound_ext; [..|exact Hs]; tauto.
Qed.

Lemma run_sound acts w : Sound w → Sound (Main.run luck acts w).
Proof.
  unfold Main.run. revert w. induction acts as [|a acts IH]; intros w Hs; simpl; [done|].
  by apply IH, step_sound.
Qed.
End MainFacts.

Lemma create_allocated c w : arraysAllocated w → arraysAllocated (create c w).2.
Proof.
  intros Hal.
  destruct (create_spec c w Hal) as (a & arrays0 & _ & _ & Hcoins & Harr & Hlt & _ & Hcase).
  simpl in *. intros key a'. rewrite Hcoins, Harr, length_alter.
  destruct (decide (key = cellKey c)) as [->|Hne].
  - rewrite lookup_insert_eq. by intros [= <-].
  - rewrite lookup_insert_ne by done. intros H%Hal.
    destruct Hcase as [[_ ->]|(_ & _ & ->)]; [done|]. rewrite length_app. lia.
Qed.

Lemma create_getCoins c w :
  arraysAllocated w →
  getCoins c (create c w).2 = getCoins c w ++ [length (tokens w)].
Proof.
  intros Hal.
  destruct (create_spec c w Hal) as (a & arrays0 & _ & _ & Hcoins & Harr & Hlt & Hget & _).
  simpl in *. unfold getCoins at 1. rewrite Hcoins, lookup_insert_eq.
  unfold arrayOf in *. simpl in Hget. rewrite Harr, list_lookup_alter_eq.
  destruct (lookup_lt_is_Some_2 arrays0 a Hlt) as [l El].
  rewrite El in *. simpl in *. by rewrite Hget.
Qed.

(** A batch of [n] creations: the new tokens get the serials from the
    length of the list onwards and are appended in that order. *)
Lemma createMany_spec n c w :
  arraysAllocated w →
  let w' := createMany n c w in
  tokens w' = tokens w ++
    ((λ k, mkGeocoin (toLatLng c).1 (toLatLng c).2 k false)
       <$> seq (length (getCoins c w)) n)
  ∧ getCoins c w' = getCoins c w ++ seq (length (tokens w)) n.
Proof.
  revert w. induction n as [|n IH]; intros w Hal; simpl.
  - by rewrite !app_nil_r.
  - destruct (IH _ (create_allocated c w Hal)) as [Ht Hg]. simpl in Ht, Hg.
    destruct (create_spec c w Hal) as (a & arrays0 & _ & Htok & _).
    simpl in Htok. rewrite Ht, Hg, Htok, create_getCoins by done.
    rewrite !length_app. simpl. rewrite !Nat.add_1_r, <- !app_assoc. done.
Qed.

Lemma lookup_fresh {A} (l : list A) (f : nat → A) s n :
  (λ t, (l ++ (f <$> seq s n)) !! t) <$> seq (length l) n
  = (λ k, Some (f k)) <$> seq s n.
Proof.
  revert l s. induction n as [|n IH]; intros l s; simpl; [done|].
  f_equal.
  - by rewrite lookup_app_r, Nat.sub_diag.
  - specialize (IH (l ++ [f s]) (S s)).
    rewrite length_app in IH. simpl in IH. rewrite Nat.add_1_r in IH.
    etransitivity; [|exact IH]. apply list_fmap_ext. intros _ t _.
    by rewrite <- app_assoc.
Qed.

Lemma getCoins_inSomeCache c t w : t ∈ getCoins c w → inSomeCache t w.
Proof.
  unfold getCoins. destruct (coins w !! cellKey c) as [a|] eqn:E.
  - intros H. by exists (cellKey c), a.
  - intros H. by apply elem_of_nil in H.
Qed.

Lemma inSomeCache_created w t : Sound w → inSomeCache t w → t < length (tokens w).
Proof.
  intros Hs (key & a & Hk & Hin). unfold arrayOf in Hin.
  destruct (arrays w !! a) as [l|] eqn:El; simpl in Hin; [|by apply elem_of_nil in Hin].
  by eapply (sound_caches_created _ Hs).
Qed.

(** ** Score and inventory *)

(** C5.  In every state that [src/main.ts] reaches by popup openings,
    collect clicks, deposit clicks and key presses, in any order, the score
    [playerPoints] is the length of the inventory [playerCoins].  Both are
    updated together by [collect] and [handleCoinDeposit]; nothing is
    recounted. *)
Theorem score_equals_inventory_length (luck : string → Q) (acts : list (Main.Action)) :
  playerPoints (Main.run luck acts (Main.startup luck))
  = Z.of_nat (length (playerCoins (Main.run luck acts (Main.startup luck)))).
Proof. apply sound_score, run_sound, startup_sound. Qed.

(** ** Where the tokens are *)

(** C1, as the code has it.  In every state that [src/main.ts] reaches:
    every token ever created is in the token list of at least one cache
    ([collect] does not take it out of its list); a token is in the
    inventory exactly when its [collected] flag is set, and then once; and
    caches and inventory hold created tokens only.  So no token is ever
    lost, but a collected token is in a cache list and in the inventory at
    the same time. *)
Theorem created_tokens_stay_cached (luck : string → Q) (acts : list Main.Action) :
  let w := Main.run luck acts (Main.startup luck) in
  (∀ t, t < length (tokens w) → inSomeCache t w)
  ∧ (∀ t g, tokens w !! t = Some g → (t ∈ playerCoins w ↔ collected g = true))
  ∧ NoDup (playerCoins w)
  ∧ (∀ t, t ∈ playerCoins w ∨ inSomeCache t w → t < length (tokens w)).
Proof.
  pose proof (run_sound luck acts _ (startup_sound luck)) as Hs.
  simpl. repeat split.
  - apply (sound_cached _ Hs).
  - by apply (sound_collected _ Hs).
  - by apply (sound_collected _ Hs).
  - apply (sound_inventory_nodup _ Hs).
  - intros t [H|H]; [by apply (sound_inventory_created _ Hs)|by apply inSomeCache_created].
Qed.

Lemma collected_token_in_cache_and_inventory :
  ¬ inExactlyOnePlace 0 afterFirstCollect
  ∧ totalHeld afterFirstCollect ≠ length (tokens afterFirstCollect).
Proof.
  assert (H1 : 0 ∈ getCoins originCell afterFirstCollect).
  { by_evaluation. }
  assert (H2 : 0 ∈ playerCoins afterFirstCollect).
  { by_evaluation. }
  split.
  - intros [[_ Hn]|[Hn _]]; [done|]. by apply Hn, (getCoins_inSomeCache originCell).
  - vm_compute. discriminate.
Qed.

(** ** [collect] *)

(** C2, as the code has it.  For a token that is already collected,
    [collect] changes nothing.  For an uncollected token it sets the flag,
    appends the token to the inventory, adds one to the score and dispatches
    one game-state-changed event; the factory's map and every cache list
    stay as they were, so the token is still in its cache's list.  A second
    [collect] changes nothing more. *)
Theorem collect_flags_and_keeps_cached (w : World) (t : nat) (g : Geocoin) :
  tokens w !! t = Some g →
  (collected g = true → collect t w = w)
  ∧ (collected g = false →
     tokens (collect t w) = <[t := setCollected true g]> (tokens w)
     ∧ playerCoins (collect t w) = playerCoins w ++ [t]
     ∧ playerPoints (collect t w) = (playerPoints w + 1)%Z
     ∧ log (collect t w) = log w ++ [DispatchEvent "game-state-changed"]
     ∧ coins (collect t w) = coins w
     ∧ arrays (collect t w) = arrays w
     ∧ (∀ c, getCoins c (collect t w) = getCoins c w)
     ∧ collect t (collect t w) = collect t w).
Proof.
  intros Ht. split; intros Hc.
  - unfold collect. by rewrite Ht, Hc.
  - assert (E : collect t w
                = emit (DispatchEvent "game-state-changed")
                    (setPlayerPoints (playerPoints w + 1)
                       (setPlayerCoins (playerCoins w ++ [t])
                          (setTokens (<[t := setCollected true g]> (tokens w)) w))))
      by (unfold collect; by rewrite Ht, Hc).
    rewrite E. simpl. repeat split.
    unfold collect. simpl.
    by rewrite list_lookup_insert_eq by (by eapply lookup_lt_Some).
Qed.

Lemma collect_witness :
  tokens afterPopup !! 0
  = Some (mkGeocoin (toLatLng originCell).1 (toLatLng originCell).2 0 false)
  ∧ playerCoins (collect 0 afterPopup) = playerCoins afterPopup ++ [0]
  ∧ getCoins originCell (collect 0 afterPopup) = getCoins originCell afterPopup.
Proof.
  assert (H : tokens afterPopup !! 0
              = Some (mkGeocoin (toLatLng originCell).1 (toLatLng originCell).2 0 false))
    by (vm_compute; reflexivity).
  split; [exact H|].
  destruct (collect_flags_and_keeps_cached afterPopup 0 _ H) as [_ Hun].
  destruct (Hun eq_refl) as (_ & Hp & _ & _ & _ & _ & Hg & _).
  split; [exact Hp|exact (Hg originCell)].
Defined.

Lemma collect_leaves_token_in_cache :
  collected <$> tokens afterPopup !! 0 = Some false
  ∧ 0 ∈ getCoins originCell (collect 0 afterPopup).
Proof.
  split; [vm_compute; reflexivity|].
  by_evaluation.
Qed.

(** ** [handleCoinDeposit] *)

(** C7.  With a non-empty inventory [inv ++ [t]] and a cache at the cell,
    the deposit ends normally: the inventory is [inv] (the last token
    collected is the one that leaves), the flag of [t] reads false
    afterwards while its coordinates and serial and every other token are
    as before, the score drops by one, and [t] is the last element of the
    cell's list, after the elements the list had (without an earlier
    occurrence of [t]); one game-state-changed event is dispatched.  With an
    empty inventory the
    deposit ends normally too, the page alerts that there are no coins to
    deposit, and inventory, score, tokens and every cache list are
    unchanged.  The token that [collect] has just taken is the one a deposit
    returns. *)
Theorem deposit_returns_last_collected (c : Cell) (w : World) :
  (∀ inv t a l,
     playerCoins w = inv ++ [t] →
     coins w !! cellKey c = Some a → arrays w !! a = Some l →
     ∃ w', handleCoinDeposit c w = Normal w'
       ∧ playerCoins w' = inv
       ∧ tokens w' = alter (setCollected false) t (tokens w)
       ∧ playerPoints w' = (playerPoints w - 1)%Z
       ∧ getCoins c w' = without t l ++ [t]
       ∧ coins w' = coins w
       ∧ arrays w' = <[a := without t l ++ [t]]> (arrays w)
       ∧ log w' = log w ++ [DispatchEvent "game-state-changed"; OpenPopup c]
       ∧ collected <$> tokens w' !! t = (λ _, false) <$> tokens w !! t
       ∧ (λ g, (latitude g, longitude g, serial g)) <$> tokens w' !! t
         = (λ g, (latitude g, longitude g, serial g)) <$> tokens w !! t
       ∧ (∀ x, x ≠ t → tokens w' !! x = tokens w !! x))
  ∧ (playerCoins w = [] →
     ∃ w', handleCoinDeposit c w = Normal w'
       ∧ log w' = log w ++ [Alert "No coins to deposit!"]
       ∧ playerCoins w' = [] ∧ playerPoints w' = playerPoints w
       ∧ tokens w' = tokens w ∧ coins w' = coins w ∧ arrays w' = arrays w
       ∧ ∀ c', getCoins c' w' = getCoins c' w)
  ∧ (∀ t g, tokens w !! t = Some g → collected g = false →
     last (playerCoins (collect t w)) = Some t).
Proof.
  repeat split.
  - intros inv t a l Hpc Hk Ha. eexists. split; [by apply deposit_normal|].
    simpl. split; [done|]. split; [done|]. split; [done|]. split.
    { unfold getCoins, arrayOf. simpl. rewrite Hk.
      by rewrite list_lookup_insert_eq by (by eapply lookup_lt_Some). }
    split; [done|]. split; [done|]. split; [by rewrite <- app_assoc|].
    split; [|split].
    + rewrite list_lookup_alter_eq. by destruct (tokens w !! t).
    + rewrite list_lookup_alter_eq. by destruct (tokens w !! t).
    + intros x Hx. by apply list_lookup_alter_ne.
  - intros Hpc. eexists. split; [by apply deposit_empty|]. simpl. by repeat split.
  - intros t g Ht Hc. unfold collect. rewrite Ht, Hc. simpl. apply last_snoc.
Qed.

Lemma deposit_witness :
  (playerCoins afterFirstCollect = [] ++ [0]
   ∧ coins afterFirstCollect !! cellKey originCell = Some 0
   ∧ arrays afterFirstCollect !! 0 = Some [0; 1; 2; 3]
   ∧ collected <$> tokens afterFirstCollect !! 0 = Some true
   ∧ ∃ w', handleCoinDeposit originCell afterFirstCollect = Normal w'
       ∧ playerCoins w' = [] ∧ getCoins originCell w' = [1; 2; 3; 0]
       ∧ collected <$> tokens w' !! 0 = Some false)
  ∧ (playerCoins afterPopup = []
     ∧ ∃ w', handleCoinDeposit originCell afterPopup = Normal w'
         ∧ log w' = log afterPopup ++ [Alert "No coins to deposit!"]).
Proof.
  assert (H1 : playerCoins afterFirstCollect = [] ++ [0]) by (vm_compute; reflexivity).
  assert (H2 : coins afterFirstCollect !! cellKey originCell = Some 0)
    by (vm_compute; reflexivity).
  assert (H3 : arrays afterFirstCollect !! 0 = Some [0; 1; 2; 3])
    by (vm_compute; reflexivity).
  assert (H4 : playerCoins afterPopup = []) by (vm_compute; reflexivity).
  assert (H5 : tokens afterFirstCollect !! 0
               = Some (mkGeocoin (toLatLng originCell).1 (toLatLng originCell).2 0 true))
    by (vm_compute; reflexivity).
  split.
  - split; [exact H1|]. split; [exact H2|]. split; [exact H3|].
    split; [by rewrite H5|].
    destruct (deposit_returns_last_collected originCell afterFirstCollect) as [Hd _].
    destruct (Hd [] 0 0 [0; 1; 2; 3] H1 H2 H3)
      as (w' & Hw & Hp & _ & _ & Hg & _ & _ & _ & Hf & _).
    exists w'. split; [exact Hw|]. split; [exact Hp|]. split; [exact Hg|].
    rewrite Hf, H5. reflexivity.
  - split; [exact H4|].
    destruct (deposit_returns_last_collected originCell afterPopup) as (_ & He & _).
    destruct (He H4) as (w' & Hw & Hl & _).
    exists w'. split; [exact Hw|exact Hl].
Defined.

(** ** Serial numbers *)

(** C3, as the code has it.  [create] gives the new token the current
    length of the cell's list as its serial, appends it to that list and
    returns it uncollected; there is no separate count of the tokens ever
    created.  A batch of [n] creations therefore hands out the serials from
    that length upwards, one after the other, to the [n] new tokens. *)
Theorem create_serial_is_list_length (c : Cell) (w : World) :
  arraysAllocated w →
  (create c w).1 = length (tokens w)
  ∧ tokens (create c w).2 !! (create c w).1
    = Some (mkGeocoin (toLatLng c).1 (toLatLng c).2 (length (getCoins c w)) false)
  ∧ getCoins c (create c w).2 = getCoins c w ++ [(create c w).1]
  ∧ ∀ n,
      tokens (createMany n c w) = tokens w ++
        ((λ k, mkGeocoin (toLatLng c).1 (toLatLng c).2 k false)
           <$> seq (length (getCoins c w)) n)
      ∧ getCoins c (createMany n c w) = getCoins c w ++ seq (length (tokens w)) n.
Proof.
  intros Hal.
  destruct (create_spec c w Hal) as (a & arrays0 & Ht & Htok & _). simpl in *.
  rewrite Ht, Htok. repeat split.
  - by rewrite lookup_app_r, Nat.sub_diag.
  - by apply create_getCoins.
  - by apply createMany_spec.
  - by apply createMany_spec.
Qed.

Lemma create_witness :
  arraysAllocated initialWorld
  ∧ (create originCell initialWorld).1 = 0
  ∧ serial <$> tokens (createMany 3 originCell initialWorld) = [0; 1; 2].
Proof.
  assert (H : arraysAllocated initialWorld) by (intros key a; by vm_compute).
  split; [exact H|].
  destruct (create_serial_is_list_length originCell initialWorld H) as (H1 & _ & _ & Hn).
  split; [exact H1|]. destruct (Hn 3) as [Ht _]. rewrite Ht. reflexivity.
Defined.

Lemma serial_reissued_after_removal :
  tokens afterRemovalAndCreate !! 1
  = Some (mkGeocoin (toLatLng originCell).1 (toLatLng originCell).2 1 false)
  ∧ tokens afterRemovalAndCreate !! 2
    = Some (mkGeocoin (toLatLng originCell).1 (toLatLng originCell).2 1 false)
  ∧ getCoins originCell afterRemovalAndCreate = [1; 2]
  ∧ length (tokens afterRemovalAndCreate) = 3.
Proof. vm_compute. repeat split. Qed.

Lemma deposit_coins_spawned c w :
  coins (worldOf (handleCoinDeposit c w)) = coins w
  ∧ spawnedCaches (worldOf (handleCoinDeposit c w)) = spawnedCaches w.
Proof.
  destruct (snoc_cases (playerCoins w)) as [Hpc|(inv & t & Hinv)].
  - by rewrite deposit_empty.
  - unfold handleCoinDeposit. rewrite Hinv, last_snoc, removelast_last. simpl.
    match goal with |- context [removeCoin c t ?v] =>
      pose proof (removeCoin_fields c t v) as Hr;
      pose proof (λ w1, addCoinToCache_fields c t w1) as Hadd;
      assert (Hk : coins (worldOf (removeCoin c t v)) !! cellKey c = None
                   → ∃ w1, removeCoin c t v = Thrown w1)
    end.
    { unfold removeCoin. simpl. destruct (coins w !! cellKey c) eqn:Ec; [|eauto].
      destruct (indexOf t _); simpl; rewrite Ec; intros; discriminate. }
    simpl in Hr. destruct (removeCoin c t _) as [w1|w1] eqn:E; simpl in *; [|tauto].
    destruct Hr as (_ & Hc & _ & _ & _ & _ & Hsp & _).
    specialize (Hadd w1). simpl in Hadd. destruct Hadd as (_ & _ & _ & _ & _ & Hsp' & _).
    split; [|congruence].
    unfold addCoinToCache, ensureArray.
    destruct (coins w1 !! cellKey c) eqn:Ec; simpl; [done|].
    destruct (Hk eq_refl) as [? ?]. congruence.
Qed.

Lemma lookupCoins_ext c w w' :
  tokens w' = tokens w → coins w' = coins w → arrays w' = arrays w →
  lookupCoins c w' = lookupCoins c w.
Proof.
  intros Ht Hc Ha. unfold lookupCoins, getCoins, arrayOf. by rewrite Ht, Hc, Ha.
Qed.

Section SpawnedFacts.
Variable luck : string → Q.

Lemma step_arraysOnlyWhereSpawned a w :
  arraysOnlyWhereSpawned w → arraysOnlyWhereSpawned (Main.step luck a w).
Proof.
  intros Hw. destruct a as [c|coin|c|key]; simpl.
  - unfold generatePopupContent.
    destruct (decide (cellKey c ∈ spawnedCaches w)); [done|].
    intros key. simpl.
    pose proof (createMany_fields (Z.to_nat (coinCount luck c)) c w) as H.
    simpl in H. destruct H as (_ & _ & _ & _ & -> & _).
    intros [H| ->]%createMany_coins_dom; [|set_solver].
    apply Hw in H. set_solver.
  - unfold collect. destruct (tokens w !! coin) as [g|]; [|done].
    by destruct (collected g).
  - destruct (deposit_coins_spawned c w) as [Hc Hs].
    intros key. rewrite Hc, Hs. apply Hw.
  - pose proof (onKeyDown_fields key w) as H. simpl in H.
    destruct H as (_ & _ & Hc & _ & _ & Hs).
    intros k. rewrite Hc, Hs. apply Hw.
Qed.

Lemma run_arraysOnlyWhereSpawned acts :
  arraysOnlyWhereSpawned (Main.run luck acts (Main.startup luck)).
Proof.
  assert (H0 : arraysOnlyWhereSpawned (Main.startup luck)).
  { unfold Main.startup.
    destruct (spawnNeighborhood_setRects luck initialWorld) as [rs ->].
    intros key [a Ha]. simpl in Ha. by rewrite lookup_empty in Ha. }
  unfold Main.run. revert H0. generalize (Main.startup luck).
  induction acts as [|a acts IH]; intros w Hw; simpl; [done|].
  by apply IH, step_arraysOnlyWhereSpawned.
Qed.

(** The first generation of a cache, in a state that the page can reach. *)
Lemma first_generation acts c :
  let w := Main.run luck acts (Main.startup luck) in
  cellKey c ∉ spawnedCaches w →
  lookupCoins c (generatePopupContent luck c w)
  = (λ k, Some (mkGeocoin (toLatLng c).1 (toLatLng c).2 k false))
      <$> seq 0 (Z.to_nat (coinCount luck c)).
Proof.
  intros w Hns.
  pose proof (run_sound luck acts _ (startup_sound luck)) as Hs.
  pose proof (run_arraysOnlyWhereSpawned acts) as Hsp. fold w in Hs, Hsp.
  assert (Hnone : coins w !! cellKey c = None).
  { destruct (coins w !! cellKey c) eqn:E; [|done].
    exfalso. apply Hns, Hsp. by rewrite E. }
  assert (Hg : getCoins c w = []) by (unfold getCoins; by rewrite Hnone).
  unfold generatePopupContent. destruct (decide _) as [|_]; [done|].
  rewrite (lookupCoins_ext c (createMany (Z.to_nat (coinCount luck c)) c w)) by done.
  unfold lookupCoins.
  destruct (createMany_spec (Z.to_nat (coinCount luck c)) c w (sound_arrays _ Hs))
    as [Ht Hc].
  simpl in Ht, Hc. rewrite Ht, Hc, Hg. simpl. apply lookup_fresh.
Qed.
End SpawnedFacts.

(** ** Spawning and first generation *)

(** C6, as the code has it.  With a generator that draws from [0, 1):
    at start-up a cell (i, j) gets a cache rectangle exactly when it lies in
    the scanned neighbourhood, -8 <= i, j < 8, and its draw is below the
    spawn probability; when the popup content of a cell is generated for the
    first time, the cache receives floor(luck * 10) + 1 tokens, between one
    and ten, uncollected and with the serials 0, 1, ... in list order.  In
    particular a draw of 0.05 spawns the cell (0,0), and a coin-count draw
    of 0.37 gives it four tokens with the serials 0 to 3. *)
Theorem spawn_and_first_generation (luck : string → Q) :
  (∀ seed, (0 <= luck seed)%Q ∧ (luck seed < 1)%Q) →
  (∀ i j : Z,
     createCell (inject_Z i) (inject_Z j) ∈ rects (Main.startup luck)
     ↔ (- NEIGHBORHOOD_SIZE ≤ i < NEIGHBORHOOD_SIZE)%Z
       ∧ (- NEIGHBORHOOD_SIZE ≤ j < NEIGHBORHOOD_SIZE)%Z
       ∧ (luck (spawnSeed (inject_Z i) (inject_Z j)) < CACHE_SPAWN_PROBABILITY)%Q)
  ∧ (∀ acts c,
       cellKey c ∉ spawnedCaches (Main.run luck acts (Main.startup luck)) →
       ∃ n,
         Z.of_nat n = (mathFloor (luck (coinCountSeed c) * 10) + 1)%Z
         ∧ 1 ≤ n ≤ 10
         ∧ lookupCoins c
             (generatePopupContent luck c (Main.run luck acts (Main.startup luck)))
           = (λ k, Some (mkGeocoin (toLatLng c).1 (toLatLng c).2 k false))
               <$> seq 0 n)
  ∧ ((luck "0,0" == 0.05)%Q → originCell ∈ rects (Main.startup luck))
  ∧ ((luck "0,0,coinCount" == 0.37)%Q →
     ∀ acts,
       cellKey originCell ∉ spawnedCaches (Main.run luck acts (Main.startup luck)) →
       serial <$> omap id (lookupCoins originCell
         (generatePopupContent luck originCell
            (Main.run luck acts (Main.startup luck))))
       = [0; 1; 2; 3]).
Proof.
  intros Hrange. split; [intros i j; apply startup_rects|].
  split; [|split].
  - intros acts c Hns. exists (Z.to_nat (coinCount luck c)).
    destruct (Hrange (coinCountSeed c)) as [Hlo Hhi].
    assert (Hb : (0 ≤ mathFloor (luck (coinCountSeed c) * 10) < 10)%Z).
    { unfold mathFloor. split.
      - change 0%Z with (Qfloor 0). apply Qfloor_resp_le.
        apply Qmult_le_0_compat; [done|discriminate].
      - rewrite Zlt_Qlt. eapply Qle_lt_trans; [apply Qfloor_le|].
        change (inject_Z 10) with (1 * 10)%Q. apply Qmult_lt_r; [reflexivity|done]. }
    unfold coinCount in *. split; [lia|]. split; [lia|].
    by apply first_generation.
  - intros H0. apply (startup_rects luck 0 0).
    unfold NEIGHBORHOOD_SIZE. repeat split; try lia.
    unfold lucky. change (spawnSeed (inject_Z 0) (inject_Z 0)) with "0,0".
    rewrite H0. reflexivity.
  - intros H0 acts Hns. rewrite first_generation by done.
    unfold coinCount, mathFloor. change (coinCountSeed originCell) with "0,0,coinCount".
    rewrite H0. reflexivity.
Qed.

(** ** A generated cell has a cache *)

Lemma create_coins_mono c w key :
  is_Some (coins w !! key) → is_Some (coins (create c w).2 !! key).
Proof.
  unfold create, ensureArray. destruct (toLatLng c) as [la lo]. simpl.
  destruct (coins w !! cellKey c) as [a|] eqn:E; simpl; [done|].
  intros H. destruct (decide (key = cellKey c)) as [->|Hne].
  - by rewrite lookup_insert_eq.
  - by rewrite lookup_insert_ne.
Qed.

Lemma create_coins_key c w : is_Some (coins (create c w).2 !! cellKey c).
Proof.
  unfold create, ensureArray. destruct (toLatLng c) as [la lo]. simpl.
  destruct (coins w !! cellKey c) as [a|] eqn:E; simpl.
  - by rewrite E.
  - by rewrite lookup_insert_eq.
Qed.

Lemma createMany_coins_mono n c w key :
  is_Some (coins w !! key) → is_Some (coins (createMany n c w) !! key).
Proof.
  revert w. induction n as [|n IH]; intros w H; simpl; [done|].
  by apply IH, create_coins_mono.
Qed.

Section DepositEnabled.
Variable luck : string → Q.
Hypothesis luck_nonneg : ∀ seed, (0 <= luck seed)%Q.

Lemma coinCount_positive c : (1 ≤ coinCount luck c)%Z.
Proof.
unfold coinCount, mathFloor.
assert (0 ≤ Qfloor (luck (coinCountSeed c) * 10))%Z; [|lia].
change 0%Z with (Qfloor 0). apply Qfloor_resp_le.
apply Qmult_le_0_compat; [apply luck_nonneg|discriminate].
Qed.

Lemma step_spawnedHaveArrays a w :
spawnedHaveArrays w → spawnedHaveArrays (Main.step luck a w).
Proof.
intros Hw. destruct a as [c|coin|c|key]; simpl.
- unfold generatePopupContent.
  destruct (decide (cellKey c ∈ spawnedCaches w)) as [|Hns]; [done|].
  intros key. simpl.
  pose proof (createMany_fields (Z.to_nat (coinCount luck c)) c w) as H.
  simpl in H. destruct H as (_ & _ & _ & _ & -> & _).
  intros [->%elem_of_singleton|H]%elem_of_union.
  + pose proof (coinCount_positive c) as Hpos.
    destruct (Z.to_nat (coinCount luck c)) as [|m] eqn:E; [lia|]. simpl.
    apply createMany_coins_mono, create_coins_key.
  + by apply createMany_coins_mono, Hw.
- unfold collect. destruct (tokens w !! coin) as [g|]; [|done].
  by destruct (collected g).
- destruct (deposit_coins_spawned c w) as [Hc Hs].
  intros key. rewrite Hc, Hs. apply Hw.
- pose proof (onKeyDown_fields key w) as H. simpl in H.
  destruct H as (_ & _ & Hc & _ & _ & Hs).
  intros k. rewrite Hc, Hs. apply Hw.
Qed.

(** Where the page offers a deposit button, the cell has a cache. *)
Lemma generated_cell_has_array acts key :
key ∈ spawnedCaches (Main.run luck acts (Main.startup luck)) →
∃ a l, coins (Main.run luck acts (Main.startup luck)) !! key = Some a
       ∧ arrays (Main.run luck acts (Main.startup luck)) !! a = Some l.
Proof.
assert (H0 : spawnedHaveArrays (Main.startup luck)).
{ unfold Main.startup.
  destruct (spawnNeighborhood_setRects luck initialWorld) as [rs ->].
  intros k Hk. simpl in Hk. by apply not_elem_of_empty in Hk. }
assert (H : spawnedHaveArrays (Main.run luck acts (Main.startup luck))).
{ unfold Main.run. revert H0. generalize (Main.startup luck).
  induction acts as [|a acts IH]; intros w Hw; simpl; [assumption|].
  apply IH, step_spawnedHaveArrays, Hw. }
pose proof (run_sound luck acts _ (startup_sound luck)) as Hs.
intros Hk. destruct (H key Hk) as [a Ha]. exists a.
destruct (lookup_lt_is_Some_2 (arrays (Main.run luck acts (Main.startup luck))) a)
  as [l Hl]; [by eapply (sound_arrays _ Hs)|].
by exists l.
Qed.
End DepositEnabled.

Lemma scenarioLuck_range seed :
  (0 <= scenarioLuck seed)%Q ∧ (scenarioLuck seed < 1)%Q.
Proof. unfold scenarioLuck. repeat case_decide; split; by vm_compute. Qed.

Lemma spawn_and_first_generation_witness :
  (∀ seed, (0 <= scenarioLuck seed)%Q ∧ (scenarioLuck seed < 1)%Q)
  ∧ originCell ∈ rects (Main.startup scenarioLuck)
  ∧ serial <$> omap id (lookupCoins originCell
      (generatePopupContent scenarioLuck originCell
         (Main.run scenarioLuck [] (Main.startup scenarioLuck))))
    = [0; 1; 2; 3].
Proof.
  split; [exact scenarioLuck_range|].
  destruct (spawn_and_first_generation scenarioLuck scenarioLuck_range)
    as (_ & _ & Hspawn & Hcount).
  split.
  - apply Hspawn. reflexivity.
  - apply Hcount; [reflexivity|].
    by_evaluation.
Defined.

Lemma lucky_cell_outside_neighborhood_not_spawned :
  (scenarioLuck (spawnSeed (inject_Z 8) (inject_Z 0)) < CACHE_SPAWN_PROBABILITY)%Q
  ∧ createCell (inject_Z 8) (inject_Z 0) ∉ rects (Main.startup scenarioLuck).
Proof.
  split; [by vm_compute|].
  intros [[_ H] _]%startup_rects. unfold NEIGHBORHOOD_SIZE in H. lia.
Qed.

(** ** Mementos *)

Lemma persistAfterPopup_allocated : arraysAllocated persistAfterPopup.
Proof.
  intros K a H.
  refine (map_Forall_lookup_1 (λ _ a, a < length (arrays persistAfterPopup))
            (coins persistAfterPopup) K a _ H).
  by_evaluation.
Qed.

(** A coin added to the live list after the capture is not in the
    snapshot: restoring drops it. *)
Lemma restore_drops_later_coin c x w s :
  arraysAllocated w →
  coins s = coins w → arrays s = arrays w ++ [getCoins c w] →
  cacheStateMemento s !! cellKey c = Some (cellKey c, length (arrays w)) →
  getCoins c (addCoinToCache c x s) = getCoins c w ++ [x]
  ∧ getCoins c (Persist.restoreCacheState c (addCoinToCache c x s)) = getCoins c w.
Proof.
  intros Hal Hco Har Hm.
  pose proof (addCoinToCache_fields c x s) as (_ & _ & _ & _ & _ & _ & Hmem & _).
  simpl in Hmem.
  unfold Persist.restoreCacheState. rewrite Hmem, Hm. clear Hmem.
  unfold addCoinToCache, ensureArray, getCoins, arrayOf, push. rewrite Hco.
  destruct (coins w !! cellKey c) as [a|] eqn:Hk; simpl.
  - pose proof (Hal _ _ Hk) as Hlt.
    destruct (lookup_lt_is_Some_2 _ _ Hlt) as [la Hla].
    rewrite Hco, Hk, lookup_insert_eq, Har, Hla. simpl. split.
    + rewrite list_lookup_alter_eq, (lookup_app_l _ _ _ Hlt). by rewrite Hla.
    + rewrite list_lookup_alter_ne by lia.
      rewrite lookup_app_r, Nat.sub_diag by done. simpl.
      unfold getCoins, arrayOf. by rewrite Hk, Hla.
  - rewrite !lookup_insert_eq, Har. simpl. split.
    + rewrite list_lookup_alter_eq, lookup_app_r, Nat.sub_diag by done. done.
    + rewrite length_app. simpl. rewrite list_lookup_alter_ne by lia.
      rewrite lookup_app_l by (rewrite length_app; simpl; lia).
      rewrite lookup_app_r, Nat.sub_diag by done. simpl.
      unfold getCoins. by rewrite Hk.
Qed.

(** C4, as the code has it.  Save a cache, collect a token, restore the
    cache: the restored list holds the same token objects in the same order
    as the list that was saved.  The memento copies the list, not the
    tokens, so a token read through the restored list is the live one: the
    collected token shows its flag set, every other token is as it was.

    The snapshot is filed under the cell's key with the key and a new
    array that has the elements of the cell's list; the cell keeps its own
    array.  Restoring makes the snapshot's array the cell's array, marks the
    cell spawned and keeps the snapshot.  So a coin that is added to the
    cell's list after the capture is in the list before the restore and
    gone after it.  Without a snapshot for the cell, restoring does
    nothing. *)
Theorem restore_gives_saved_list_of_live_tokens (c : Cell) (t : nat) (g : Geocoin) (w : World) :
  tokens w !! t = Some g → collected g = false →
  (getCoins c (Persist.restoreCacheState c (collect t (Persist.saveCacheState c w)))
   = getCoins c w
   ∧ ∀ r,
       tokens (Persist.restoreCacheState c (collect t (Persist.saveCacheState c w))) !! r
       = if decide (r = t) then Some (setCollected true g) else tokens w !! r)
  ∧ (cacheStateMemento (Persist.saveCacheState c w) !! cellKey c
     = Some (cellKey c, length (arrays w))
     ∧ arrays (Persist.saveCacheState c w) = arrays w ++ [getCoins c w]
     ∧ coins (Persist.saveCacheState c w) = coins w)
  ∧ (coins (Persist.restoreCacheState c (collect t (Persist.saveCacheState c w)))
     = <[cellKey c := length (arrays w)]> (coins w)
     ∧ cellKey c
       ∈ spawnedCaches (Persist.restoreCacheState c (collect t (Persist.saveCacheState c w)))
     ∧ cacheStateMemento
         (Persist.restoreCacheState c (collect t (Persist.saveCacheState c w)))
       = cacheStateMemento (Persist.saveCacheState c w))
  ∧ (arraysAllocated w → ∀ x,
       getCoins c (addCoinToCache c x (collect t (Persist.saveCacheState c w)))
       = getCoins c w ++ [x]
       ∧ getCoins c
           (Persist.restoreCacheState c
              (addCoinToCache c x (collect t (Persist.saveCacheState c w))))
         = getCoins c w)
  ∧ (cacheStateMemento w !! cellKey c = None → Persist.restoreCacheState c w = w).
Proof.
  intros Ht Hc.
  assert (E : collect t (Persist.saveCacheState c w)
              = emit (DispatchEvent "game-state-changed")
                  (setPlayerPoints (playerPoints w + 1)
                     (setPlayerCoins (playerCoins w ++ [t])
                        (setTokens (<[t := setCollected true g]> (tokens w))
                           (Persist.saveCacheState c w))))).
  { unfold collect. simpl. by rewrite Ht, Hc. }
  assert (Hm : cacheStateMemento (Persist.saveCacheState c w) !! cellKey c
               = Some (cellKey c, length (arrays w))).
  { simpl. by rewrite lookup_insert_eq. }
  split; [|split; [|split; [|split]]].
  - rewrite E. unfold Persist.restoreCacheState. simpl.
    rewrite lookup_insert_eq. simpl. split.
    + unfold getCoins at 1. simpl. rewrite lookup_insert_eq.
      unfold arrayOf. simpl. by rewrite lookup_app_r, Nat.sub_diag.
    + intros r. case_decide as Hr.
      * subst r. apply list_lookup_insert_eq. by eapply lookup_lt_Some.
      * by apply list_lookup_insert_ne.
  - split; [exact Hm|]. by split.
  - rewrite E. unfold Persist.restoreCacheState. simpl.
    rewrite lookup_insert_eq. simpl. split; [done|]. split; [set_solver|done].
  - intros Hal x. rewrite E.
    apply restore_drops_later_coin; [done|done|done|exact Hm].
  - intros Hn. unfold Persist.restoreCacheState. by rewrite Hn.
Qed.

Lemma restore_witness :
  tokens persistAfterPopup !! 0
  = Some (mkGeocoin (toLatLng originCell).1 (toLatLng originCell).2 0 false)
  ∧ arraysAllocated persistAfterPopup
  ∧ getCoins originCell persistAfterPopup = [0; 1; 2; 3]
  ∧ getCoins originCell
      (Persist.restoreCacheState originCell
         (collect 0 (Persist.saveCacheState originCell persistAfterPopup)))
    = getCoins originCell persistAfterPopup
  ∧ cacheStateMemento (Persist.saveCacheState originCell persistAfterPopup)
      !! cellKey originCell
    = Some (cellKey originCell, length (arrays persistAfterPopup))
  ∧ getCoins originCell
      (addCoinToCache originCell 0
         (collect 0 (Persist.saveCacheState originCell persistAfterPopup)))
    = [0; 1; 2; 3; 0]
  ∧ getCoins originCell
      (Persist.restoreCacheState originCell
         (addCoinToCache originCell 0
            (collect 0 (Persist.saveCacheState originCell persistAfterPopup))))
    = [0; 1; 2; 3].
Proof.
  assert (H : tokens persistAfterPopup !! 0
              = Some (mkGeocoin (toLatLng originCell).1 (toLatLng originCell).2 0 false))
    by (vm_compute; reflexivity).
  assert (Hg : getCoins originCell persistAfterPopup = [0; 1; 2; 3])
    by (vm_compute; reflexivity).
  split; [exact H|]. split; [exact persistAfterPopup_allocated|]. split; [exact Hg|].
  destruct (restore_gives_saved_list_of_live_tokens originCell 0 _ persistAfterPopup
              H eq_refl) as ([H1 _] & (H2 & _) & _ & H3 & _).
  split; [exact H1|]. split; [exact H2|].
  destruct (H3 persistAfterPopup_allocated 0) as [H4 H5].
  rewrite Hg in H4, H5. split; [exact H4|exact H5].
Defined.

Lemma restored_token_shows_later_collection :
  lookupCoins originCell
    (Persist.restoreCacheState originCell
       (collect 0 (Persist.saveCacheState originCell persistAfterPopup)))
  ≠ lookupCoins originCell persistAfterPopup.
Proof. vm_compute. discriminate. Qed.

(** ** [movePlayer] *)


Lemma movePlayer_unknown_direction (luck : string → Q) (direction : string) (w : World) :
  direction ∉ ["north"; "south"; "east"; "west"] →
  direction ∉ objectPrototypeMembers →
  Main.movePlayer direction w = Normal w
  ∧ Persist.movePlayer luck direction w = Normal w.
Proof.
  intros Hd Hp. unfold Main.movePlayer, Persist.movePlayer, movementLookup, ownMovement.
  rewrite !not_elem_of_cons in Hd. destruct Hd as (? & ? & ? & ? & _).
  destruct (playerPosition w); repeat case_decide; done.
Qed.

(** ** [resetGameState] *)

(** C9, at a run the code mishandles.  The player holds the coin with
    serial 0 of the cell (0,0), whose cache was restored from its memento
    when the player moved.  After the confirmed reset the inventory is
    empty, the score is zero, the position is the classroom, the movement
    history and the mementos are gone and the coin is uncollected, but the
    coin is not in the cache of its cell "0:0": it was added to a list under
    the key made from its latitude and longitude. *)
Theorem reset_files_coin_under_its_coordinates :
  playerCoins managerBeforeReset = [0]
  ∧ playerCoins managerAfterReset = []
  ∧ playerPoints managerAfterReset = 0%Z
  ∧ playerPosition managerAfterReset = LatLng OAKES_CLASSROOM_lat OAKES_CLASSROOM_lng
  ∧ playerMovementHistory managerAfterReset = []
  ∧ cacheStateMemento managerAfterReset = ∅
  ∧ lookupCoins originCell managerAfterReset = []
  ∧ cellKey (createCell OAKES_CLASSROOM_lat OAKES_CLASSROOM_lng)
    = "36.98949379578401:-122.06277128548504"
  ∧ serial <$> omap id
      (lookupCoins (createCell OAKES_CLASSROOM_lat OAKES_CLASSROOM_lng) managerAfterReset)
    = [0]
  ∧ collected <$> tokens managerAfterReset !! 0 = Some false.
Proof. vm_compute. repeat split. Qed.

Lemma reset_clears_player (w : World) :
  let w' := Manager.resetGameState (Some "yes") w in
  playerCoins w' = [] ∧ playerPoints w' = 0%Z
  ∧ playerPosition w' = LatLng OAKES_CLASSROOM_lat OAKES_CLASSROOM_lng
  ∧ playerMovementHistory w' = [] ∧ cacheStateMemento w' = ∅
  ∧ spawnedCaches w' = ∅.
Proof. simpl. unfold Manager.resetGameState. simpl. repeat split. Qed.

Section RegistryFacts.
Import Registry.

Lemma extends_refl b : extends b b.
Proof. by repeat split. Qed.

Lemma extends_trans b1 b2 b3 : extends b1 b2 → extends b2 b3 → extends b1 b3.
Proof.
  intros (? & ? & ? & ?) (? & ? & ? & ?). repeat split; try congruence; eauto.
Qed.

Lemma intern_spec c b :
  filedByCoordinates b →
  filedByCoordinates (intern c b).2 ∧ extends b (intern c b).2
  ∧ knownCells (intern c b).2 !! toString c = Some (intern c b).1.
Proof.
  intros Hok. unfold intern, allocate, getCanonicalCell. simpl.
  rewrite lookup_app_r, Nat.sub_diag by done. simpl.
  destruct (knownCells b !! toString c) as [known|] eqn:E; simpl.
  - split; [|split; [|done]].
    + intros key r Hr. simpl in *. destruct (Hok key r Hr) as (c' & Hc' & Hs).
      exists c'. split; [by apply lookup_app_l_Some|done].
    + repeat split; try done. simpl. intros r c' Hr. by apply lookup_app_l_Some.
  - split; [|split].
    + intros key r. simpl. destruct (decide (key = toString c)) as [->|Hne].
      * rewrite lookup_insert_eq. intros [= <-]. exists c.
        by rewrite lookup_app_r, Nat.sub_diag.
      * rewrite lookup_insert_ne by done. intros Hr.
        destruct (Hok key r Hr) as (c' & Hc' & Hs).
        exists c'. split; [by apply lookup_app_l_Some|done].
    + repeat split; try done; simpl.
      * intros r c' Hr. by apply lookup_app_l_Some.
      * intros key r Hr. rewrite lookup_insert_ne; [done|]. congruence.
    + simpl. by rewrite lookup_insert_eq.
Qed.

Lemma getCellForPoint_intern point b :
  getCellForPoint point b
  = intern (newConcreteCell (cellIndex b point).1 (cellIndex b point).2) b.
Proof. unfold getCellForPoint, intern. by destruct (cellIndex b point). Qed.

Lemma row_ok (g : Z → ConcreteCell) ds acc :
  filedByCoordinates acc.2 →
  let res :=
    foldl (λ '(resultCells, b) dj,
             let '(nearbyCell, b) := allocate (g dj) b in
             let '(canonical, b) := getCanonicalCell nearbyCell b in
             (resultCells ++ [canonical], b)) acc ds in
  filedByCoordinates res.2 ∧ extends acc.2 res.2.
Proof.
  revert acc. induction ds as [|d ds IH]; intros [rs b] Hok.
  - split; [assumption|apply extends_refl].
  - cbn [foldl]. destruct (intern_spec (g d) b Hok) as (Hok' & Hext & _).
    unfold intern in Hok', Hext. destruct (allocate (g d) b) as [n b1].
    destruct (getCanonicalCell n b1) as [cn b2].
    destruct (IH (rs ++ [cn], b2) Hok') as [H1 H2].
    split; [assumption|by eapply extends_trans].
Qed.

Lemma grid_ok (g : Z → Z → ConcreteCell) xs ds acc :
  filedByCoordinates acc.2 →
  let res :=
    foldl (λ acc di,
             foldl (λ '(resultCells, b) dj,
                      let '(nearbyCell, b) := allocate (g di dj) b in
                      let '(canonical, b) := getCanonicalCell nearbyCell b in
                      (resultCells ++ [canonical], b)) acc ds) acc xs in
  filedByCoordinates res.2 ∧ extends acc.2 res.2.
Proof.
  revert acc. induction xs as [|x xs IH]; intros acc Hok.
  - split; [assumption|apply extends_refl].
  - cbn [foldl]. destruct (row_ok (g x) ds acc Hok) as [Hok' Hext].
    destruct (IH _ Hok') as [H1 H2].
    split; [assumption|by eapply extends_trans].
Qed.

Lemma call_ok c b :
  filedByCoordinates b → filedByCoordinates (call c b) ∧ extends b (call c b).
Proof.
  intros Hok.
  pose proof (intern_spec
    (newConcreteCell (cellIndex b (match c with CellForPoint p | CellsNearPoint p => p end)).1
                     (cellIndex b (match c with CellForPoint p | CellsNearPoint p => p end)).2)
    b Hok) as (Hok' & Hext & _).
  destruct c as [point|point]; unfold call.
  - rewrite getCellForPoint_intern. by split.
  - unfold getCellsNearPoint. rewrite getCellForPoint_intern.
    destruct (intern _ b) as [originCell b1]. cbn [fst snd] in *.
    match goal with |- context [foldl ?f (?a, b1) ?l] =>
      pose proof (grid_ok
        (λ di dj, newConcreteCell
           (i (default (newConcreteCell 0 0) (objects b1 !! originCell)) + di)
           (j (default (newConcreteCell 0 0) (objects b1 !! originCell)) + dj))
        l l ([], b1) Hok') as [H1 H2]
    end.
    split; [assumption|by eapply extends_trans].
Qed.

Lemma calls_ok cs b :
  filedByCoordinates b → filedByCoordinates (calls cs b) ∧ extends b (calls cs b).
Proof.
  unfold calls. revert b. induction cs as [|c cs IH]; intros b Hok; simpl.
  - split; [assumption|apply extends_refl].
  - destruct (call_ok c b Hok) as [Hok' Hext].
    destruct (IH _ Hok') as [H1 H2]. split; [assumption|by eapply extends_trans].
Qed.

Lemma newBoard_ok tw radius : filedByCoordinates (newBoard tw radius).
Proof. intros key r H. simpl in H. by rewrite lookup_empty in H. Qed.
End RegistryFacts.

Section RegistryClaims.
Import Registry.

(** C8.  On a board reached by any calls, [getCellForPoint] returns
    for two points with the same grid coordinates the same cell object, also
    when other calls came in between; and the registry never holds two
    entries whose cells have the same coordinates. *)
Theorem registry_returns_one_instance_per_coordinates
    (tw : Q) (radius : Z) (before between : list Call) (p1 p2 : Q * Q) :
  let b0 := calls before (newBoard tw radius) in
  let first := getCellForPoint p1 b0 in
  let b1 := calls between first.2 in
  let second := getCellForPoint p2 b1 in
  (cellIndex b0 p1 = cellIndex b1 p2 → first.1 = second.1)
  ∧ (∀ key1 key2 r1 r2 c1 c2,
       knownCells second.2 !! key1 = Some r1 →
       knownCells second.2 !! key2 = Some r2 →
       objects second.2 !! r1 = Some c1 →
       objects second.2 !! r2 = Some c2 →
       i c1 = i c2 → j c1 = j c2 → key1 = key2 ∧ r1 = r2).
Proof.
  intros b0 first b1 second.
  destruct (calls_ok before _ (newBoard_ok tw radius)) as [Hok0 _]. fold b0 in Hok0.
  pose proof (getCellForPoint_intern p1 b0) as E1. fold first in E1.
  destruct (intern_spec (newConcreteCell (cellIndex b0 p1).1 (cellIndex b0 p1).2) b0 Hok0)
    as (Hok1 & _ & Hk1). rewrite <- E1 in Hok1, Hk1.
  destruct (calls_ok between _ Hok1) as [Hok2 Hext2]. fold b1 in Hok2, Hext2.
  pose proof (getCellForPoint_intern p2 b1) as E2. fold second in E2.
  destruct (intern_spec (newConcreteCell (cellIndex b1 p2).1 (cellIndex b1 p2).2) b1 Hok2)
    as (Hok3 & Hext3 & Hk3). rewrite <- E2 in Hok3, Hext3, Hk3.
  split.
  - intros Hidx. rewrite <- Hidx in Hk3.
    destruct Hext2 as (_ & _ & _ & Hkeep2). destruct Hext3 as (_ & _ & _ & Hkeep3).
    apply Hkeep2, Hkeep3 in Hk1. congruence.
  - intros key1 key2 r1 r2 [i1 j1] [i2 j2] Hr1 Hr2 Ho1 Ho2 Hi Hj. simpl in *. subst.
    destruct (Hok3 _ _ Hr1) as (c1 & Hc1 & <-).
    destruct (Hok3 _ _ Hr2) as (c2 & Hc2 & <-).
    assert (c1 = c2) as -> by congruence.
    split; [done|congruence].
Qed.

Lemma registry_witness :
  cellIndex (newBoard TILE_DEGREES 1) (0.00012%Q, 0.00034%Q)
  = cellIndex (newBoard TILE_DEGREES 1) (0.00018%Q, 0.00039%Q)
  ∧ (getCellForPoint (0.00012%Q, 0.00034%Q) (newBoard TILE_DEGREES 1)).1
    = (getCellForPoint (0.00018%Q, 0.00039%Q)
         (calls [CellsNearPoint (0.00012%Q, 0.00034%Q)]
            (getCellForPoint (0.00012%Q, 0.00034%Q) (newBoard TILE_DEGREES 1)).2)).1.
Proof.
  split; [reflexivity|].
  apply (registry_returns_one_instance_per_coordinates TILE_DEGREES 1 []
           [CellsNearPoint (0.00012%Q, 0.00034%Q)]
           (0.00012%Q, 0.00034%Q) (0.00018%Q, 0.00039%Q)).
  reflexivity.
Defined.

End RegistryClaims.

(** * Further properties *)

(** ** Keys *)


Lemma pretty_N_char_digit x : pretty_N_char x ≠ ":"%char ∧ pretty_N_char x ≠ ","%char.
Proof. unfold pretty_N_char. by repeat case_match. Qed.

Lemma pretty_N_go_lacks a x s :
  (a = ":"%char ∨ a = ","%char) → lacks a s → lacks a (pretty_N_go x s).
Proof.
  intros Ha. revert s. induction (N.lt_wf_0 x) as [x _ IH]; intros s Hs.
  assert (x = 0 ∨ 0 < x)%N as [->|?] by lia.
  - by rewrite pretty_N_go_0.
  - rewrite pretty_N_go_step by done. apply IH; [by apply N.div_lt|].
    simpl. split; [|done].
    destruct (pretty_N_char_digit (x `mod` 10)%N) as [H1 H2].
    by destruct Ha as [->| ->].
Qed.

Lemma pretty_Z_lacks a (x : Z) :
  (a = ":"%char ∨ a = ","%char) → lacks a (pretty x).
Proof.
  intros Ha.
  assert (HN : ∀ n : N, lacks a (pretty n)).
  { intros n. unfold pretty, pretty_N. case_decide.
    - simpl. split; [|done]. by destruct Ha as [->| ->].
    - by apply pretty_N_go_lacks. }
  destruct x as [|p|p]; unfold pretty, pretty_Z.
  - simpl. split; [|done]. by destruct Ha as [->| ->].
  - apply HN.
  - simpl. split; [by destruct Ha as [->| ->]|]. apply HN.
Qed.

Lemma app_separator_inj a s1 s2 t1 t2 :
  lacks a s1 → lacks a s2 →
  s1 +:+ String a t1 = s2 +:+ String a t2 → s1 = s2 ∧ t1 = t2.
Proof.
  revert s2. induction s1 as [|b s1 IH]; intros [|c s2]; simpl.
  - intros _ _ [= ->]. done.
  - intros _ [Hc _] [= <- _]. done.
  - intros [Hb _] _ [= -> _]. done.
  - intros [_ H1] [_ H2] [= -> H]. destruct (IH _ H1 H2 H) as [-> ->]. done.
Qed.

Lemma Qred_integer (i : Z) : Qred (inject_Z i) = inject_Z i.
Proof.
  unfold Qred, inject_Z.
  pose proof (Z.ggcd_gcd i 1) as Hg. pose proof (Z.ggcd_correct_divisors i 1) as Hd.
  destruct (Z.ggcd i 1) as [g [aa bb]]. simpl in *.
  rewrite Z.gcd_1_r in Hg. subst g. destruct Hd as [-> Hb].
  assert (bb = 1%Z) as -> by lia. f_equal. lia.
Qed.

Lemma numberToString_integer (i : Z) : numberToString (inject_Z i) = pretty i.
Proof. unfold numberToString. by rewrite Qred_integer. Qed.

Section KeyFacts.
Import Registry.

Lemma toString_pretty c : toString c = pretty (i c) +:+ String ":"%char (pretty (j c)).
Proof. done. Qed.

Lemma toString_inj c1 c2 : toString c1 = toString c2 → c1 = c2.
Proof.
  rewrite !toString_pretty. intros H.
  apply (app_separator_inj ":"%char) in H as [Hi Hj];
    [|apply pretty_Z_lacks; by left..].
  apply (inj pretty) in Hi, Hj. destruct c1, c2; simpl in *; congruence.
Qed.
End KeyFacts.

(** X1.  Cells with integer coordinates have their own keys and seeds:
    [createCell(i, j).toString()] is the same for two such cells only when
    their coordinates are, so is the seed [[i, j].toString()] of the spawn
    draw, and no spawn seed is the seed of a coin count. *)
Theorem integer_cells_have_distinct_keys (i1 j1 i2 j2 : Z) :
  (cellKey (createCell (inject_Z i1) (inject_Z j1))
   = cellKey (createCell (inject_Z i2) (inject_Z j2)) → i1 = i2 ∧ j1 = j2)
  ∧ (spawnSeed (inject_Z i1) (inject_Z j1) = spawnSeed (inject_Z i2) (inject_Z j2)
     → i1 = i2 ∧ j1 = j2)
  ∧ spawnSeed (inject_Z i1) (inject_Z j1)
    ≠ coinCountSeed (createCell (inject_Z i2) (inject_Z j2)).
Proof.
  unfold cellKey, spawnSeed, coinCountSeed. simpl. rewrite !numberToString_integer.
  split; [|split].
  - intros H. apply (app_separator_inj ":"%char) in H as [Hi Hj];
      [|apply pretty_Z_lacks; by left..].
    by apply (inj pretty) in Hi, Hj.
  - intros H. apply (app_separator_inj ","%char) in H as [Hi Hj];
      [|apply pretty_Z_lacks; by right..].
    by apply (inj pretty) in Hi, Hj.
  - intros H.
    change (pretty i1 +:+ String ","%char (pretty j1)
            = pretty i2 +:+ String ","%char (pretty j2 +:+ ",coinCount")) in H.
    apply (app_separator_inj ","%char) in H as [_ Hj];
      [|apply pretty_Z_lacks; by right..].
    pose proof (pretty_Z_lacks ","%char j1 (or_intror eq_refl)) as Hl.
    rewrite Hj in Hl. clear Hj.
    induction (pretty j2) as [|b s IH]; simpl in Hl.
    + by destruct Hl as [Hl _].
    + apply IH. by destruct Hl.
Qed.

Lemma integer_cells_witness :
  cellKey (createCell (inject_Z 3) (inject_Z (-4)))
  = cellKey (createCell (inject_Z 3) (inject_Z (-4)))
  ∧ spawnSeed (inject_Z 3) (inject_Z (-4)) = spawnSeed (inject_Z 3) (inject_Z (-4))
  ∧ (3 = 3 ∧ -4 = -4)%Z.
Proof.
  split; [reflexivity|]. split; [reflexivity|].
  exact (proj1 (integer_cells_have_distinct_keys 3 (-4) 3 (-4)) eq_refl).
Defined.

(** ** The cells around a point *)

Section NearFacts.
Import Registry.

Lemma registered_object b key r :
  filedByCoordinates b → knownCells b !! key = Some r →
  ∀ c, toString c = key → objects b !! r = Some c.
Proof.
  intros Hok Hk c Hc. destruct (Hok key r Hk) as (c' & Hc' & Hs).
  rewrite Hc'. f_equal. apply toString_inj. congruence.
Qed.

Lemma row_cells (g : Z → ConcreteCell) ds acc :
  filedByCoordinates acc.2 →
  let res :=
    foldl (λ '(resultCells, b) dj,
             let '(nearbyCell, b) := allocate (g dj) b in
             let '(canonical, b) := getCanonicalCell nearbyCell b in
             (resultCells ++ [canonical], b)) acc ds in
  ∃ new, res.1 = acc.1 ++ new
    ∧ Forall2 (λ r d, knownCells res.2 !! toString (g d) = Some r) new ds.
Proof.
  revert acc. induction ds as [|d ds IH]; intros [rs b] Hok.
  - exists []. simpl. split; [by rewrite app_nil_r|constructor].
  - cbn [foldl]. destruct (intern_spec (g d) b Hok) as (Hok' & Hext & Hk).
    unfold intern in Hok', Hext, Hk. destruct (allocate (g d) b) as [n b1].
    destruct (getCanonicalCell n b1) as [cn b2]. simpl in Hok', Hext, Hk.
    destruct (IH (rs ++ [cn], b2) Hok') as (new & Hres & Hall).
    destruct (row_ok g ds (rs ++ [cn], b2) Hok') as [_ (_ & _ & _ & Hkeep)].
    exists (cn :: new). split.
    + rewrite Hres. simpl. by rewrite <- app_assoc.
    + constructor; [|exact Hall]. by apply Hkeep.
Qed.

Lemma Forall2_keep {A B} (P Q : A → B → Prop) l k :
  (∀ x y, P x y → Q x y) → Forall2 P l k → Forall2 Q l k.
Proof. intros H. induction 1; constructor; auto. Qed.

Lemma grid_cells (g : Z → Z → ConcreteCell) xs ds acc :
  filedByCoordinates acc.2 →
  let res :=
    foldl (λ acc di,
             foldl (λ '(resultCells, b) dj,
                      let '(nearbyCell, b) := allocate (g di dj) b in
                      let '(canonical, b) := getCanonicalCell nearbyCell b in
                      (resultCells ++ [canonical], b)) acc ds) acc xs in
  ∃ new, res.1 = acc.1 ++ new
    ∧ Forall2 (λ r d, knownCells res.2 !! toString (g d.1 d.2) = Some r)
        new (x ← xs; (λ d, (x, d)) <$> ds).
Proof.
  revert acc. induction xs as [|x xs IH]; intros acc Hok.
  - exists []. simpl. split; [by rewrite app_nil_r|constructor].
  - cbn [foldl]. destruct (row_cells (g x) ds acc Hok) as (new1 & Hres1 & Hall1).
    destruct (row_ok (g x) ds acc Hok) as [Hok' _].
    destruct (IH _ Hok') as (new2 & Hres2 & Hall2).
    destruct (grid_ok g xs ds _ Hok') as [_ (_ & _ & _ & Hkeep)].
    exists (new1 ++ new2). split.
    + rewrite Hres2, Hres1. by rewrite <- app_assoc.
    + simpl. apply Forall2_app; [|exact Hall2].
      apply Forall2_fmap_r. eapply Forall2_keep; [|exact Hall1].
      intros r d Hr. simpl. by apply Hkeep.
Qed.
End NearFacts.

Section NearClaims.
Import Registry.

Lemma length_grid {A} (xs : list A) {B} (ds : list B) :
  length (x ← xs; (λ d, (x, d)) <$> ds) = length xs * length ds.
Proof.
  induction xs as [|x xs IH]; [done|].
  rewrite bind_cons, length_app, length_fmap, IH. simpl. done.
Qed.

Lemma Forall2_fmap_eq {A B C} (f : A → C) (g : B → C) l k :
  Forall2 (λ x y, f x = g y) l k → f <$> l = g <$> k.
Proof.
  induction 1 as [|x y l k H _ IH]; [done|].
  rewrite !fmap_cons. by rewrite H, IH.
Qed.

Lemma calls_radius cs tw radius :
  tileVisibilityRadius (calls cs (newBoard tw radius)) = radius
  ∧ tileWidth (calls cs (newBoard tw radius)) = tw.
Proof.
  destruct (calls_ok cs _ (newBoard_ok tw radius)) as [_ (H1 & H2 & _)]. by split.
Qed.

(** X2.  With a radius of at least 0, on a board reached by any calls,
    [getCellsNearPoint(point)] returns, row by row, the cells with the
    coordinates [origin + (di, dj)] for [di] and [dj] from [-radius] to
    [radius], where the origin is the cell of the point: (2 radius + 1)²
    cells, the cell that [getCellForPoint(point)] returns among them. *)
Theorem cells_near_point_form_the_square
    (tw : Q) (radius : Z) (before : list Call) (point : Q * Q) :
  (0 ≤ radius)%Z →
  let b := calls before (newBoard tw radius) in
  let res := getCellsNearPoint point b in
  let o := cellIndex b point in
  (λ r, objects res.2 !! r) <$> res.1
  = (λ d, Some (newConcreteCell (o.1 + d.1) (o.2 + d.2)))
      <$> (x ← seqZ (- radius) (2 * radius + 1);
           (λ d, (x, d)) <$> seqZ (- radius) (2 * radius + 1))
  ∧ length res.1 = Z.to_nat ((2 * radius + 1) * (2 * radius + 1))
  ∧ (getCellForPoint point b).1 ∈ res.1.
Proof.
  intros Hr b res o.
  destruct (calls_ok before _ (newBoard_ok tw radius)) as [Hok _]. fold b in Hok.
  destruct (calls_radius before tw radius) as [Hrad _]. fold b in Hrad.
  pose proof (getCellForPoint_intern point b) as E. fold o in E.
  set (c0 := newConcreteCell o.1 o.2) in *.
  destruct (intern_spec c0 b Hok) as (Hok1 & Hext1 & Hk1).
  subst res. unfold getCellsNearPoint. rewrite E.
  destruct (intern c0 b) as [oref b1] eqn:Ei. cbn [fst snd] in *.
  pose proof (registered_object b1 _ _ Hok1 Hk1 c0 eq_refl) as Ho.
  rewrite Ho. cbn [default from_option id].
  destruct Hext1 as (_ & Hrad1 & _). rewrite Hrad1, Hrad.
  set (L := seqZ (- radius) (2 * radius + 1)).
  destruct (grid_cells (λ di dj, newConcreteCell (i c0 + di) (j c0 + dj)) L L ([], b1) Hok1)
    as (new & Hres & Hall).
  destruct (grid_ok (λ di dj, newConcreteCell (i c0 + di) (j c0 + dj)) L L ([], b1) Hok1)
    as [Hok2 (_ & _ & _ & Hkeep)].
  cbn [fst snd] in *. rewrite app_nil_l in Hres.
  match goal with |- context [foldl ?f ([], b1) L] => set (fin := foldl f ([], b1) L) in * end.
  rewrite Hres. split; [|split].
  - apply Forall2_fmap_eq. eapply Forall2_keep; [|exact Hall].
    intros r d Hd. simpl in Hd. by eapply registered_object.
  - apply Forall2_length in Hall. rewrite Hall, length_grid. unfold L.
    rewrite length_seqZ. rewrite <- Z2Nat.inj_mul by lia. done.
  - assert (Hin : (0, 0)%Z ∈ (x ← L; (λ d, (x, d)) <$> L)).
    { apply list_elem_of_bind. exists 0%Z. split.
      - apply list_elem_of_fmap. exists 0%Z. split; [done|]. apply elem_of_seqZ. lia.
      - apply elem_of_seqZ. lia. }
    apply list_elem_of_lookup in Hin as [n Hn].
    destruct (Forall2_lookup_r _ _ _ _ _ Hall Hn) as (r & Hr1 & Hr2).
    simpl in Hr2. rewrite !Z.add_0_r in Hr2.
    apply Hkeep in Hk1. fold fin in Hk1.
    assert (r = oref) as -> by (unfold c0 in Hk1; simpl in Hk1; congruence).
    by eapply list_elem_of_lookup_2.
Qed.

Lemma cells_near_point_witness :
  (0 ≤ 1)%Z
  ∧ length (getCellsNearPoint (0.00012%Q, 0.00034%Q) (newBoard TILE_DEGREES 1)).1 = 9
  ∧ (getCellForPoint (0.00012%Q, 0.00034%Q) (newBoard TILE_DEGREES 1)).1
    ∈ (getCellsNearPoint (0.00012%Q, 0.00034%Q) (newBoard TILE_DEGREES 1)).1.
Proof.
  split; [lia|].
  destruct (cells_near_point_form_the_square TILE_DEGREES 1 [] (0.00012%Q, 0.00034%Q))
    as (_ & Hlen & Hin); [lia|].
  split; [exact Hlen|exact Hin].
Defined.
End NearClaims.

(** ** Collect and deposit together *)

Lemma indexOf_elem t l : t ∈ l → is_Some (indexOf t l).
Proof.
  intros Hin. destruct (indexOf t l) eqn:E; [done|].
  by apply indexOf_None in E.
Qed.

Lemma without_snoc_Permutation t l : t ∈ l → without t l ++ [t] ≡ₚ l.
Proof.
  intros [k Hk]%indexOf_elem. unfold without, splice1. rewrite Hk.
  apply indexOf_Some in Hk.
  rewrite <- Permutation_cons_append. symmetry. by apply delete_Permutation.
Qed.

(** X3.  Collecting an uncollected coin of a cell and depositing it into
    the same cell gives back the inventory, the score and every coin
    object as they were; the cell's list holds the same coins, with the
    coin moved to the end. *)
Theorem collect_then_deposit_restores_player
    (c : Cell) (w : World) (t : nat) (g : Geocoin) (a : nat) (l : list nat) :
  tokens w !! t = Some g → collected g = false →
  coins w !! cellKey c = Some a → arrays w !! a = Some l → t ∈ l →
  ∃ w', handleCoinDeposit c (collect t w) = Normal w'
    ∧ tokens w' = tokens w
    ∧ playerCoins w' = playerCoins w
    ∧ playerPoints w' = playerPoints w
    ∧ coins w' = coins w
    ∧ getCoins c w' = without t l ++ [t]
    ∧ getCoins c w' ≡ₚ l.
Proof.
  intros Ht Hc Hk Ha Hin.
  assert (E : collect t w
              = emit (DispatchEvent "game-state-changed")
                  (setPlayerPoints (playerPoints w + 1)
                     (setPlayerCoins (playerCoins w ++ [t])
                        (setTokens (<[t := setCollected true g]> (tokens w)) w))))
    by (unfold collect; by rewrite Ht, Hc).
  eexists. split.
  { rewrite E. by apply (deposit_normal c _ (playerCoins w) t a l). }
  simpl. repeat split.
  - apply list_eq. intros n. destruct (decide (n = t)) as [->|Hne].
    + rewrite list_lookup_alter_eq, list_lookup_insert_eq by (by eapply lookup_lt_Some).
      simpl. rewrite Ht. f_equal. destruct g. simpl in *. by subst.
    + by rewrite list_lookup_alter_ne, list_lookup_insert_ne.
  - lia.
  - unfold getCoins, arrayOf. simpl. rewrite Hk.
    by rewrite list_lookup_insert_eq by (by eapply lookup_lt_Some).
  - unfold getCoins, arrayOf. simpl. rewrite Hk.
    rewrite list_lookup_insert_eq by (by eapply lookup_lt_Some). simpl.
    by apply without_snoc_Permutation.
Qed.

Lemma collect_then_deposit_witness :
  tokens afterPopup !! 0
  = Some (mkGeocoin (toLatLng originCell).1 (toLatLng originCell).2 0 false)
  ∧ coins afterPopup !! cellKey originCell = Some 0
  ∧ arrays afterPopup !! 0 = Some [0; 1; 2; 3]
  ∧ 0 ∈ [0; 1; 2; 3]
  ∧ ∃ w', handleCoinDeposit originCell (collect 0 afterPopup) = Normal w'
      ∧ playerCoins w' = playerCoins afterPopup
      ∧ getCoins originCell w' = [1; 2; 3; 0].
Proof.
  assert (H1 : tokens afterPopup !! 0
               = Some (mkGeocoin (toLatLng originCell).1 (toLatLng originCell).2 0 false))
    by (vm_compute; reflexivity).
  assert (H2 : coins afterPopup !! cellKey originCell = Some 0) by (vm_compute; reflexivity).
  assert (H3 : arrays afterPopup !! 0 = Some [0; 1; 2; 3]) by (vm_compute; reflexivity).
  assert (H4 : 0 ∈ [0; 1; 2; 3]) by (apply list_elem_of_here).
  split; [exact H1|]. split; [exact H2|]. split; [exact H3|]. split; [exact H4|].
  destruct (collect_then_deposit_restores_player originCell afterPopup 0 _ 0 _
              H1 eq_refl H2 H3 H4) as (w' & Hw & _ & Hp & _ & _ & Hg & _).
  exists w'. split; [exact Hw|]. split; [exact Hp|exact Hg].
Defined.

(** X4.  When the coin on top of the inventory is listed in the cache of
    a cell A and is deposited into another cell B that has an array, the
    coin is uncollected again and is listed in both caches: the list of A
    is unchanged and the list of B gets the coin at its end. *)
Theorem deposit_elsewhere_lists_coin_in_both_caches
    (cA cB : Cell) (w : World) (inv : list nat) (t a b : nat) (la lb : list nat) :
  playerCoins w = inv ++ [t] →
  coins w !! cellKey cA = Some a → arrays w !! a = Some la → t ∈ la →
  coins w !! cellKey cB = Some b → arrays w !! b = Some lb → a ≠ b →
  ∃ w', handleCoinDeposit cB w = Normal w'
    ∧ getCoins cA w' = la ∧ t ∈ getCoins cA w'
    ∧ getCoins cB w' = without t lb ++ [t]
    ∧ collected <$> tokens w' !! t = (λ _, false) <$> tokens w !! t.
Proof.
  intros Hpc HkA HaA Hin HkB HaB Hne.
  eexists. split; [by apply (deposit_normal cB w inv t b lb)|].
  unfold getCoins, arrayOf. simpl. rewrite HkA, HkB.
  rewrite list_lookup_insert_ne by done.
  rewrite list_lookup_insert_eq by (by eapply lookup_lt_Some).
  rewrite HaA. simpl. repeat split; [done|].
  rewrite list_lookup_alter_eq. by destruct (tokens w !! t).
Qed.

Lemma deposit_elsewhere_witness :
  playerCoins afterSecondPopup = [] ++ [0]
  ∧ coins afterSecondPopup !! cellKey originCell = Some 0
  ∧ arrays afterSecondPopup !! 0 = Some [0; 1; 2; 3; 4; 5]
  ∧ 0 ∈ [0; 1; 2; 3; 4; 5]
  ∧ coins afterSecondPopup !! cellKey (createCell 1 0) = Some 1
  ∧ arrays afterSecondPopup !! 1 = Some [6; 7; 8; 9; 10; 11]
  ∧ 0 ≠ 1
  ∧ cellKey originCell ∈ spawnedCaches afterSecondPopup
  ∧ cellKey (createCell 1 0) ∈ spawnedCaches afterSecondPopup
  ∧ ∃ w', handleCoinDeposit (createCell 1 0) afterSecondPopup = Normal w'
      ∧ getCoins originCell w' = [0; 1; 2; 3; 4; 5]
      ∧ getCoins (createCell 1 0) w' = [6; 7; 8; 9; 10; 11; 0].
Proof.
  assert (H1 : playerCoins afterSecondPopup = [] ++ [0]) by (vm_compute; reflexivity).
  assert (H2 : coins afterSecondPopup !! cellKey originCell = Some 0)
    by (vm_compute; reflexivity).
  assert (H3 : arrays afterSecondPopup !! 0 = Some [0; 1; 2; 3; 4; 5])
    by (vm_compute; reflexivity).
  assert (H4 : 0 ∈ [0; 1; 2; 3; 4; 5]) by (apply list_elem_of_here).
  assert (H5 : coins afterSecondPopup !! cellKey (createCell 1 0) = Some 1)
    by (vm_compute; reflexivity).
  assert (H6 : arrays afterSecondPopup !! 1 = Some [6; 7; 8; 9; 10; 11])
    by (vm_compute; reflexivity).
  assert (H7 : 0 ≠ 1) by lia.
  assert (H8 : cellKey originCell ∈ spawnedCaches afterSecondPopup) by by_evaluation.
  assert (H9 : cellKey (createCell 1 0) ∈ spawnedCaches afterSecondPopup) by by_evaluation.
  do 9 (split; [assumption|]).
  destruct (deposit_elsewhere_lists_coin_in_both_caches originCell (createCell 1 0)
              afterSecondPopup [] 0 0 1 _ _ H1 H2 H3 H4 H5 H6 H7)
    as (w' & Hw & HA & _ & HB & _).
  exists w'. split; [exact Hw|]. split; [exact HA|exact HB].
Defined.

(** X5.  For a cell that has no array [removeCoin] throws, and so does a
    deposit into it, after the coin was popped from the inventory, its
    flag cleared and the score decremented: no cache receives the coin and
    no event is dispatched. *)
Theorem deposit_without_cache_loses_coin
    (c : Cell) (w : World) (inv : list nat) (t : nat) :
  playerCoins w = inv ++ [t] → coins w !! cellKey c = None →
  removeCoin c t w = Thrown w
  ∧ ∃ w', handleCoinDeposit c w = Thrown w'
      ∧ playerCoins w' = inv
      ∧ playerPoints w' = (playerPoints w - 1)%Z
      ∧ tokens w' = alter (setCollected false) t (tokens w)
      ∧ coins w' = coins w ∧ arrays w' = arrays w ∧ log w' = log w.
Proof.
  intros Hpc Hk. split.
  - unfold removeCoin. by rewrite Hk.
  - eexists. split; [by apply deposit_thrown|]. simpl. by repeat split.
Qed.

Lemma deposit_without_cache_witness :
  playerCoins afterFirstCollect = [] ++ [0]
  ∧ coins afterFirstCollect !! cellKey (createCell 1 0) = None
  ∧ ∃ w', handleCoinDeposit (createCell 1 0) afterFirstCollect = Thrown w'
      ∧ playerCoins w' = [].
Proof.
  assert (H1 : playerCoins afterFirstCollect = [] ++ [0]) by (vm_compute; reflexivity).
  assert (H2 : coins afterFirstCollect !! cellKey (createCell 1 0) = None)
    by (vm_compute; reflexivity).
  split; [exact H1|]. split; [exact H2|].
  destruct (deposit_without_cache_loses_coin (createCell 1 0) afterFirstCollect [] 0 H1 H2)
    as (_ & w' & Hw & Hp & _).
  exists w'. split; [exact Hw|exact Hp].
Defined.

(** X6.  In [src/main.ts], with draws of [luck] that are not negative,
    after any sequence of user actions a deposit into a cell whose popup
    content was generated completes normally. *)
Theorem deposit_button_never_throws (luck : string → Q) (acts : list Main.Action) (c : Cell) :
  (∀ seed, (0 <= luck seed)%Q) →
  cellKey c ∈ spawnedCaches (Main.run luck acts (Main.startup luck)) →
  ∃ w', handleCoinDeposit c (Main.run luck acts (Main.startup luck)) = Normal w'.
Proof.
  intros Hluck Hsp.
  destruct (generated_cell_has_array luck Hluck acts _ Hsp) as (a & l & Ha & Hl).
  destruct (snoc_cases (playerCoins (Main.run luck acts (Main.startup luck))))
    as [Hpc|(inv & t & Hpc)].
  - eexists. by apply deposit_empty.
  - eexists. by apply (deposit_normal c _ inv t a l).
Qed.

Lemma scenarioLuck_nonneg seed : (0 <= scenarioLuck seed)%Q.
Proof. unfold scenarioLuck. repeat case_decide; by vm_compute. Qed.

Lemma deposit_button_witness :
  (∀ seed, (0 <= scenarioLuck seed)%Q)
  ∧ cellKey originCell
    ∈ spawnedCaches (Main.run scenarioLuck [Main.PopupOpen originCell]
                       (Main.startup scenarioLuck))
  ∧ ∃ w', handleCoinDeposit originCell
            (Main.run scenarioLuck [Main.PopupOpen originCell]
               (Main.startup scenarioLuck)) = Normal w'.
Proof.
  assert (H : cellKey originCell
              ∈ spawnedCaches (Main.run scenarioLuck [Main.PopupOpen originCell]
                                 (Main.startup scenarioLuck))) by by_evaluation.
  split; [exact scenarioLuck_nonneg|]. split; [exact H|].
  exact (deposit_button_never_throws scenarioLuck [Main.PopupOpen originCell] originCell
           scenarioLuck_nonneg H).
Defined.

(** ** Loops over a grid *)

Lemma foldl_grid {A} (f : Z → Z → A → A) (xs js : list Z) (w : A) :
  foldl (λ w i, foldl (λ w j, f i j w) w js) w xs
  = foldl (λ w p, f p.1 p.2 w) w (x ← xs; (λ d, (x, d)) <$> js).
Proof.
  revert w. induction xs as [|x xs IH]; intros w; [done|].
  rewrite bind_cons, foldl_app. cbn [foldl]. rewrite IH. f_equal.
  by rewrite foldl_fmap.
Qed.

Lemma foldl_keeps {A B} (P : A → Prop) (f : A → B → A) (l : list B) (w : A) :
  P w → (∀ w x, x ∈ l → P w → P (f w x)) → P (foldl f w l).
Proof.
  revert w. induction l as [|x l IH]; intros w Hw Hstep; [done|].
  simpl. apply IH.
  - apply Hstep; [by left|done].
  - intros w' y Hy. apply Hstep. by right.
Qed.

(** A property that one element of the list establishes and every step
    keeps holds at the end. *)
Lemma foldl_reaches {A B} (P R : A → Prop) (f : A → B → A) (l : list B) (x : B) (w : A) :
  x ∈ l → P w →
  (∀ w y, P w → P (f w y)) →
  (∀ w, P w → R (f w x)) →
  (∀ w y, P w → R w → R (f w y)) →
  R (foldl f w l).
Proof.
  intros Hx Hw HP Hest Hkeep. revert w Hw.
  induction l as [|y l IH]; intros w Hw; [by apply elem_of_nil in Hx|].
  apply elem_of_cons in Hx as [->|Hx]; simpl.
  - apply (foldl_keeps (λ w, P w ∧ R w)).
    + split; [by apply HP|by apply Hest].
    + intros w' z _ [? ?]. split; [by apply HP|by apply Hkeep].
  - apply IH; [done|by apply HP].
Qed.


Lemma elem_of_grid xs js i j : (i, j) ∈ grid xs js ↔ i ∈ xs ∧ j ∈ js.
Proof.
  unfold grid. rewrite list_elem_of_bind. split.
  - intros (x & [d [[= -> ->] Hd]]%list_elem_of_fmap & Hx). done.
  - intros [Hi Hj]. exists i. split; [|done]. apply list_elem_of_fmap. by exists j.
Qed.

Lemma NoDup_grid xs js : NoDup xs → NoDup js → NoDup (grid xs js).
Proof.
  intros Hxs Hjs. unfold grid. induction Hxs as [|x xs Hx _ IH].
  - constructor.
  - rewrite bind_cons. apply NoDup_app. split; [|split; [|exact IH]].
    + apply NoDup_fmap_2; [|done]. by intros ?? [= ->].
    + intros [a b] [d [[= -> ->] _]]%list_elem_of_fmap Hin.
      apply elem_of_grid in Hin as [? _]. done.
Qed.

(** ** [spawnRelativeCache] *)

Lemma elem_of_neighborhood pI pJ i j :
  (i, j) ∈ neighborhood pI pJ
  ↔ (pI - NEIGHBORHOOD_SIZE ≤ i ≤ pI + NEIGHBORHOOD_SIZE)%Z
    ∧ (pJ - NEIGHBORHOOD_SIZE ≤ j ≤ pJ + NEIGHBORHOOD_SIZE)%Z.
Proof.
  unfold neighborhood. rewrite elem_of_grid, !elem_of_seqZ.
  unfold NEIGHBORHOOD_SIZE. lia.
Qed.

Lemma NoDup_neighborhood pI pJ : NoDup (neighborhood pI pJ).
Proof. apply NoDup_grid; apply NoDup_seqZ. Qed.

Lemma integerCell_key_inj p q : cellKey (integerCell p) = cellKey (integerCell q) → p = q.
Proof.
  destruct p as [i1 j1], q as [i2 j2]. unfold integerCell. simpl. intros H.
  unfold cellKey in H. simpl in H. rewrite !numberToString_integer in H.
  apply (app_separator_inj ":"%char) in H as [Hi Hj];
    [|apply pretty_Z_lacks; by left..].
  apply (inj pretty) in Hi, Hj. by subst.
Qed.

Section PersistFacts.
Variable luck : string → Q.

Lemma spawnRelativeCache_unfold w lat lng :
  playerPosition w = LatLng lat lng →
  Persist.spawnRelativeCache luck w
  = foldl (λ w p, Persist.visit luck p.1 p.2 w) (setSpawnedCaches ∅ w)
      (neighborhood (playerCell lat lng).1 (playerCell lat lng).2).
Proof.
  intros Hp. unfold Persist.spawnRelativeCache. rewrite Hp.
  by rewrite (foldl_grid (Persist.visit luck)).
Qed.

(** The three ways a visit can go. *)
Lemma visit_cases i j w :
  (∃ m, cacheStateMemento w !! cellKey (integerCell (i, j)) = Some m
        ∧ Persist.visit luck i j w
          = setSpawnedCaches ({[cellKey (integerCell (i, j))]} ∪ spawnedCaches w)
              (setCoins (<[cellKey (integerCell (i, j)) := m.2]> (coins w)) w))
  ∨ (cacheStateMemento w !! cellKey (integerCell (i, j)) = None
     ∧ lucky luck i j
     ∧ Persist.visit luck i j w
       = setMemento (<[cellKey (integerCell (i, j))
                        := (cellKey (integerCell (i, j)), length (arrays w))]>
                       (cacheStateMemento w))
           (setArrays (arrays w ++ [getCoins (integerCell (i, j)) w])
              (setRects (rects w ++ [integerCell (i, j)]) w)))
  ∨ (cacheStateMemento w !! cellKey (integerCell (i, j)) = None
     ∧ ¬ lucky luck i j ∧ Persist.visit luck i j w = w).
Proof.
  unfold Persist.visit, Persist.restoreCacheState, Persist.saveCacheState,
    spawnCache, lucky, integerCell. simpl.
  destruct (cacheStateMemento w !! _) as [m|] eqn:E.
  - left. by exists m.
  - right. destruct (Qlt_le_dec _ _) as [Hl|Hl].
    + left. repeat split; done.
    + right. repeat split; try done. by apply Qle_not_lt.
Qed.

Lemma visit_frame i j w :
  tokens (Persist.visit luck i j w) = tokens w
  ∧ playerCoins (Persist.visit luck i j w) = playerCoins w
  ∧ playerPoints (Persist.visit luck i j w) = playerPoints w
  ∧ playerPosition (Persist.visit luck i j w) = playerPosition w
  ∧ playerMovementHistory (Persist.visit luck i j w) = playerMovementHistory w
  ∧ log (Persist.visit luck i j w) = log w.
Proof.
  destruct (visit_cases i j w) as [(m & _ & ->)|[(_ & _ & ->)|(_ & _ & ->)]];
    simpl; by repeat split.
Qed.

Lemma spawnRelativeCache_frame w :
  tokens (Persist.spawnRelativeCache luck w) = tokens w
  ∧ playerCoins (Persist.spawnRelativeCache luck w) = playerCoins w
  ∧ playerPoints (Persist.spawnRelativeCache luck w) = playerPoints w
  ∧ playerPosition (Persist.spawnRelativeCache luck w) = playerPosition w
  ∧ playerMovementHistory (Persist.spawnRelativeCache luck w) = playerMovementHistory w
  ∧ log (Persist.spawnRelativeCache luck w) = log w.
Proof.
  destruct (playerPosition w) as [lat lng|name] eqn:Hp.
  - rewrite (spawnRelativeCache_unfold w lat lng Hp).
    generalize (neighborhood (playerCell lat lng).1 (playerCell lat lng).2). intros cells.
    refine (foldl_keeps (λ w', tokens w' = tokens w ∧ playerCoins w' = playerCoins w
      ∧ playerPoints w' = playerPoints w ∧ playerPosition w' = LatLng lat lng
      ∧ playerMovementHistory w' = playerMovementHistory w ∧ log w' = log w)
      (λ w p, Persist.visit luck p.1 p.2 w) cells (setSpawnedCaches ∅ w) _ _).
    + simpl. by rewrite Hp.
    + intros w' [i j] _ H. pose proof (visit_frame i j w') as H'. simpl.
      intuition congruence.
  - unfold Persist.spawnRelativeCache. rewrite Hp. simpl. by rewrite ?Hp.
Qed.

Lemma visit_memento_keep i j w K m :
  cacheStateMemento w !! K = Some m →
  cacheStateMemento (Persist.visit luck i j w) !! K = Some m.
Proof.
  intros HK.
  destruct (visit_cases i j w) as [(m' & _ & ->)|[(Hn & _ & ->)|(_ & _ & ->)]];
    simpl; [done| |done].
  rewrite lookup_insert_ne; [done|]. congruence.
Qed.

Lemma visit_arrays_keep i j w a l :
  arrays w !! a = Some l → arrays (Persist.visit luck i j w) !! a = Some l.
Proof.
  intros Ha.
  destruct (visit_cases i j w) as [(m' & _ & ->)|[(Hn & _ & ->)|(_ & _ & ->)]];
    simpl; [done| |done].
  by apply lookup_app_l_Some.
Qed.

Lemma visit_restored_keep i j w K m :
  cacheStateMemento w !! K = Some m →
  coins w !! K = Some m.2 ∧ K ∈ spawnedCaches w →
  coins (Persist.visit luck i j w) !! K = Some m.2
  ∧ K ∈ spawnedCaches (Persist.visit luck i j w).
Proof.
  intros HK [Hc Hs].
  destruct (visit_cases i j w) as [(m' & Hm' & ->)|[(Hn & _ & ->)|(_ & _ & ->)]];
    simpl; [|done..].
  split; [|set_solver].
  destruct (decide (cellKey (integerCell (i, j)) = K)) as [E|E].
  - rewrite E in *. rewrite lookup_insert_eq. congruence.
  - by rewrite lookup_insert_ne.
Qed.

Lemma visit_restores i j w m :
  cacheStateMemento w !! cellKey (integerCell (i, j)) = Some m →
  coins (Persist.visit luck i j w) !! cellKey (integerCell (i, j)) = Some m.2
  ∧ cellKey (integerCell (i, j)) ∈ spawnedCaches (Persist.visit luck i j w).
Proof.
  intros HK.
  destruct (visit_cases i j w) as [(m' & Hm' & ->)|[(Hn & _ & _)|(Hn & _ & _)]];
    [|congruence..].
  simpl. rewrite lookup_insert_eq. split; [congruence|set_solver].
Qed.
End PersistFacts.

(** X7.  [spawnRelativeCache()] makes the array saved in a memento the
    array of its cell: for a cell of the 17 by 17 neighbourhood of the
    player that has a memento, afterwards the cell's list is the saved
    array itself (so the coins of the array it replaces are no longer in
    the cache), the cell is marked spawned and the memento is kept. *)
Theorem spawnRelativeCache_installs_mementos
    (luck : string → Q) (w : World) (lat lng : Q) (i j : Z) (m : string * nat) (l : list nat) :
  playerPosition w = LatLng lat lng →
  (i, j) ∈ neighborhood (playerCell lat lng).1 (playerCell lat lng).2 →
  cacheStateMemento w !! cellKey (integerCell (i, j)) = Some m →
  arrays w !! m.2 = Some l →
  coins (Persist.spawnRelativeCache luck w) !! cellKey (integerCell (i, j)) = Some m.2
  ∧ getCoins (integerCell (i, j)) (Persist.spawnRelativeCache luck w) = l
  ∧ cellKey (integerCell (i, j)) ∈ spawnedCaches (Persist.spawnRelativeCache luck w)
  ∧ cacheStateMemento (Persist.spawnRelativeCache luck w) !! cellKey (integerCell (i, j))
    = Some m.
Proof.
  intros Hp Hin Hm Ha. rewrite (spawnRelativeCache_unfold luck w lat lng Hp).
  set (K := cellKey (integerCell (i, j))) in *.
  revert Hin. generalize (neighborhood (playerCell lat lng).1 (playerCell lat lng).2).
  intros cells Hin.
  set (f := λ (w : World) (p : Z * Z), Persist.visit luck p.1 p.2 w).
  assert (HP : cacheStateMemento (foldl f (setSpawnedCaches ∅ w) cells) !! K = Some m
               ∧ arrays (foldl f (setSpawnedCaches ∅ w) cells) !! m.2 = Some l).
  { refine (foldl_keeps
      (λ w', cacheStateMemento w' !! K = Some m ∧ arrays w' !! m.2 = Some l)
      f cells (setSpawnedCaches ∅ w) _ _).
    - done.
    - intros w' [i' j'] _ [H1 H2]. split;
        [by apply visit_memento_keep|by apply visit_arrays_keep]. }
  assert (HR : coins (foldl f (setSpawnedCaches ∅ w) cells) !! K = Some m.2
               ∧ K ∈ spawnedCaches (foldl f (setSpawnedCaches ∅ w) cells)).
  { refine (foldl_reaches (λ w', cacheStateMemento w' !! K = Some m)
             (λ w', coins w' !! K = Some m.2 ∧ K ∈ spawnedCaches w') f cells (i, j)
             (setSpawnedCaches ∅ w) Hin Hm _ _ _).
    - intros w' [i' j'] H. by apply visit_memento_keep.
    - intros w' H. by apply visit_restores.
    - intros w' [i' j'] H HR. by apply visit_restored_keep. }
  destruct HP as [HP1 HP2], HR as [HR1 HR2].
  repeat split; try done.
  unfold getCoins, arrayOf. fold K. by rewrite HR1, HP2.
Qed.

Lemma spawnRelativeCache_witness :
  playerPosition persistAfterPopup = LatLng OAKES_CLASSROOM_lat OAKES_CLASSROOM_lng
  ∧ (0, 0)%Z ∈ neighborhood (playerCell OAKES_CLASSROOM_lat OAKES_CLASSROOM_lng).1
                 (playerCell OAKES_CLASSROOM_lat OAKES_CLASSROOM_lng).2
  ∧ cacheStateMemento persistAfterPopup !! cellKey (integerCell (0, 0)%Z) = Some ("0:0", 0)
  ∧ arrays persistAfterPopup !! 0 = Some []
  ∧ getCoins (integerCell (0, 0)%Z) persistAfterPopup = [0; 1; 2; 3]
  ∧ getCoins (integerCell (0, 0)%Z) (Persist.spawnRelativeCache scenarioLuck persistAfterPopup)
    = [].
Proof.
  assert (H1 : playerPosition persistAfterPopup
               = LatLng OAKES_CLASSROOM_lat OAKES_CLASSROOM_lng) by (vm_compute; reflexivity).
  assert (H2 : (0, 0)%Z ∈ neighborhood (playerCell OAKES_CLASSROOM_lat OAKES_CLASSROOM_lng).1
                 (playerCell OAKES_CLASSROOM_lat OAKES_CLASSROOM_lng).2) by by_evaluation.
  assert (H3 : cacheStateMemento persistAfterPopup !! cellKey (integerCell (0, 0)%Z)
               = Some ("0:0", 0)) by (vm_compute; reflexivity).
  assert (H4 : arrays persistAfterPopup !! ("0:0", 0).2 = Some []) by (vm_compute; reflexivity).
  assert (H5 : getCoins (integerCell (0, 0)%Z) persistAfterPopup = [0; 1; 2; 3])
    by (vm_compute; reflexivity).
  do 5 (split; [assumption|]).
  exact (proj1 (proj2 (spawnRelativeCache_installs_mementos scenarioLuck persistAfterPopup
                         _ _ 0 0 ("0:0", 0) [] H1 H2 H3 H4))).
Defined.

(** ** The inventory, operation by operation *)

Lemma HeldRight_ext w w' :
  tokens w' = tokens w → playerCoins w' = playerCoins w →
  playerPoints w' = playerPoints w → HeldRight w → HeldRight w'.
Proof.
  intros Ht Hp Hs [H1 H2 H3 H4].
  split; rewrite ?Ht, ?Hp, ?Hs; done.
Qed.

Lemma create_tokens c w :
  tokens (create c w).2 = tokens w ++
    [mkGeocoin (toLatLng c).1 (toLatLng c).2 (length (getCoins c w)) false].
Proof.
  unfold create, getCoins, ensureArray. destruct (toLatLng c) as [la lo]. simpl.
  by destruct (coins w !! cellKey c).
Qed.

Lemma create_held c w : HeldRight w → HeldRight (create c w).2.
Proof.
  intros [H1 H2 H3 H4].
  pose proof (create_fields c w) as (Hpc & Hpp & _). simpl in *.
  pose proof (create_tokens c w) as Htok.
  split.
  - intros t. rewrite Hpc, Htok, length_app. intros H%H1. lia.
  - by rewrite Hpc.
  - intros t g. rewrite Hpc, Htok. intros Hl.
    apply lookup_app_Some in Hl as [Hl|[Hge Hl]]; [by apply H3|].
    destruct (t - length (tokens w)) as [|n] eqn:E; simpl in Hl; [|by destruct n].
    injection Hl as <-. simpl. split; [done|]. intros H%H1. lia.
  - by rewrite Hpp, Hpc.
Qed.

Lemma generatePopupContent_held luck c w :
  HeldRight w → HeldRight (generatePopupContent luck c w).
Proof.
  intros Hs. unfold generatePopupContent.
  destruct (decide (cellKey c ∈ spawnedCaches w)) as [|_]; [done|].
  assert (H : HeldRight (createMany (Z.to_nat (coinCount luck c)) c w)).
  { revert w Hs. induction (Z.to_nat (coinCount luck c)) as [|n IH]; intros w Hs; simpl;
      [done|]. by apply IH, create_held. }
  by eapply HeldRight_ext; [..|exact H].
Qed.

Lemma flag_set_held w t g :
  HeldRight w → tokens w !! t = Some g → collected g = false →
  HeldRight (setPlayerPoints (playerPoints w + 1)
               (setPlayerCoins (playerCoins w ++ [t])
                  (setTokens (<[t := setCollected true g]> (tokens w)) w))).
Proof.
  intros [H1 H2 H3 H4] Et Eg.
  assert (Hnotin : t ∉ playerCoins w).
  { intros Hin. apply (H3 _ _ Et) in Hin. congruence. }
  split; simpl.
  - intros x. rewrite length_insert.
    intros [Hx| ->%list_elem_of_singleton]%elem_of_app; [by apply H1|].
    by eapply lookup_lt_Some.
  - apply NoDup_app. repeat split; [done| |apply NoDup_singleton].
    intros x Hx ->%list_elem_of_singleton. done.
  - intros x g'. destruct (decide (x = t)) as [->|Hne].
    + rewrite list_lookup_insert_eq by (by eapply lookup_lt_Some).
      intros [= <-]. simpl. split; [|done].
      intros _. apply elem_of_app. right. by apply list_elem_of_singleton.
    + rewrite list_lookup_insert_ne by done. intros Hx.
      rewrite (H3 _ _ Hx), elem_of_app, list_elem_of_singleton.
      split; [by left|by intros [?|?]].
  - rewrite length_app. simpl. lia.
Qed.

Lemma collect_held t w : HeldRight w → HeldRight (collect t w).
Proof.
  intros Hs. unfold collect.
  destruct (tokens w !! t) as [g|] eqn:Et; [|done].
  destruct (collected g) eqn:Eg; [done|].
  eapply HeldRight_ext; [..|exact (flag_set_held w t g Hs Et Eg)]; done.
Qed.

Lemma manager_collect_held t w : HeldRight w → HeldRight (Manager.collect t w).
Proof.
  intros Hs. unfold Manager.collect, Manager.onCoinCollected.
  destruct (tokens w !! t) as [g|] eqn:Et; [|done].
  destruct (collected g) eqn:Eg; [done|].
  eapply HeldRight_ext; [..|exact (flag_set_held w t g Hs Et Eg)]; done.
Qed.

Lemma flag_cleared_held w inv t :
  HeldRight w → playerCoins w = inv ++ [t] →
  HeldRight (setPlayerPoints (playerPoints w - 1)
               (setTokens (alter (setCollected false) t (tokens w))
                  (setPlayerCoins inv w))).
Proof.
  intros [H1 H2 H3 H4] Hpc.
  rewrite Hpc in *. apply NoDup_app in H2 as (Hnd & Hnotin & _).
  split; simpl.
  - intros x Hx. rewrite length_alter. apply H1, elem_of_app. by left.
  - exact Hnd.
  - intros x g'. destruct (decide (x = t)) as [->|Hne].
    + rewrite list_lookup_alter_eq.
      destruct (tokens w !! t) as [g|]; simpl; [|done].
      intros [= <-]. simpl. split; [done|].
      intros Hin. exfalso. eapply Hnotin; [exact Hin|]. by apply list_elem_of_singleton.
    + rewrite list_lookup_alter_ne by done. intros Hx.
      rewrite (H3 _ _ Hx), elem_of_app, list_elem_of_singleton.
      split; [by intros [?|?]|by left].
  - rewrite length_app in H4. simpl in H4. lia.
Qed.

(** What a deposit leaves of the player, whichever way it ends. *)
Lemma deposit_player c w inv t :
  playerCoins w = inv ++ [t] →
  tokens (worldOf (handleCoinDeposit c w)) = alter (setCollected false) t (tokens w)
  ∧ playerCoins (worldOf (handleCoinDeposit c w)) = inv
  ∧ playerPoints (worldOf (handleCoinDeposit c w)) = (playerPoints w - 1)%Z
  ∧ playerPosition (worldOf (handleCoinDeposit c w)) = playerPosition w
  ∧ playerMovementHistory (worldOf (handleCoinDeposit c w)) = playerMovementHistory w.
Proof.
  intros Hpc. unfold handleCoinDeposit. rewrite Hpc, last_snoc, removelast_last.
  match goal with |- context [removeCoin c t ?v] =>
    pose proof (removeCoin_fields c t v) as Hr;
    destruct (removeCoin c t v) as [w1|w1]
  end; simpl in Hr.
  - pose proof (addCoinToCache_fields c t w1) as Hadd. simpl in *.
    intuition congruence.
  - simpl in *. intuition congruence.
Qed.

Lemma deposit_held c w : HeldRight w → HeldRight (worldOf (handleCoinDeposit c w)).
Proof.
  intros Hs. destruct (snoc_cases (playerCoins w)) as [Hpc|(inv & t & Hpc)].
  - rewrite deposit_empty by done. simpl. by eapply HeldRight_ext; [..|exact Hs].
  - destruct (deposit_player c w inv t Hpc) as (H1 & H2 & H3 & _).
    eapply HeldRight_ext; [..|exact (flag_cleared_held w inv t Hs Hpc)]; done.
Qed.

Lemma indexOf_snoc t inv : t ∉ inv → indexOf t (inv ++ [t]) = Some (length inv).
Proof.
  induction inv as [|x inv IH]; simpl; intros Hn.
  - by rewrite decide_True.
  - apply not_elem_of_cons in Hn as [Hne Hn].
    rewrite decide_False by done. by rewrite IH.
Qed.

Lemma manager_deposit_player c w inv t :
  playerCoins w = inv ++ [t] → t ∉ inv →
  tokens (worldOf (Manager.handleCoinDeposit c w)) = alter (setCollected false) t (tokens w)
  ∧ playerCoins (worldOf (Manager.handleCoinDeposit c w)) = inv
  ∧ playerPoints (worldOf (Manager.handleCoinDeposit c w)) = (playerPoints w - 1)%Z
  ∧ playerPosition (worldOf (Manager.handleCoinDeposit c w)) = playerPosition w
  ∧ playerMovementHistory (worldOf (Manager.handleCoinDeposit c w))
    = playerMovementHistory w.
Proof.
  intros Hpc Hn. unfold Manager.handleCoinDeposit, Manager.onCoinDeposited.
  rewrite Hpc, last_snoc. simpl. rewrite Hpc, indexOf_snoc by done. unfold splice1.
  assert (Hdel : delete (length inv) (inv ++ [t]) = inv).
  { clear. induction inv as [|x inv IH]; simpl; [done|]. by rewrite IH. }
  rewrite Hdel.
  match goal with |- context [removeCoin c t ?v] =>
    pose proof (removeCoin_fields c t v) as Hr;
    destruct (removeCoin c t v) as [w1|w1]
  end; simpl in Hr.
  - pose proof (addCoinToCache_fields c t w1) as Hadd. simpl in *.
    intuition congruence.
  - simpl in *. intuition congruence.
Qed.

Lemma manager_deposit_held c w :
  HeldRight w → HeldRight (worldOf (Manager.handleCoinDeposit c w)).
Proof.
  intros Hs. destruct (snoc_cases (playerCoins w)) as [Hpc|(inv & t & Hpc)].
  - unfold Manager.handleCoinDeposit. rewrite Hpc. simpl.
    by eapply HeldRight_ext; [..|exact Hs].
  - assert (Hn : t ∉ inv).
    { pose proof (held_nodup _ Hs) as Hnd. rewrite Hpc in Hnd.
      apply NoDup_app in Hnd as (_ & Hnotin & _).
      intros Hin. eapply Hnotin; [exact Hin|]. by apply list_elem_of_singleton. }
    destruct (manager_deposit_player c w inv t Hpc Hn) as (H1 & H2 & H3 & _).
    eapply HeldRight_ext; [..|exact (flag_cleared_held w inv t Hs Hpc)]; done.
Qed.

(** ** [movePlayer] in the later versions *)

Lemma ownMovement_direction lat lng direction :
  direction ∈ directions →
  ∃ lat' lng', ownMovement (LatLng lat lng) direction = Some (LatLng lat' lng').
Proof.
  unfold directions. rewrite !elem_of_cons, elem_of_nil.
  intros [->|[->|[->|[->|[]]]]]; simpl; eauto.
Qed.

Lemma movementLookup_direction lat lng direction :
  direction ∈ directions →
  movementLookup (LatLng lat lng) direction = ownMovement (LatLng lat lng) direction.
Proof.
  intros Hd. destruct (ownMovement_direction lat lng direction Hd) as (la & lo & H).
  unfold movementLookup. by rewrite H.
Qed.

Lemma persist_move_fields (luck : string → Q) w lat lng direction :
  playerPosition w = LatLng lat lng → direction ∈ directions →
  ∃ w' la lo, Persist.movePlayer luck direction w = Normal w'
    ∧ ownMovement (LatLng lat lng) direction = Some (LatLng la lo)
    ∧ playerPosition w' = LatLng la lo
    ∧ playerMovementHistory w' = playerMovementHistory w ++ [LatLng la lo]
    ∧ tokens w' = tokens w ∧ playerCoins w' = playerCoins w
    ∧ playerPoints w' = playerPoints w.
Proof.
  intros Hp Hd. unfold Persist.movePlayer.
  rewrite Hp, movementLookup_direction by done.
  destruct (ownMovement_direction lat lng direction Hd) as (la & lo & H). rewrite H.
  eexists _, la, lo. split; [reflexivity|]. split; [reflexivity|].
  unfold Persist.updatePlayerMovementHistory.
  match goal with |- context [Persist.spawnRelativeCache luck ?v] =>
    pose proof (spawnRelativeCache_frame luck v) as (H1 & H2 & H3 & H4 & H5 & _);
    set (X := Persist.spawnRelativeCache luck v) in *; clearbody X
  end.
  simpl in *. rewrite H1, H2, H3, H4, H5. done.
Qed.

Lemma manager_move_fields (luck : string → Q) w lat lng direction :
  playerPosition w = LatLng lat lng → direction ∈ directions →
  ∃ w' la lo, Manager.movePlayer luck direction w = Normal w'
    ∧ ownMovement (LatLng lat lng) direction = Some (LatLng la lo)
    ∧ playerPosition w' = LatLng la lo
    ∧ playerMovementHistory w' = playerMovementHistory w ++ [LatLng la lo]
    ∧ tokens w' = tokens w ∧ playerCoins w' = playerCoins w
    ∧ playerPoints w' = playerPoints w.
Proof.
  intros Hp Hd. unfold Manager.movePlayer.
  rewrite Hp, movementLookup_direction by done.
  destruct (ownMovement_direction lat lng direction Hd) as (la & lo & H). rewrite H.
  eexists _, la, lo. split; [reflexivity|]. split; [reflexivity|].
  unfold Manager.updatePlayerPosition.
  match goal with |- context [Persist.spawnRelativeCache luck ?v] =>
    pose proof (spawnRelativeCache_frame luck v) as (H1 & H2 & H3 & H4 & H5 & _);
    set (X := Persist.spawnRelativeCache luck v) in *; clearbody X
  end.
  simpl in *. rewrite H1, H2, H3, H4, H5. done.
Qed.

(** X8.  In the version with mementos [movePlayer] with one of the four
    directions, from a position that is a [LatLng], completes normally,
    moves the player by [TILE_DEGREES] along that direction, appends the
    new position to the movement history and leaves the coins, the
    inventory and the score alone. *)
Theorem movePlayer_steps_one_tile
    (luck : string → Q) (w : World) (lat lng : Q) (direction : string) :
  playerPosition w = LatLng lat lng → direction ∈ directions →
  ∃ w' p, Persist.movePlayer luck direction w = Normal w'
    ∧ ownMovement (LatLng lat lng) direction = Some p
    ∧ p = (if decide (direction = "north") then LatLng (lat + TILE_DEGREES)%Q lng
           else if decide (direction = "south") then LatLng (lat - TILE_DEGREES)%Q lng
           else if decide (direction = "east") then LatLng lat (lng + TILE_DEGREES)%Q
           else LatLng lat (lng - TILE_DEGREES)%Q)
    ∧ playerPosition w' = p
    ∧ playerMovementHistory w' = playerMovementHistory w ++ [p]
    ∧ tokens w' = tokens w ∧ playerCoins w' = playerCoins w
    ∧ playerPoints w' = playerPoints w.
Proof.
  intros Hp Hd.
  destruct (persist_move_fields luck w lat lng direction Hp Hd)
    as (w' & la & lo & Hw & Hown & Hpos & Hh & Ht & Hc & Hs).
  exists w', (LatLng la lo). repeat split; try done.
  revert Hown. unfold directions in Hd. rewrite !elem_of_cons, elem_of_nil in Hd.
  destruct Hd as [->|[->|[->|[->|[]]]]]; simpl; congruence.
Qed.

Lemma movePlayer_steps_witness :
  playerPosition (Persist.startup scenarioLuck)
  = LatLng OAKES_CLASSROOM_lat OAKES_CLASSROOM_lng
  ∧ "north" ∈ directions
  ∧ ∃ w', Persist.movePlayer scenarioLuck "north" (Persist.startup scenarioLuck) = Normal w'
      ∧ playerPosition w'
        = LatLng (OAKES_CLASSROOM_lat + TILE_DEGREES)%Q OAKES_CLASSROOM_lng
      ∧ length (playerMovementHistory w') = 1.
Proof.
  assert (H1 : playerPosition (Persist.startup scenarioLuck)
               = LatLng OAKES_CLASSROOM_lat OAKES_CLASSROOM_lng)
    by (vm_compute; reflexivity).
  assert (H2 : "north" ∈ directions) by by_evaluation.
  split; [exact H1|]. split; [exact H2|].
  destruct (movePlayer_steps_one_tile scenarioLuck _ _ _ "north" H1 H2)
    as (w' & p & Hw & _ & Hp & Hpos & Hh & _).
  exists w'. split; [exact Hw|]. split.
  - rewrite Hpos, Hp. reflexivity.
  - rewrite Hh, length_app. vm_compute. reflexivity.
Defined.

(** ** The pages keep the inventory right *)

Section PageFacts.
Variable luck : string → Q.

Lemma spawnRelativeCache_held w :
  HeldRight w → HeldRight (Persist.spawnRelativeCache luck w).
Proof.
  intros Hs. destruct (spawnRelativeCache_frame luck w) as (H1 & H2 & H3 & _).
  by eapply HeldRight_ext; [..|exact Hs].
Qed.

Lemma spawnRelativeCache_positioned w :
  positioned w → positioned (Persist.spawnRelativeCache luck w).
Proof.
  intros (lat & lng & Hp). exists lat, lng.
  destruct (spawnRelativeCache_frame luck w) as (_ & _ & _ & H4 & _). congruence.
Qed.

Lemma persist_move_invariant direction w :
  direction ∈ directions → HeldRight w ∧ positioned w →
  HeldRight (worldOf (Persist.movePlayer luck direction w))
  ∧ positioned (worldOf (Persist.movePlayer luck direction w)).
Proof.
  intros Hd [Hs (lat & lng & Hp)].
  destruct (persist_move_fields luck w lat lng direction Hp Hd)
    as (w' & la & lo & -> & _ & Hpos & _ & Ht & Hc & Hpt).
  simpl. split; [by eapply HeldRight_ext; [..|exact Hs]|by exists la, lo].
Qed.

Lemma manager_move_invariant direction w :
  direction ∈ directions → HeldRight w ∧ positioned w →
  HeldRight (worldOf (Manager.movePlayer luck direction w))
  ∧ positioned (worldOf (Manager.movePlayer luck direction w)).
Proof.
  intros Hd [Hs (lat & lng & Hp)].
  destruct (manager_move_fields luck w lat lng direction Hp Hd)
    as (w' & la & lo & -> & _ & Hpos & _ & Ht & Hc & Hpt).
  simpl. split; [by eapply HeldRight_ext; [..|exact Hs]|by exists la, lo].
Qed.

Lemma persist_step_invariant a w :
  HeldRight w ∧ positioned w →
  HeldRight (PersistPage.step luck a w) ∧ positioned (PersistPage.step luck a w).
Proof.
  intros [Hs Hp]. destruct a as [c|coin|c|direction|latitude longitude]; simpl.
  - split; [by apply generatePopupContent_held|].
    destruct Hp as (lat & lng & Hp). exists lat, lng.
    unfold generatePopupContent. destruct (decide _); [done|]. simpl.
    pose proof (createMany_fields (Z.to_nat (coinCount luck c)) c w) as H.
    simpl in H. destruct H as (_ & _ & H & _). congruence.
  - split; [by apply collect_held|].
    destruct Hp as (lat & lng & Hp). exists lat, lng.
    unfold collect. destruct (tokens w !! coin) as [g|]; [|done].
    by destruct (collected g).
  - split; [by apply deposit_held|].
    destruct Hp as (lat & lng & Hp). exists lat, lng.
    destruct (snoc_cases (playerCoins w)) as [Hpc|(inv & t & Hpc)].
    + by rewrite deposit_empty.
    + destruct (deposit_player c w inv t Hpc) as (_ & _ & _ & -> & _). done.
  - case_decide; [by apply persist_move_invariant|done].
  - unfold PersistPage.updatePlayerPositionFromGeolocation. split.
    + apply spawnRelativeCache_held. by eapply HeldRight_ext; [..|exact Hs].
    + apply spawnRelativeCache_positioned. by exists latitude, longitude.
Qed.
End PageFacts.

Lemma initial_held : HeldRight initialWorld ∧ positioned initialWorld.
Proof.
  split; [split; simpl; try done|by eexists _, _].
  - intros t H. by apply elem_of_nil in H.
  - apply NoDup_nil_2.
Qed.

(** X9.  In the version with mementos, started with nothing stored, after
    any sequence of popups, collects, deposits, direction buttons and
    geolocation fixes the score is the size of the inventory, the inventory
    holds no coin twice, a coin is in it exactly when its flag is set, and
    the position is a [LatLng]. *)
Theorem persist_page_keeps_score (luck : string → Q) (acts : list PersistPage.Action) :
  let w := PersistPage.run luck acts (Persist.startup luck) in
  playerPoints w = Z.of_nat (length (playerCoins w))
  ∧ NoDup (playerCoins w)
  ∧ (∀ t g, tokens w !! t = Some g → (t ∈ playerCoins w ↔ collected g = true))
  ∧ ∃ lat lng, playerPosition w = LatLng lat lng.
Proof.
  assert (H0 : HeldRight (Persist.startup luck) ∧ positioned (Persist.startup luck)).
  { destruct initial_held as [H1 H2]. split;
      [by apply spawnRelativeCache_held|by apply spawnRelativeCache_positioned]. }
  assert (H : HeldRight (PersistPage.run luck acts (Persist.startup luck))
              ∧ positioned (PersistPage.run luck acts (Persist.startup luck))).
  { unfold PersistPage.run. revert H0. generalize (Persist.startup luck).
    induction acts as [|a acts IH]; intros w Hw; simpl; [exact Hw|].
    apply IH, persist_step_invariant, Hw. }
  destruct H as [[H1 H2 H3 H4] H5]. simpl. repeat split; try done.
  - by apply H3.
  - by apply H3.
Qed.

(** ** [resetGameState] on any state *)

Lemma returnCoin_fields w t :
  tokens (Manager.returnCoin w t) = alter (setCollected false) t (tokens w)
  ∧ playerCoins (Manager.returnCoin w t) = playerCoins w
  ∧ playerPoints (Manager.returnCoin w t) = playerPoints w.
Proof.
  unfold Manager.returnCoin. simpl.
  destruct (alter (setCollected false) t (tokens w) !! t) as [g|]; [|done].
  match goal with |- context [addCoinToCache ?c t ?v] =>
    pose proof (addCoinToCache_fields c t v) as H
  end.
  simpl in H. intuition congruence.
Qed.

Lemma returnCoins_tokens l w x :
  tokens (foldl Manager.returnCoin w l) !! x
  = if decide (x ∈ l) then setCollected false <$> tokens w !! x else tokens w !! x.
Proof.
  revert w. induction l as [|t l IH]; intros w; cbn [foldl].
  - by rewrite decide_False by apply not_elem_of_nil.
  - rewrite IH. destruct (returnCoin_fields w t) as (-> & _).
    destruct (decide (x = t)) as [->|Hne].
    + rewrite list_lookup_alter_eq. rewrite (decide_True (P := _ ∈ _ :: l)) by by left.
      case_decide; destruct (tokens w !! _) as [g|]; simpl; try done.
    + rewrite list_lookup_alter_ne by done.
      destruct (decide (x ∈ l)).
      * rewrite decide_True by by right. done.
      * rewrite decide_False; [done|]. by intros [?|?]%elem_of_cons.
Qed.

Lemma reset_confirmed w :
  Manager.resetGameState (Some "yes") w
  = emit (Alert "Game state has been reset!")
      (emit (RemoveItem "cacheState")
         (emit (RemoveItem "playerState")
            (setMemento ∅
               (setSpawnedCaches ∅
                  (Manager.resetPlayer (foldl Manager.returnCoin w (playerCoins w))))))).
Proof. done. Qed.

Lemma reset_held a w : HeldRight w → HeldRight (Manager.resetGameState a w).
Proof.
  intros Hs. unfold Manager.resetGameState. case_decide as Ha.
  - destruct Hs as [H1 H2 H3 H4]. split; simpl.
    + intros t H. by apply elem_of_nil in H.
    + apply NoDup_nil_2.
    + intros t g. rewrite returnCoins_tokens. case_decide as Hin.
      * destruct (tokens w !! t) as [g0|]; simpl; [|done].
        intros [= <-]. simpl. split; [done|]. intros H. by apply elem_of_nil in H.
      * intros Hg. rewrite (H3 _ _ Hg). split; [done|].
        intros H. by apply elem_of_nil in H.
    + done.
  - by eapply HeldRight_ext; [..|exact Hs].
Qed.

Section ManagerPageFacts.
Variable luck : string → Q.

Lemma manager_step_invariant a w :
  HeldRight w ∧ positioned w →
  HeldRight (ManagerPage.step luck a w) ∧ positioned (ManagerPage.step luck a w).
Proof.
  intros [Hs Hp]. destruct a as [c|coin|c|direction|latitude longitude|answer]; simpl.
  - split; [by apply generatePopupContent_held|].
    destruct Hp as (lat & lng & Hp). exists lat, lng.
    unfold generatePopupContent. destruct (decide _); [done|]. simpl.
    pose proof (createMany_fields (Z.to_nat (coinCount luck c)) c w) as H.
    simpl in H. destruct H as (_ & _ & H & _). congruence.
  - split; [by apply manager_collect_held|].
    destruct Hp as (lat & lng & Hp). exists lat, lng.
    unfold Manager.collect. destruct (tokens w !! coin) as [g|]; [|done].
    by destruct (collected g).
  - split; [by apply manager_deposit_held|].
    destruct Hp as (lat & lng & Hp). exists lat, lng.
    destruct (snoc_cases (playerCoins w)) as [Hpc|(inv & t & Hpc)].
    + unfold Manager.handleCoinDeposit. by rewrite Hpc.
    + assert (Hn : t ∉ inv).
      { pose proof (held_nodup _ Hs) as Hnd. rewrite Hpc in Hnd.
        apply NoDup_app in Hnd as (_ & Hnotin & _).
        intros Hin. eapply Hnotin; [exact Hin|]. by apply list_elem_of_singleton. }
      destruct (manager_deposit_player c w inv t Hpc Hn) as (_ & _ & _ & -> & _). done.
  - case_decide; [by apply manager_move_invariant|done].
  - unfold ManagerPage.updatePlayerPositionFromGeolocation. split.
    + apply spawnRelativeCache_held. by eapply HeldRight_ext; [..|exact Hs].
    + apply spawnRelativeCache_positioned. by exists latitude, longitude.
  - split; [by apply reset_held|].
    unfold Manager.resetGameState. case_decide; [by eexists _, _|].
    destruct Hp as (lat & lng & Hp). by exists lat, lng.
Qed.
End ManagerPageFacts.

(** X10.  In the last version, started with nothing stored, after any
    sequence of popups, collects, deposits, direction buttons, geolocation
    fixes and resets (confirmed or not) the score is the size of the
    inventory, the inventory holds no coin twice, a coin is in it exactly
    when its flag is set, and the position is a [LatLng]. *)
Theorem manager_page_keeps_score (luck : string → Q) (acts : list ManagerPage.Action) :
  let w := ManagerPage.run luck acts (Manager.startup luck) in
  playerPoints w = Z.of_nat (length (playerCoins w))
  ∧ NoDup (playerCoins w)
  ∧ (∀ t g, tokens w !! t = Some g → (t ∈ playerCoins w ↔ collected g = true))
  ∧ ∃ lat lng, playerPosition w = LatLng lat lng.
Proof.
  assert (H0 : HeldRight (Manager.startup luck) ∧ positioned (Manager.startup luck)).
  { destruct initial_held as [H1 H2]. split;
      [by apply spawnRelativeCache_held|by apply spawnRelativeCache_positioned]. }
  assert (H : HeldRight (ManagerPage.run luck acts (Manager.startup luck))
              ∧ positioned (ManagerPage.run luck acts (Manager.startup luck))).
  { unfold ManagerPage.run. revert H0. generalize (Manager.startup luck).
    induction acts as [|a acts IH]; intros w Hw; simpl; [exact Hw|].
    apply IH, manager_step_invariant, Hw. }
  destruct H as [[H1 H2 H3 H4] H5]. simpl. repeat split; try done.
  - by apply H3.
  - by apply H3.
Qed.

(** ** Where a reset puts the coins *)

Lemma ensureArray_allocated key w :
  arraysAllocated w →
  arraysAllocated (ensureArray key w).2
  ∧ coins (ensureArray key w).2 !! key = Some (ensureArray key w).1
  ∧ (ensureArray key w).1 < length (arrays (ensureArray key w).2)
  ∧ (∀ K a, coins w !! K = Some a → coins (ensureArray key w).2 !! K = Some a)
  ∧ (∀ a l, arrays w !! a = Some l → arrays (ensureArray key w).2 !! a = Some l).
Proof.
  intros Hal. unfold ensureArray. destruct (coins w !! key) as [a|] eqn:E; simpl.
  - repeat split; try done. by eapply Hal.
  - repeat split.
    + intros K a. simpl. rewrite length_app. simpl.
      destruct (decide (K = key)) as [->|Hne].
      * rewrite lookup_insert_eq. intros [= <-]. lia.
      * rewrite lookup_insert_ne by done. intros H%Hal. lia.
    + by rewrite lookup_insert_eq.
    + rewrite length_app. simpl. lia.
    + intros K a HK. rewrite lookup_insert_ne; [done|]. congruence.
    + intros a l Ha. by apply lookup_app_l_Some.
Qed.

Lemma addCoinToCache_adds c t w :
  arraysAllocated w →
  arraysAllocated (addCoinToCache c t w)
  ∧ t ∈ getCoins c (addCoinToCache c t w)
  ∧ (∀ c' x, x ∈ getCoins c' w → x ∈ getCoins c' (addCoinToCache c t w)).
Proof.
  intros Hal. unfold addCoinToCache.
  destruct (ensureArray_allocated (cellKey c) w Hal) as (Hal1 & Hk & Hlt & Hck & Hak).
  destruct (ensureArray (cellKey c) w) as [a w1]. simpl in *.
  unfold push. split; [|split].
  - intros K a'. simpl. rewrite length_alter. apply Hal1.
  - unfold getCoins, arrayOf. simpl. rewrite Hk, list_lookup_alter_eq.
    destruct (lookup_lt_is_Some_2 _ _ Hlt) as [l ->]. simpl.
    apply elem_of_app. right. by apply list_elem_of_singleton.
  - intros c' x. unfold getCoins, arrayOf. simpl.
    destruct (coins w !! cellKey c') as [a'|] eqn:E; [|by intros ?%elem_of_nil].
    rewrite (Hck _ _ E).
    destruct (arrays w !! a') as [l|] eqn:El; simpl; [|by intros ?%elem_of_nil].
    apply Hak in El. intros Hx.
    destruct (decide (a = a')) as [<-|Hne].
    + rewrite list_lookup_alter_eq, El. simpl. apply elem_of_app. by left.
    + by rewrite list_lookup_alter_ne, El.
Qed.

Lemma returnCoin_adds w t g :
  arraysAllocated w → tokens w !! t = Some g →
  arraysAllocated (Manager.returnCoin w t)
  ∧ t ∈ getCoins (createCell (latitude g) (longitude g)) (Manager.returnCoin w t)
  ∧ (∀ c' x, x ∈ getCoins c' w → x ∈ getCoins c' (Manager.returnCoin w t)).
Proof.
  intros Hal Ht. unfold Manager.returnCoin. simpl.
  rewrite list_lookup_alter_eq, Ht. simpl.
  match goal with |- context [addCoinToCache ?c t ?v] =>
    destruct (addCoinToCache_adds c t v) as (H1 & H2 & H3); [exact Hal|]
  end.
  split; [exact H1|]. split; [exact H2|]. intros c' x Hx. by apply H3.
Qed.

Lemma returnCoin_keeps w t :
  arraysAllocated w →
  arraysAllocated (Manager.returnCoin w t)
  ∧ (∀ c' x, x ∈ getCoins c' w → x ∈ getCoins c' (Manager.returnCoin w t)).
Proof.
  intros Hal. destruct (tokens w !! t) as [g|] eqn:Ht.
  - destruct (returnCoin_adds w t g Hal Ht) as (? & _ & ?). done.
  - unfold Manager.returnCoin. simpl. rewrite list_lookup_alter_eq, Ht. simpl. done.
Qed.

Lemma returnCoin_coordinates w t x :
  latitude <$> tokens (Manager.returnCoin w t) !! x = latitude <$> tokens w !! x
  ∧ longitude <$> tokens (Manager.returnCoin w t) !! x = longitude <$> tokens w !! x.
Proof.
  destruct (returnCoin_fields w t) as (-> & _).
  destruct (decide (x = t)) as [->|Hne].
  - rewrite list_lookup_alter_eq. by destruct (tokens w !! t).
  - by rewrite list_lookup_alter_ne.
Qed.

(** X11.  A confirmed [resetGameState()] leaves every coin that was held
    uncollected and listed in the cache whose key is made of the coin's
    latitude and longitude, and empties the inventory and the score. *)
Theorem reset_files_held_coins_by_coordinates (w : World) (t : nat) (g : Geocoin) :
  arraysAllocated w → t ∈ playerCoins w → tokens w !! t = Some g →
  t ∈ getCoins (createCell (latitude g) (longitude g))
        (Manager.resetGameState (Some "yes") w)
  ∧ tokens (Manager.resetGameState (Some "yes") w) !! t = Some (setCollected false g)
  ∧ playerCoins (Manager.resetGameState (Some "yes") w) = []
  ∧ playerPoints (Manager.resetGameState (Some "yes") w) = 0%Z.
Proof.
  intros Hal Hin Ht. rewrite reset_confirmed. simpl.
  split; [|split; [|done]].
  - assert (H : ∀ l w, arraysAllocated w → t ∈ l →
              latitude <$> tokens w !! t = Some (latitude g) →
              longitude <$> tokens w !! t = Some (longitude g) →
              t ∈ getCoins (createCell (latitude g) (longitude g))
                    (foldl Manager.returnCoin w l)).
    { clear. induction l as [|x l IH]; intros w Hal Hin Hla Hlo;
        [by apply elem_of_nil in Hin|].
      simpl. destruct (decide (x = t)) as [->|Hne].
      - destruct (tokens w !! t) as [g'|] eqn:Ht; [|done]. simpl in Hla, Hlo.
        injection Hla as Hla. injection Hlo as Hlo.
        destruct (returnCoin_adds w t g' Hal Ht) as (Hal' & Hadd & _).
        rewrite Hla, Hlo in Hadd.
        assert (Hkeep : ∀ l w, arraysAllocated w →
                  t ∈ getCoins (createCell (latitude g) (longitude g)) w →
                  t ∈ getCoins (createCell (latitude g) (longitude g))
                        (foldl Manager.returnCoin w l)).
        { clear. induction l as [|y l IH]; intros w Hal H; [done|]. simpl.
          destruct (returnCoin_keeps w y Hal) as [Hal' Hk]. apply IH; [done|].
          by apply Hk. }
        by apply Hkeep.
      - apply elem_of_cons in Hin as [->|Hin]; [done|].
        destruct (returnCoin_keeps w x Hal) as [Hal' _].
        destruct (returnCoin_coordinates w x t) as [E1 E2].
        apply IH; [done|done|by rewrite E1|by rewrite E2]. }
    pose proof (H (playerCoins w) w Hal Hin) as Hfin.
    rewrite Ht in Hfin. specialize (Hfin eq_refl eq_refl).
    unfold getCoins, arrayOf in *. simpl. exact Hfin.
  - rewrite returnCoins_tokens, decide_True by done. by rewrite Ht.
Qed.

Lemma managerBeforeReset_allocated : arraysAllocated managerBeforeReset.
Proof.
  intros K a H.
  refine (map_Forall_lookup_1 (λ _ a, a < length (arrays managerBeforeReset))
            (coins managerBeforeReset) K a _ H).
  by_evaluation.
Qed.

Lemma reset_files_held_coins_witness :
  arraysAllocated managerBeforeReset
  ∧ 0 ∈ playerCoins managerBeforeReset
  ∧ tokens managerBeforeReset !! 0
    = Some (mkGeocoin (toLatLng originCell).1 (toLatLng originCell).2 0 true)
  ∧ 0 ∈ getCoins (createCell (toLatLng originCell).1 (toLatLng originCell).2)
          (Manager.resetGameState (Some "yes") managerBeforeReset).
Proof.
  assert (H2 : 0 ∈ playerCoins managerBeforeReset) by by_evaluation.
  assert (H3 : tokens managerBeforeReset !! 0
               = Some (mkGeocoin (toLatLng originCell).1 (toLatLng originCell).2 0 true))
    by (vm_compute; reflexivity).
  split; [exact managerBeforeReset_allocated|]. split; [exact H2|]. split; [exact H3|].
  exact (proj1 (reset_files_held_coins_by_coordinates managerBeforeReset 0 _
                  managerBeforeReset_allocated H2 H3)).
Defined.

(** ** Spawned marks and rectangles *)

Section MementoFacts.
Variable luck : string → Q.

Lemma visit_spawned p w K :
  K ∈ spawnedCaches (Persist.visit luck p.1 p.2 w)
  ↔ K ∈ spawnedCaches w
    ∨ (K = cellKey (integerCell p) ∧ is_Some (cacheStateMemento w !! K)).
Proof.
  destruct p as [i j]. cbn [fst snd].
  destruct (visit_cases luck i j w) as [(m & Hm & ->)|[(Hn & _ & ->)|(Hn & _ & ->)]]; simpl.
  - rewrite elem_of_union, elem_of_singleton. split.
    + intros [->|H]; [right|by left]. split; [done|]. by rewrite Hm.
    + intros [H|[-> _]]; [by right|by left].
  - split; [by left|]. intros [H|[-> H]]; [done|].
    rewrite Hn in H. by destruct H.
  - split; [by left|]. intros [H|[-> H]]; [done|].
    rewrite Hn in H. by destruct H.
Qed.

Lemma visit_memento_other p w K :
  K ≠ cellKey (integerCell p) →
  cacheStateMemento (Persist.visit luck p.1 p.2 w) !! K = cacheStateMemento w !! K.
Proof.
  intros Hne. destruct p as [i j]. cbn [fst snd].
  destruct (visit_cases luck i j w) as [(m & Hm & ->)|[(Hn & _ & ->)|(Hn & _ & ->)]];
    simpl; [done| |done].
  by rewrite lookup_insert_ne.
Qed.

Lemma visits_spawned cells w K :
  NoDup cells →
  K ∈ spawnedCaches (foldl (λ w p, Persist.visit luck p.1 p.2 w) w cells)
  ↔ K ∈ spawnedCaches w
    ∨ ∃ p, p ∈ cells ∧ K = cellKey (integerCell p) ∧ is_Some (cacheStateMemento w !! K).
Proof.
  intros Hnd. revert w. induction Hnd as [|p cells Hp Hnd IH]; intros w; cbn [foldl].
  - split; [by left|]. intros [H|(p & Hp & _)]; [done|]. by apply elem_of_nil in Hp.
  - rewrite IH, visit_spawned. split.
    + intros [[H|[-> H]]|(q & Hq & -> & H)].
      * by left.
      * right. exists p. split; [by left|done].
      * right. exists q. split; [by right|]. split; [done|].
        rewrite visit_memento_other in H; [done|].
        intros E%integerCell_key_inj. by subst.
    + intros [H|(q & Hq & -> & H)]; [by left; left|].
      apply elem_of_cons in Hq as [->|Hq].
      * left. right. done.
      * right. exists q. split; [done|]. split; [done|].
        rewrite visit_memento_other; [done|].
        intros E%integerCell_key_inj. by subst.
Qed.

Lemma visit_rectsRecorded p w : rectsRecorded w → rectsRecorded (Persist.visit luck p.1 p.2 w).
Proof.
  intros [Hnd Hrec]. destruct p as [i j]. cbn [fst snd].
  destruct (visit_cases luck i j w) as [(m & Hm & ->)|[(Hn & _ & ->)|(Hn & _ & ->)]];
    [by split| |by split].
  split; simpl.
  - apply NoDup_app. split; [done|]. split; [|apply NoDup_singleton].
    intros c Hc Hc'%list_elem_of_singleton. subst c.
    destruct (Hrec _ Hc) as (_ & _ & H). rewrite Hn in H. by destruct H.
  - intros c [Hc|Hc%list_elem_of_singleton]%elem_of_app; [|subst c].
    + destruct (Hrec _ Hc) as (q & -> & H). exists q. split; [done|].
      destruct (decide (cellKey (integerCell q) = cellKey (integerCell (i, j)))) as [E|E].
      * rewrite E, lookup_insert_eq. by eexists.
      * by rewrite lookup_insert_ne.
    + exists (i, j). split; [done|]. rewrite lookup_insert_eq. by eexists.
Qed.

Lemma spawnRelativeCache_rectsRecorded w :
  rectsRecorded w → rectsRecorded (Persist.spawnRelativeCache luck w).
Proof.
  intros Hw. destruct (playerPosition w) as [lat lng|name] eqn:Hp.
  - rewrite (spawnRelativeCache_unfold luck w lat lng Hp).
    generalize (neighborhood (playerCell lat lng).1 (playerCell lat lng).2). intros cells.
    refine (foldl_keeps rectsRecorded (λ w p, Persist.visit luck p.1 p.2 w) cells
              (setSpawnedCaches ∅ w) Hw _).
    intros w' p _ H. by apply visit_rectsRecorded.
  - unfold Persist.spawnRelativeCache. by rewrite Hp.
Qed.

Lemma rectsRecorded_ext w w' :
  rects w' = rects w → cacheStateMemento w' = cacheStateMemento w →
  rectsRecorded w → rectsRecorded w'.
Proof. unfold rectsRecorded. by intros -> ->. Qed.

Lemma popup_rects c w :
  rects (generatePopupContent luck c w) = rects w
  ∧ cacheStateMemento (generatePopupContent luck c w) = cacheStateMemento w.
Proof.
  unfold generatePopupContent. destruct (decide _); [done|]. simpl.
  pose proof (createMany_fields (Z.to_nat (coinCount luck c)) c w) as H.
  simpl in H. intuition congruence.
Qed.

Lemma collect_rects t w :
  rects (collect t w) = rects w ∧ cacheStateMemento (collect t w) = cacheStateMemento w.
Proof. unfold collect. destruct (tokens w !! t) as [g|]; [|done]. by destruct (collected g). Qed.

Lemma deposit_rects c w :
  rects (worldOf (handleCoinDeposit c w)) = rects w
  ∧ cacheStateMemento (worldOf (handleCoinDeposit c w)) = cacheStateMemento w.
Proof.
  unfold handleCoinDeposit. destruct (last (playerCoins w)) as [t|]; [|done].
  match goal with |- context [removeCoin c t ?v] =>
    pose proof (removeCoin_fields c t v) as H; destruct (removeCoin c t v) as [w1|w1]
  end; simpl in *.
  - pose proof (addCoinToCache_fields c t w1) as H'. simpl in H'. intuition congruence.
  - intuition congruence.
Qed.

Lemma persist_move_shape direction w :
  worldOf (Persist.movePlayer luck direction w) = w
  ∨ (∃ name, worldOf (Persist.movePlayer luck direction w)
             = setPlayerPosition (Inherited name) w)
  ∨ ∃ p, worldOf (Persist.movePlayer luck direction w)
         = Persist.updatePlayerMovementHistory
             (Persist.spawnRelativeCache luck
                (emit (MapPanTo p) (emit (MarkerSetLatLng p) (setPlayerPosition p w)))).
Proof.
  unfold Persist.movePlayer.
  destruct (movementLookup _ _) as [[lat lng|name]|].
  - right. right. by exists (LatLng lat lng).
  - right. left. by exists name.
  - by left.
Qed.

Lemma updatePlayerMovementHistory_rects w :
  rects (Persist.updatePlayerMovementHistory w) = rects w
  ∧ cacheStateMemento (Persist.updatePlayerMovementHistory w) = cacheStateMemento w.
Proof. done. Qed.

Lemma persist_move_rects direction w :
  rectsRecorded w → rectsRecorded (worldOf (Persist.movePlayer luck direction w)).
Proof.
  intros Hw.
  destruct (persist_move_shape direction w) as [->|[(name & ->)|(p & ->)]];
    [exact Hw|exact Hw|].
  eapply rectsRecorded_ext; [apply updatePlayerMovementHistory_rects..|].
  apply spawnRelativeCache_rectsRecorded. exact Hw.
Qed.

Lemma persist_step_rects a w :
  rectsRecorded w → rectsRecorded (PersistPage.step luck a w).
Proof.
  intros Hw. destruct a as [c|coin|c|direction|latitude longitude]; simpl.
  - destruct (popup_rects c w) as [H1 H2]. by eapply rectsRecorded_ext.
  - destruct (collect_rects coin w) as [H1 H2]. by eapply rectsRecorded_ext.
  - destruct (deposit_rects c w) as [H1 H2]. by eapply rectsRecorded_ext.
  - case_decide; [by apply persist_move_rects|done].
  - unfold PersistPage.updatePlayerPositionFromGeolocation.
    by apply spawnRelativeCache_rectsRecorded.
Qed.
End MementoFacts.

(** X12.  After [spawnRelativeCache()] the caches marked spawned are
    exactly the cells of the player's 17 by 17 neighbourhood that had a
    memento before the call: earlier marks are dropped, and a cache that
    the call spawns for the first time is not marked. *)
Theorem spawnRelativeCache_marks_cells_with_memento
    (luck : string → Q) (w : World) (lat lng : Q) (K : string) :
  playerPosition w = LatLng lat lng →
  K ∈ spawnedCaches (Persist.spawnRelativeCache luck w)
  ↔ ∃ p, p ∈ neighborhood (playerCell lat lng).1 (playerCell lat lng).2
         ∧ K = cellKey (integerCell p)
         ∧ is_Some (cacheStateMemento w !! K).
Proof.
  intros Hp. rewrite (spawnRelativeCache_unfold luck w lat lng Hp).
  rewrite visits_spawned by apply NoDup_neighborhood. simpl. split.
  - intros [H|H]; [by apply elem_of_empty in H|done].
  - intros H. by right.
Qed.

(** X13.  In the version with mementos, started with nothing stored, no
    cell ever gets a second rectangle: after any sequence of user actions
    the rectangles on the map belong to pairwise different cells with
    integer coordinates, each with a memento. *)
Theorem persist_page_draws_each_cell_once
    (luck : string → Q) (acts : list PersistPage.Action) :
  let w := PersistPage.run luck acts (Persist.startup luck) in
  NoDup (rects w)
  ∧ ∀ c, c ∈ rects w →
      ∃ p, c = integerCell p ∧ is_Some (cacheStateMemento w !! cellKey c).
Proof.
  assert (H0 : rectsRecorded (Persist.startup luck)).
  { apply spawnRelativeCache_rectsRecorded. split; [apply NoDup_nil_2|].
    intros c Hc. by apply elem_of_nil in Hc. }
  unfold PersistPage.run. revert H0. generalize (Persist.startup luck).
  induction acts as [|a acts IH]; intros w Hw; cbn [foldl]; [exact Hw|].
  apply IH, persist_step_rects, Hw.
Qed.

Lemma spawnRelativeCache_marks_witness :
  playerPosition persistAfterPopup = LatLng OAKES_CLASSROOM_lat OAKES_CLASSROOM_lng
  ∧ cellKey originCell
    ∈ spawnedCaches (Persist.spawnRelativeCache scenarioLuck persistAfterPopup).
Proof.
  assert (H1 : playerPosition persistAfterPopup
               = LatLng OAKES_CLASSROOM_lat OAKES_CLASSROOM_lng) by (vm_compute; reflexivity).
  split; [exact H1|].
  apply (proj2 (spawnRelativeCache_marks_cells_with_memento scenarioLuck persistAfterPopup
                  _ _ (cellKey originCell) H1)).
  exists (0, 0)%Z. split; [by_evaluation|]. split; [reflexivity|].
  exists ("0:0", 0). vm_compute. reflexivity.
Defined.

(** ** [src/main.ts]: cache lists and the keyboard *)


Lemma NoDup_without_snoc t l : NoDup l → NoDup (without t l ++ [t]).
Proof.
  intros Hnd. destruct (decide (t ∈ l)) as [Hin|Hin].
  - by rewrite (without_snoc_Permutation t l Hin).
  - unfold without. destruct (indexOf t l) as [k|] eqn:E.
    + apply indexOf_Some in E. by apply list_elem_of_lookup_2 in E.
    + apply NoDup_app. split; [done|]. split; [|apply NoDup_singleton].
      intros x Hx Hx'%list_elem_of_singleton. by subst.
Qed.

Lemma create_distinct c w : Sound w → listsDistinct w → listsDistinct (create c w).2.
Proof.
  intros Hs Hd.
  destruct (create_spec c w (sound_arrays _ Hs))
    as (a & arrays0 & _ & _ & _ & Harr & Hlt & _ & Hcase).
  simpl in *. intros x l. rewrite Harr.
  assert (H0 : ∀ y k, arrays0 !! y = Some k →
            NoDup k ∧ ∀ t, t ∈ k → t < length (tokens w)).
  { intros y k Hy. destruct Hcase as [[_ ->]|(_ & _ & ->)].
    - split; [by eapply Hd|]. intros t. by eapply (sound_caches_created _ Hs).
    - apply lookup_app_Some in Hy as [Hy|[_ Hy]].
      + split; [by eapply Hd|]. intros t. by eapply (sound_caches_created _ Hs).
      + destruct (y - length (arrays w)) as [|n]; simpl in Hy; [|by destruct n].
        injection Hy as <-. split; [apply NoDup_nil_2|].
        intros t Ht. by apply elem_of_nil in Ht. }
  destruct (decide (x = a)) as [->|Hne].
  - rewrite list_lookup_alter_eq.
    destruct (arrays0 !! a) as [k|] eqn:Ek; simpl; [|done].
    intros [= <-]. destruct (H0 _ _ Ek) as [Hnd Hlt'].
    apply NoDup_app. split; [done|]. split; [|apply NoDup_singleton].
    intros t Ht Ht'%list_elem_of_singleton. subst t. apply Hlt' in Ht. lia.
  - rewrite list_lookup_alter_ne by done. intros Hx. by destruct (H0 _ _ Hx).
Qed.

Lemma createMany_distinct n c w :
  Sound w → listsDistinct w → listsDistinct (createMany n c w).
Proof.
  revert w. induction n as [|n IH]; intros w Hs Hd; simpl; [done|].
  apply IH; [by apply create_sound|by apply create_distinct].
Qed.

Lemma deposit_distinct c w :
  Sound w → listsDistinct w → listsDistinct (worldOf (handleCoinDeposit c w)).
Proof.
  intros Hs Hd. destruct (snoc_cases (playerCoins w)) as [Hpc|(inv & t & Hinv)].
  - by rewrite deposit_empty.
  - destruct (coins w !! cellKey c) as [a|] eqn:Hk.
    + destruct (lookup_lt_is_Some_2 (arrays w) a) as [l Hl].
      { by eapply (sound_arrays _ Hs). }
      rewrite (deposit_normal c w inv t a l) by done.
      intros x k. simpl. destruct (decide (x = a)) as [->|Hne].
      * rewrite list_lookup_insert_eq by (by eapply lookup_lt_Some).
        intros [= <-]. apply NoDup_without_snoc. by eapply Hd.
      * rewrite list_lookup_insert_ne by done. apply Hd.
    + by rewrite (deposit_thrown c w inv t).
Qed.

Section MainPageFacts.
Variable luck : string → Q.

Lemma main_step_distinct a w :
  Sound w → listsDistinct w → listsDistinct (Main.step luck a w).
Proof.
  intros Hs Hd. destruct a as [c|coin|c|key]; simpl.
  - unfold generatePopupContent. destruct (decide _); [done|].
    by apply (createMany_distinct (Z.to_nat (coinCount luck c)) c w).
  - unfold collect. destruct (tokens w !! coin) as [g|]; [|done].
    by destruct (collected g).
  - by apply deposit_distinct.
  - pose proof (onKeyDown_fields key w) as (_ & H & _). simpl in H.
    unfold listsDistinct. by rewrite H.
Qed.

Lemma main_run_distinct acts w :
  Sound w → listsDistinct w → listsDistinct (Main.run luck acts w).
Proof.
  unfold Main.run. revert w. induction acts as [|a acts IH]; intros w Hs Hd; [done|].
  cbn [foldl]. apply IH; [by apply step_sound|by apply main_step_distinct].
Qed.

Lemma main_key_positioned key w :
  positioned w →
  ∃ w', Main.onKeyDown key w = Normal w' ∧ positioned w'.
Proof.
  intros (lat & lng & Hp). unfold Main.onKeyDown.
  assert (H : ∀ direction, direction ∈ directions →
            ∃ w', Main.movePlayer direction w = Normal w' ∧ positioned w').
  { intros direction Hd. unfold Main.movePlayer.
    rewrite Hp, movementLookup_direction by done.
    destruct (ownMovement_direction lat lng direction Hd) as (la & lo & ->).
    eexists. split; [reflexivity|]. by exists la, lo. }
  repeat case_decide; try (apply H; by_evaluation).
  exists w. split; [done|]. by exists lat, lng.
Qed.

Lemma main_step_positioned a w : positioned w → positioned (Main.step luck a w).
Proof.
  intros Hp. destruct a as [c|coin|c|key]; simpl.
  - destruct Hp as (lat & lng & Hp). exists lat, lng.
    unfold generatePopupContent. destruct (decide _); [done|]. simpl.
    pose proof (createMany_fields (Z.to_nat (coinCount luck c)) c w) as H.
    simpl in H. destruct H as (_ & _ & H & _). congruence.
  - destruct Hp as (lat & lng & Hp). exists lat, lng.
    unfold collect. destruct (tokens w !! coin) as [g|]; [|done].
    by destruct (collected g).
  - destruct Hp as (lat & lng & Hp). exists lat, lng.
    destruct (snoc_cases (playerCoins w)) as [Hpc|(inv & t & Hpc)].
    + by rewrite deposit_empty.
    + destruct (deposit_player c w inv t Hpc) as (_ & _ & _ & -> & _). done.
  - destruct (main_key_positioned key w Hp) as (w' & -> & Hp'). done.
Qed.
End MainPageFacts.

(** X14.  In [src/main.ts], after any sequence of user actions, no cache
    lists a coin twice. *)
Theorem main_page_lists_each_coin_once
    (luck : string → Q) (acts : list Main.Action) (c : Cell) :
  NoDup (getCoins c (Main.run luck acts (Main.startup luck))).
Proof.
  assert (H : listsDistinct (Main.run luck acts (Main.startup luck))).
  { apply main_run_distinct; [apply startup_sound|].
    unfold Main.startup. destruct (spawnNeighborhood_setRects luck initialWorld) as [rs ->].
    intros a l H. simpl in H. by rewrite lookup_nil in H. }
  unfold getCoins, arrayOf.
  destruct (coins _ !! cellKey c) as [a|]; [|apply NoDup_nil_2].
  destruct (arrays _ !! a) as [l|] eqn:E; simpl; [by eapply H|apply NoDup_nil_2].
Qed.

(** X15.  In [src/main.ts], after any sequence of user actions the
    position is a [LatLng], and the [keydown] listener completes normally
    for every key and leaves a [LatLng]: the four arrow keys reach
    [movePlayer] with its own four directions only. *)
Theorem main_page_keys_never_throw
    (luck : string → Q) (acts : list Main.Action) (key : string) :
  let w := Main.run luck acts (Main.startup luck) in
  (∃ lat lng, playerPosition w = LatLng lat lng)
  ∧ ∃ w' lat lng, Main.onKeyDown key w = Normal w' ∧ playerPosition w' = LatLng lat lng.
Proof.
  assert (H : positioned (Main.run luck acts (Main.startup luck))).
  { assert (H0 : positioned (Main.startup luck)).
    { unfold Main.startup. destruct (spawnNeighborhood_setRects luck initialWorld) as [rs ->].
      by eexists _, _. }
    unfold Main.run. revert H0. generalize (Main.startup luck).
    induction acts as [|a acts IH]; intros w Hw; cbn [foldl]; [exact Hw|].
    apply IH, main_step_positioned, Hw. }
  simpl. split; [exact H|].
  destruct (main_key_positioned key _ H) as (w' & Hw' & lat & lng & Hp).
  by exists w', lat, lng.
Qed.

(** ** Geolocation tracking *)

Section GeolocationFacts.
Import Geolocation.
Variable supported : bool.

Lemma clicks_succ n t :
  clicks supported (S n) t = toggleGeolocationTracking supported (clicks supported n t).
Proof. done. Qed.

Lemma clicks_invariant n :
  let t := clicks supported n initialTracking in
  isGeolocationActive t = Nat.odd n
  ∧ sensorColor t = (if Nat.odd n then "lightgreen" else "")
  ∧ watchId t = (if supported && Nat.odd n then Some (nextWatch t - 1) else None)
  ∧ running t = (if supported && Nat.odd n then {[nextWatch t - 1]} else ∅)
  ∧ (supported = true → alerts t = []).
Proof.
  induction n as [|n IH].
  - simpl. rewrite andb_false_r. by repeat split.
  - rewrite clicks_succ. set (t := clicks supported n initialTracking) in *.
    simpl in IH. destruct IH as (Ha & Hc & Hw & Hr & Hal).
    rewrite Nat.odd_succ, <- Nat.negb_odd.
    unfold toggleGeolocationTracking, stopGeolocationTracking, startGeolocationTracking.
    clearbody t. rewrite Ha. destruct (Nat.odd n); simpl.
    + rewrite andb_false_r. rewrite Hw. destruct supported; simpl.
      * rewrite Hr. simpl. repeat split; try done. apply difference_diag_L.
      * rewrite Hr. by repeat split.
    + rewrite andb_false_r in Hw, Hr. destruct supported; simpl.
      * rewrite Nat.sub_0_r, Hr. repeat split; try done.
        apply (right_id_L ∅ (∪)).
      * rewrite Hw, Hr. by repeat split.
Qed.
End GeolocationFacts.

(** X16.  After [n] clicks on the sensor button tracking is active exactly
    when [n] is odd and the button is green exactly then; the watches
    running in the browser are the one in [watchId], if any; [watchId] is
    set exactly when tracking is active and the browser has geolocation,
    where no alert is ever shown. *)
Theorem sensor_button_keeps_at_most_one_watch (supported : bool) (n : nat) :
  let t := Geolocation.clicks supported n Geolocation.initialTracking in
  Geolocation.isGeolocationActive t = Nat.odd n
  ∧ Geolocation.sensorColor t = (if Nat.odd n then "lightgreen" else "")
  ∧ Geolocation.running t
    = match Geolocation.watchId t with Some id => {[id]} | None => ∅ end
  ∧ (is_Some (Geolocation.watchId t) ↔ supported = true ∧ Nat.odd n = true)
  ∧ (supported = true → Geolocation.alerts t = []).
Proof.
  destruct (clicks_invariant supported n) as (Ha & Hc & Hw & Hr & Hal).
  simpl in *. split; [done|]. split; [done|]. split; [|split; [|done]].
  - rewrite Hr, Hw. by destruct (supported && Nat.odd n).
  - rewrite Hw. destruct supported, (Nat.odd n); simpl; split; try done.
    all: by intros [??].
Qed.

(** ** The stored player state *)

Lemma lookup_allocated {A} (l k : list A) :
  (λ t, (l ++ k) !! t) <$> seq (length l) (length k) = Some <$> k.
Proof.
  apply list_eq. intros n. rewrite !list_lookup_fmap.
  destruct (decide (n < length k)) as [Hlt|Hge].
  - rewrite lookup_seq_lt by done. simpl.
    rewrite lookup_app_r by lia. replace (length l + n - length l) with n by lia.
    by destruct (lookup_lt_is_Some_2 k n Hlt) as [x ->].
  - rewrite lookup_seq_ge by lia. simpl. rewrite (lookup_ge_None_2 k n) by lia. done.
Qed.

Section StorageFacts.
Import Storage.

Lemma loadCacheState_frame cs w :
  playerCoins (loadCacheState cs w) = playerCoins w
  ∧ playerPoints (loadCacheState cs w) = playerPoints w
  ∧ playerPosition (loadCacheState cs w) = playerPosition w
  ∧ playerMovementHistory (loadCacheState cs w) = playerMovementHistory w
  ∧ ∀ t g, tokens w !! t = Some g → tokens (loadCacheState cs w) !! t = Some g.
Proof.
  destruct cs as [l|]; [|done]. simpl. revert w.
  induction l as [|c l IH]; intros w; [done|]. cbn [foldl].
  match goal with |- context [foldl ?f ?v l] => destruct (IH v) as (H1 & H2 & H3 & H4 & H5) end.
  rewrite H1, H2, H3, H4. repeat split; try done.
  intros t g Ht. apply H5. simpl. by apply lookup_app_l_Some.
Qed.

Lemma savedCoins_collected w :
  (∀ t g, t ∈ playerCoins w → tokens w !! t = Some g → collected g = true) →
  Forall (λ g, collected g = true) (savedCoins (savePlayerState w)).
Proof.
  intros H. simpl. apply Forall_forall. intros g Hg.
  apply list_elem_of_omap in Hg as (t & Ht & Hg). by eapply H.
Qed.

(** The loop of the last version's [loadPlayerState] over coins that all
    have the flag set. *)
Lemma load_coins_collected l w :
  Forall (λ g, collected g = true) l →
  let w' := foldl (λ w coin,
                     let geocoin := length (tokens w) in
                     let w := setTokens (tokens w ++ [coin]) w in
                     if collected coin then Manager.onCoinCollected geocoin w else w)
              w l in
  tokens w' = tokens w ++ l
  ∧ playerCoins w' = playerCoins w ++ seq (length (tokens w)) (length l)
  ∧ playerPoints w' = (playerPoints w + Z.of_nat (length l))%Z
  ∧ playerPosition w' = playerPosition w
  ∧ playerMovementHistory w' = playerMovementHistory w.
Proof.
  intros Hall. revert w. induction Hall as [|g l Hg Hall IH]; intros w.
  - simpl. rewrite !app_nil_r. repeat split; try done. lia.
  - cbn [foldl]. cbv zeta. rewrite Hg.
    match goal with |- context [foldl ?f ?v l] =>
      destruct (IH v) as (H1 & H2 & H3 & H4 & H5)
    end.
    cbv zeta in *. rewrite H1, H2, H3, H4, H5. simpl.
    rewrite length_app, <- !app_assoc. simpl. rewrite Nat.add_1_r.
    repeat split; try done. lia.
Qed.
End StorageFacts.

(** X17.  In the version with mementos, [loadPlayerState()] on the record
    that [savePlayerState()] wrote restores the position and gives the
    inventory new coin objects with the stored data, in order; the score
    stays 0 and the movement history stays empty, whatever is stored as
    cache state. *)
Theorem reload_restores_coins_but_not_score
    (w : World) (lat lng : Q) (cacheState : option (list Storage.CacheState)) :
  playerPosition w = LatLng lat lng →
  ∃ w', Storage.loadPlayerState (Some (Storage.savePlayerState w)) cacheState initialWorld
        = Some w'
    ∧ playerPosition w' = LatLng lat lng
    ∧ (λ t, tokens w' !! t) <$> playerCoins w'
      = Some <$> omap (λ t, tokens w !! t) (playerCoins w)
    ∧ playerPoints w' = 0%Z
    ∧ playerMovementHistory w' = [].
Proof.
  intros Hp. unfold Storage.loadPlayerState, Storage.savePlayerState. rewrite Hp. simpl.
  eexists. split; [reflexivity|].
  match goal with |- context [Storage.loadCacheState cacheState ?v] =>
    destruct (loadCacheState_frame cacheState v) as (H1 & H2 & H3 & H4 & H5);
    set (X := Storage.loadCacheState cacheState v) in *; clearbody X
  end.
  simpl in *. rewrite H1, H2, H3, H4. repeat split; try done.
  set (l := omap (λ t, tokens w !! t) (playerCoins w)) in *.
  pose proof (lookup_allocated [] l) as Hl. simpl in Hl. rewrite <- Hl.
  apply list_eq. intros n. rewrite !list_lookup_fmap.
  destruct (seq 0 (length l) !! n) as [t|] eqn:E; simpl; [|done].
  apply lookup_seq in E as [-> Hlt]. simpl.
  destruct (lookup_lt_is_Some_2 l n Hlt) as [g Eg]. by rewrite Eg, (H5 _ _ Eg).
Qed.

Lemma reload_witness :
  playerPosition (collect 0 persistAfterPopup)
  = LatLng OAKES_CLASSROOM_lat OAKES_CLASSROOM_lng
  ∧ playerPoints (collect 0 persistAfterPopup) = 1%Z
  ∧ ∃ w', Storage.loadPlayerState
            (Some (Storage.savePlayerState (collect 0 persistAfterPopup))) None initialWorld
          = Some w'
      ∧ playerPoints w' = 0%Z.
Proof.
  assert (H1 : playerPosition (collect 0 persistAfterPopup)
               = LatLng OAKES_CLASSROOM_lat OAKES_CLASSROOM_lng) by (vm_compute; reflexivity).
  split; [exact H1|]. split; [vm_compute; reflexivity|].
  destruct (reload_restores_coins_but_not_score (collect 0 persistAfterPopup) _ _ None H1)
    as (w' & Hw & _ & _ & Hpt & _).
  exists w'. split; [exact Hw|exact Hpt].
Defined.

(** X18.  In the last version, when every held coin has its flag set,
    [loadPlayerState()] on the record that [savePlayerState()] wrote
    restores the position, gives the inventory new coin objects with the
    stored data, in order, and sets the score to their number; the movement
    history is the restored position alone. *)
Theorem manager_reload_restores_score
    (w : World) (lat lng : Q) (cacheState : option (list Storage.CacheState)) :
  playerPosition w = LatLng lat lng →
  (∀ t g, t ∈ playerCoins w → tokens w !! t = Some g → collected g = true) →
  ∃ w', Storage.loadPlayerStateManager (Some (Storage.savePlayerState w)) cacheState
          initialWorld = Some w'
    ∧ playerPosition w' = LatLng lat lng
    ∧ (λ t, tokens w' !! t) <$> playerCoins w'
      = Some <$> omap (λ t, tokens w !! t) (playerCoins w)
    ∧ playerPoints w' = Z.of_nat (length (omap (λ t, tokens w !! t) (playerCoins w)))
    ∧ playerMovementHistory w' = [LatLng lat lng].
Proof.
  intros Hp Hcol. pose proof (savedCoins_collected w Hcol) as Hall.
  unfold Storage.loadPlayerStateManager, Storage.savePlayerState in *. rewrite Hp.
  cbn [Storage.savedPosition Storage.savedCoins Storage.storePosition
       Storage.storedLat Storage.storedLng] in *.
  set (l := omap (λ t, tokens w !! t) (playerCoins w)) in *.
  eexists. split; [reflexivity|].
  match goal with |- context [Storage.loadCacheState cacheState ?v] =>
    destruct (loadCacheState_frame cacheState v) as (H1 & H2 & H3 & H4 & H5);
    set (X := Storage.loadCacheState cacheState v) in *; clearbody X
  end.
  match type of H1 with context [foldl ?f ?v l] =>
    destruct (load_coins_collected l v Hall) as (G1 & G2 & G3 & G4 & G5);
    set (Y := foldl f v l) in *; clearbody Y
  end.
  simpl in *. rewrite H1, H2, H3, H4, G2, G3, G4, G5. repeat split; try done.
  pose proof (lookup_allocated [] l) as Hl. simpl in Hl. rewrite <- Hl.
  apply list_eq. intros n. rewrite !list_lookup_fmap.
  destruct (seq 0 (length l) !! n) as [t|] eqn:E; simpl; [|done].
  apply lookup_seq in E as [-> Hlt]. simpl.
  destruct (lookup_lt_is_Some_2 l n Hlt) as [g Eg]. rewrite Eg. f_equal.
  apply H5. simpl. by rewrite G1.
Qed.

Lemma manager_reload_witness :
  playerPosition managerBeforeReset
  = LatLng (OAKES_CLASSROOM_lat + TILE_DEGREES)%Q OAKES_CLASSROOM_lng
  ∧ (∀ t g, t ∈ playerCoins managerBeforeReset →
       tokens managerBeforeReset !! t = Some g → collected g = true)
  ∧ playerPoints managerBeforeReset = 1%Z
  ∧ ∃ w', Storage.loadPlayerStateManager
            (Some (Storage.savePlayerState managerBeforeReset)) None initialWorld
          = Some w'
      ∧ playerMovementHistory w'
        = [LatLng (OAKES_CLASSROOM_lat + TILE_DEGREES)%Q OAKES_CLASSROOM_lng].
Proof.
  assert (H1 : playerPosition managerBeforeReset
               = LatLng (OAKES_CLASSROOM_lat + TILE_DEGREES)%Q OAKES_CLASSROOM_lng)
    by (vm_compute; reflexivity).
  assert (H2 : ∀ t g, t ∈ playerCoins managerBeforeReset →
                 tokens managerBeforeReset !! t = Some g → collected g = true).
  { assert (Hpc : playerCoins managerBeforeReset = [0]) by (vm_compute; reflexivity).
    assert (Ht : collected <$> tokens managerBeforeReset !! 0 = Some true)
      by (vm_compute; reflexivity).
    intros t g Hin Hg. rewrite Hpc in Hin. apply list_elem_of_singleton in Hin. subst t.
    rewrite Hg in Ht. simpl in Ht. congruence. }
  split; [exact H1|]. split; [exact H2|]. split; [vm_compute; reflexivity|].
  destruct (manager_reload_restores_score managerBeforeReset _ _ None H1 H2)
    as (w' & Hw & _ & _ & _ & Hh).
  exists w'. split; [exact Hw|exact Hh].
Defined.

(** ** Geolocation fixes *)

(** X19.  A geolocation fix sets the position to the fix, moves the marker
    and pans the map, and leaves the coins, the inventory and the score
    alone; the version with mementos leaves the movement history as it
    is, the last version appends the fix to it and notifies its
    listeners. *)
Theorem geolocation_fix_moves_player
    (luck : string → Q) (latitude longitude : Q) (w : World) :
  let p := PersistPage.updatePlayerPositionFromGeolocation luck latitude longitude w in
  let m := ManagerPage.updatePlayerPositionFromGeolocation luck latitude longitude w in
  playerPosition p = LatLng latitude longitude
  ∧ playerMovementHistory p = playerMovementHistory w
  ∧ log p = log w ++ [MarkerSetLatLng (LatLng latitude longitude);
                      MapPanTo (LatLng latitude longitude)]
  ∧ playerPosition m = LatLng latitude longitude
  ∧ playerMovementHistory m = playerMovementHistory w ++ [LatLng latitude longitude]
  ∧ log m = log w ++ [NotifyListeners; MarkerSetLatLng (LatLng latitude longitude);
                      MapPanTo (LatLng latitude longitude)]
  ∧ tokens p = tokens w ∧ playerCoins p = playerCoins w ∧ playerPoints p = playerPoints w
  ∧ tokens m = tokens w ∧ playerCoins m = playerCoins w ∧ playerPoints m = playerPoints w.
Proof.
  unfold PersistPage.updatePlayerPositionFromGeolocation,
    ManagerPage.updatePlayerPositionFromGeolocation, Manager.updatePlayerPosition.
  match goal with |- context [Persist.spawnRelativeCache luck ?v] =>
    pose proof (spawnRelativeCache_frame luck v) as (H1 & H2 & H3 & H4 & H5 & H6);
    set (X := Persist.spawnRelativeCache luck v) in *; clearbody X
  end.
  match goal with |- context [Persist.spawnRelativeCache luck ?v] =>
    pose proof (spawnRelativeCache_frame luck v) as (G1 & G2 & G3 & G4 & G5 & G6);
    set (Y := Persist.spawnRelativeCache luck v) in *; clearbody Y
  end.
  simpl in *. rewrite H1, H2, H3, H4, H5, H6, G1, G2, G3, G4, G5, G6.
  rewrite <- !app_assoc. by repeat split.
Qed.
